(** * fuelers-go: workspace tooling scripts

    A shallow embedding of the TypeScript tooling of the repository:

    - [scripts/go-workspace-sync.ts]   (module [Sync])
    - [tooling/scripts/make-app.ts]    (module [MakeApp])
    - [tooling/scripts/make-package.ts] (module [MakePackage])
    - [scripts/deploy-service.ts]      (module [Deploy])

    Strings are byte strings ([string]): the UTF-8 text of the JavaScript
    string.  White space is that of [trim] and of the class [\s], every
    code point of it in its UTF-8 bytes.  Case mapping is that of ASCII: the
    letters outside ASCII, which [toUpperCase] also knows, are left as they
    are.  The file system is a finite map from absolute,
    normalised paths to entries; every call of the [node:fs] API is a
    computation in the monad [IO], which threads the disk, records every
    call and every console line in a trace, and stops on [process.exit] or
    on an uncaught exception.  Symbolic links are not modelled. *)

From Stdlib Require Import Ascii.
From stdpp Require Import gmap strings list fin_maps sorting pretty.


(** ** JavaScript strings and arrays *)

Definition nl : string := String "010"%char "".
Definition tab : string := String "009"%char "".
Definition dquote : string := String "034"%char "".

(** *** White space

    [String.prototype.trim] and the regular expression class [\s] know the
    same white space: TAB, LF, VT, FF, CR, SPACE, U+00A0, U+1680, U+2000 to
    U+200A, U+2028, U+2029, U+202F, U+205F, U+3000 and U+FEFF.  In UTF-8 a
    character of it is one byte, the two bytes of U+00A0, or three bytes. *)

Definition isWhiteSpace1 (c : ascii) : bool :=
  let n := nat_of_ascii c in
  (n =? 32)%nat || ((9 <=? n)%nat && (n <=? 13)%nat).

Definition isWhiteSpace2 (c d : ascii) : bool :=
  (nat_of_ascii c =? 194)%nat && (nat_of_ascii d =? 160)%nat.

Definition isWhiteSpace3 (c d e : ascii) : bool :=
  let '(c, d, e) := (nat_of_ascii c, nat_of_ascii d, nat_of_ascii e) in
  ((c =? 225) && (d =? 154) && (e =? 128)
   || (c =? 226) && (d =? 128)
      && ((128 <=? e) && (e <=? 138) || (e =? 168) || (e =? 169) || (e =? 175))
   || (c =? 226) && (d =? 129) && (e =? 159)
   || (c =? 227) && (d =? 128) && (e =? 128)
   || (c =? 239) && (d =? 187) && (e =? 191))%nat.

(** [found rest] when [s] starts with a white-space character and goes on
    with [rest], else [none]. *)
Definition onWhiteSpace {A : Type} (s : string) (found : string → A) (none : A) : A :=
  match s with
  | String c s1 =>
      if isWhiteSpace1 c then found s1
      else match s1 with
           | String d s2 =>
               if isWhiteSpace2 c d then found s2
               else match s2 with
                    | String e s3 => if isWhiteSpace3 c d e then found s3 else none
                    | "" => none
                    end
           | "" => none
           end
  | "" => none
  end.

(** The text after the white-space character [s] starts with. *)
Definition stripWhiteSpace (s : string) : option string := onWhiteSpace s Some None.

Definition isLower (c : ascii) : bool :=
  let n := nat_of_ascii c in (97 <=? n)%nat && (n <=? 122)%nat.

Definition isDigit (c : ascii) : bool :=
  let n := nat_of_ascii c in (48 <=? n)%nat && (n <=? 57)%nat.

Definition isQuote (c : ascii) : bool :=
  let n := nat_of_ascii c in (n =? 34)%nat || (n =? 39)%nat.

Definition toUpperCaseChar (c : ascii) : ascii :=
  if isLower c then ascii_of_nat (nat_of_ascii c - 32) else c.

Fixpoint toUpperCase (s : string) : string :=
  match s with
  | "" => ""
  | String c s' => String (toUpperCaseChar c) (toUpperCase s')
  end.

(** [str.charAt(0).toUpperCase() + str.slice(1)] *)
Definition capitalize (str : string) : string :=
  match str with
  | "" => ""
  | String c rest => String (toUpperCaseChar c) rest
  end.

(** [s.split(sep)] for a one-character separator: never the empty array. *)
Fixpoint split (sep : ascii) (s : string) : list string :=
  match s with
  | "" => [""]
  | String c s' =>
      if Ascii.eqb c sep then "" :: split sep s'
      else match split sep s' with
           | piece :: pieces => String c piece :: pieces
           | [] => [String c ""]
           end
  end.

(** [parts.join(sep)] *)
Fixpoint join (sep : string) (parts : list string) : string :=
  match parts with
  | [] => ""
  | [p] => p
  | p :: ps => p +:+ sep +:+ join sep ps
  end.

Fixpoint trimStart (s : string) : string := onWhiteSpace s trimStart s.

(** The text is white space from end to end. *)
Definition allWhiteSpace (s : string) : bool := String.eqb (trimStart s) "".

Fixpoint trimEnd (s : string) : string :=
  match s with
  | "" => ""
  | String c s' => if allWhiteSpace s then "" else String c (trimEnd s')
  end.

Definition trim (s : string) : string := trimEnd (trimStart s).

Definition startsWith (pre s : string) : bool := String.prefix pre s.

(** [args.indexOf(x)]; [None] stands for [-1]. *)
Fixpoint indexOf (x : string) (args : list string) : option nat :=
  match args with
  | [] => None
  | a :: args' => if String.eqb a x then Some 0%nat else S <$> indexOf x args'
  end.

(** [arr.includes(x)] *)
Definition includes (x : string) (arr : list string) : bool :=
  existsb (String.eqb x) arr.

Fixpoint allChars (ok : ascii → bool) (s : string) : bool :=
  match s with
  | "" => true
  | String c s' => ok c && allChars ok s'
  end.

(** A non-empty string is truthy. *)
Definition truthy (s : string) : bool := negb (String.eqb s "").

(** [s] without the suffix [suf], when it ends with it. *)
Fixpoint stripSuffix (suf s : string) : option string :=
  if String.eqb s suf then Some ""
  else match s with
       | "" => None
       | String c s' => String c <$> stripSuffix suf s'
       end.

(** The default [Array.prototype.sort] orders strings by code units. *)
Definition str_le (a b : string) : Prop := String.leb a b = true.

#[global] Instance str_le_dec : RelDecision str_le.
Proof. intros a b. unfold str_le. apply _. Defined.

Definition sort (arr : list string) : list string := merge_sort str_le arr.

(** *** Objects used as string-keyed records

    An object is the list of its own properties in insertion order.
    [Object.entries] lists canonical array-index keys first, in ascending
    numeric order, and then the other keys in insertion order. *)

Definition jsobj (V : Type) : Type := list (string * V).

Fixpoint obj_set {V} (k : string) (v : V) (o : jsobj V) : jsobj V :=
  match o with
  | [] => [(k, v)]
  | (k', v') :: o' =>
      if String.eqb k' k then (k, v) :: o' else (k', v') :: obj_set k v o'
  end.

Fixpoint parseDigits (acc : N) (s : string) : option N :=
  match s with
  | "" => Some acc
  | String c s' =>
      if isDigit c
      then parseDigits (acc * 10 + (N.of_nat (nat_of_ascii c) - 48))%N s'
      else None
  end.

(** The array index a key denotes: a canonical decimal below [2^32 - 1]. *)
Definition arrayIndex (k : string) : option N :=
  match k with
  | "" => None
  | _ =>
      n ← parseDigits 0%N k;
      if decide (pretty n = k ∧ (n < 4294967295)%N) then Some n else None
  end.

Definition index_le {V} (a b : N * (string * V)) : Prop := (a.1 ≤ b.1)%N.

#[global] Instance index_le_dec {V} : RelDecision (@index_le V).
Proof. intros a b. unfold index_le. apply _. Defined.

Definition Object_entries {V} (o : jsobj V) : list (string * V) :=
  let indexed := omap (λ kv, n ← arrayIndex kv.1; Some (n, kv)) o in
  let named := filter (λ kv, arrayIndex kv.1 = None) o in
  (snd <$> merge_sort index_le indexed) ++ named.

(** ** Paths ([node:path], POSIX flavour)

    A path is the list of its segments from the file-system root.  A
    trailing separator is not tracked. *)

Definition path : Type := list string.

Definition path_step (acc : path) (seg : string) : path :=
  if String.eqb seg "" then acc
  else if String.eqb seg "." then acc
  else if String.eqb seg ".." then removelast acc
  else acc ++ [seg].

(** [path.join(base, ...parts)] for an absolute, normalised [base]. *)
Definition path_join (base : path) (parts : list string) : path :=
  fold_left path_step (flat_map (split "/"%char) parts) base.

(** [path.join(dir, name)] for the name of a directory entry, which is a
    single segment. *)
Definition path_child (dir : path) (name : string) : path := dir ++ [name].

Definition path_to_string (p : path) : string :=
  "/" +:+ join "/" p.

Fixpoint path_relative_segments (from to : path) : list string :=
  match from, to with
  | a :: from', b :: to' =>
      if String.eqb a b then path_relative_segments from' to'
      else (const ".." <$> from) ++ to
  | _, _ => (const ".." <$> from) ++ to
  end.

(** [path.relative(from, to)] *)
Definition path_relative (from to : path) : string :=
  join "/" (path_relative_segments from to).

(** ** The file system and the effects of a script *)

Inductive entry : Type :=
| FileE (content : string)
| DirE.

#[global] Instance entry_eq_dec : EqDecision entry.
Proof. solve_decision. Defined.

Abbreviation FS := (gmap path entry).

(** The entry at a path.  The root directory always exists.  The map is not
    required to hold the parents of its paths: the scripts are verified on
    every map, the well-formed ones included. *)
Definition stat (fs : FS) (p : path) : option entry :=
  match p with
  | [] => Some DirE
  | _ => fs !! p
  end.

Record Dirent : Type := mkDirent { name : string; isDirectory : bool }.

#[global] Instance Dirent_eq_dec : EqDecision Dirent.
Proof. solve_decision. Defined.

(** The name of [q] as an entry of the directory [dir]. *)
Fixpoint childName (dir q : path) : option string :=
  match dir, q with
  | [], [n] => Some n
  | a :: dir', b :: q' => if String.eqb a b then childName dir' q' else None
  | _, _ => None
  end.

Definition isDir (e : entry) : bool :=
  match e with DirE => true | FileE _ => false end.

(** The entries of a directory, in the order of the map: [readdirSync]
    promises no order, and [discoverModules] sorts what it keeps. *)
Definition dirents (fs : FS) (dir : path) : list Dirent :=
  omap (λ qe, n ← childName dir qe.1; Some (mkDirent n (isDir qe.2)))
       (map_to_list fs).

Definition parent (p : path) : path := removelast p.

(** Every non-empty prefix of [p], shortest first. *)
Fixpoint ancestors_and_self (pre p : path) : list path :=
  match p with
  | [] => []
  | s :: p' => (pre ++ [s]) :: ancestors_and_self (pre ++ [s]) p'
  end.

Inductive stream : Type := Log | Warn | Err.

Inductive event : Type :=
| Exists (p : path)
| ReadFile (p : path)
| Readdir (p : path)
| WriteFile (p : path) (data : string)
| Mkdir (p : path)
| Exec (command : string) (cwd : option path) (DEPLOY_ENV : option string)
| Console (s : stream) (msg : string).

#[global] Instance stream_eq_dec : EqDecision stream.
Proof. solve_decision. Defined.

#[global] Instance event_eq_dec : EqDecision event.
Proof. solve_decision. Defined.

Inductive exn : Type :=
| ENOENT (p : path)
| ENOTDIR (p : path)
| EISDIR (p : path)
| EEXIST (p : path)
| SyntaxError
| Error (msg : string)
| CommandFailed (command : string).

Inductive res (A : Type) : Type :=
| Ok (a : A)
| Exit (code : nat)
| Throw (e : exn).
Arguments Ok {A} a.
Arguments Exit {A} code.
Arguments Throw {A} e.

Record out (A : Type) : Type := Out { result : res A; disk : FS; trace : list event }.
Arguments Out {A} result disk trace.
Arguments result {A} o.
Arguments disk {A} o.
Arguments trace {A} o.

Definition IO (A : Type) : Type := FS → out A.

Definition ret {A} (a : A) : IO A := λ fs, Out (Ok a) fs [].

Definition bind {A B} (m : IO A) (f : A → IO B) : IO B := λ fs,
  let o := m fs in
  match result o with
  | Ok a => let o' := f a (disk o) in
            Out (result o') (disk o') (trace o ++ trace o')
  | Exit c => Out (Exit c) (disk o) (trace o)
  | Throw e => Out (Throw e) (disk o) (trace o)
  end.

Declare Scope io_scope.
Delimit Scope io_scope with io.
Bind Scope io_scope with IO.

Notation "x ← y ; z" := (bind y (λ x : _, z))
  (at level 20, y at level 100, z at level 200, only parsing) : io_scope.
Notation "' x ← y ; z" := (bind y (λ x : _, z))
  (at level 20, x pattern, y at level 100, z at level 200, only parsing) : io_scope.
Notation "x ;; z" := (bind x (λ _, z))
  (at level 100, z at level 200, only parsing, right associativity) : io_scope.

Open Scope io_scope.

(** [process.exit(code)] *)
Definition process_exit {A} (code : nat) : IO A := λ fs, Out (Exit code) fs [].

(** [throw e] *)
Definition throw {A} (e : exn) : IO A := λ fs, Out (Throw e) fs [].

(** [try { body } catch { handler }] *)
Definition try_catch {A} (body : IO A) (handler : IO A) : IO A := λ fs,
  let o := body fs in
  match result o with
  | Throw _ => let o' := handler (disk o) in
               Out (result o') (disk o') (trace o ++ trace o')
  | _ => o
  end.

Definition console (s : stream) (msg : string) : IO unit :=
  λ fs, Out (Ok tt) fs [Console s msg].

Definition console_log : string → IO unit := console Log.
Definition console_warn : string → IO unit := console Warn.
Definition console_error : string → IO unit := console Err.

(** [fs.existsSync(p)] *)
Definition existsSync (p : path) : IO bool :=
  λ fs, Out (Ok (bool_decide (is_Some (stat fs p)))) fs [Exists p].

(** [fs.readFileSync(p, "utf-8")] *)
Definition readFileSync (p : path) : IO string := λ fs,
  match stat fs p with
  | Some (FileE c) => Out (Ok c) fs [ReadFile p]
  | Some DirE => Out (Throw (EISDIR p)) fs [ReadFile p]
  | None => Out (Throw (ENOENT p)) fs [ReadFile p]
  end.

(** [fs.readdirSync(p, { withFileTypes: true })] *)
Definition readdirSync (p : path) : IO (list Dirent) := λ fs,
  match stat fs p with
  | Some DirE => Out (Ok (dirents fs p)) fs [Readdir p]
  | Some (FileE _) => Out (Throw (ENOTDIR p)) fs [Readdir p]
  | None => Out (Throw (ENOENT p)) fs [Readdir p]
  end.

(** [fs.writeFileSync(p, data, "utf-8")] *)
Definition writeFileSync (p : path) (data : string) : IO unit := λ fs,
  match stat fs p with
  | Some DirE => Out (Throw (EISDIR p)) fs [WriteFile p data]
  | _ =>
      match stat fs (parent p) with
      | Some DirE => Out (Ok tt) (<[p := FileE data]> fs) [WriteFile p data]
      | Some (FileE _) => Out (Throw (ENOTDIR p)) fs [WriteFile p data]
      | None => Out (Throw (ENOENT p)) fs [WriteFile p data]
      end
  end.

(** [fs.mkdirSync(p, { recursive: true })] *)
Definition mkdirSync (p : path) : IO unit := λ fs,
  let chain := ancestors_and_self [] p in
  if forallb (λ q, match fs !! q with Some (FileE _) => false | _ => true end) chain
  then Out (Ok tt) (foldr (λ q acc, <[q := DirE]> acc) fs chain) [Mkdir p]
  else Out (Throw (EEXIST p)) fs [Mkdir p].

(** What an external command does to the disk, and whether it exits with
    status 0: [shell command cwd DEPLOY_ENV disk]. *)
Definition shell : Type := string → option path → option string → FS → bool * FS.

(** [execSync(command, { cwd, env })]: throws when the command fails. *)
Definition execSync (sh : shell) (command : string) (cwd : option path)
    (DEPLOY_ENV : option string) : IO unit := λ fs,
  let '(ok, fs') := sh command cwd DEPLOY_ENV fs in
  Out (if ok then Ok tt else Throw (CommandFailed command)) fs'
      [Exec command cwd DEPLOY_ENV].

(** [for (const x of xs) body(x)] *)
Fixpoint forOf {A} (xs : list A) (body : A → IO unit) : IO unit :=
  match xs with
  | [] => ret tt
  | x :: xs' => body x ;; forOf xs' body
  end.

(** A loop that threads an accumulator through its body. *)
Fixpoint forOfAcc {A S} (xs : list A) (acc : S) (body : S → A → IO S) : IO S :=
  match xs with
  | [] => ret acc
  | x :: xs' => acc' ← body acc x; forOfAcc xs' acc' body
  end.

Definition isMutation (ev : event) : bool :=
  match ev with
  | WriteFile _ _ | Mkdir _ | Exec _ _ _ => true
  | _ => false
  end.

(** The file-system mutations a run attempted. *)
Definition mutations (tr : list event) : list event := filter isMutation tr.

(** A computation that leaves the disk as it is and attempts no mutation. *)
Definition readOnly {A} (m : IO A) : Prop :=
  ∀ fs, disk (m fs) = fs ∧ mutations (trace (m fs)) = [].

(** A computation whose outcome is the same on two disks. *)
Definition agree {A : Type} (fs fs' : FS) (m : IO A) : Prop :=
  result (m fs') = result (m fs).

Definition isWrite (ev : event) : bool :=
  match ev with WriteFile _ _ => true | _ => false end.

Definition writes (tr : list event) : list event := filter isWrite tr.

Definition isProbe (ev : event) : bool :=
  match ev with Exists _ => true | _ => false end.

Definition probes (tr : list event) : list event := filter isProbe tr.

Definition isConsole (ev : event) : bool :=
  match ev with Console _ _ => true | _ => false end.

(** ** scripts/go-workspace-sync.ts *)

Module Sync.

Inductive Workspaces : Type :=
| WorkspacesArray (globs : list string)
| WorkspacesObject (packages : option (list string)).

(** The fields of the root [package.json] the script reads. *)
Record RootPackageJson : Type :=
  { packageManager : option string; workspaces : option Workspaces }.

(** *** The line pattern of pnpm-workspace.yaml

    A dash, white space ([\s+]), an optional quote character (single or
    double), the captured run of characters that are not quotes, an optional
    quote character, optional white space, the end of the line.  It is
    matched in the backtracking order of the regular expression: every
    quantifier is greedy and gives characters back only when the rest
    fails. *)

(** The optional closing quote, optional white space and the end. *)
Definition matchTail (s : string) : bool :=
  match s with
  | "" => true
  | String c s' => (isQuote c && allWhiteSpace s') || allWhiteSpace s
  end.

(** The captured run and the tail; the longest capture is tried first. *)
Fixpoint matchCapture (s : string) : option string :=
  match s with
  | "" => None
  | String c s' =>
      if isQuote c then None
      else match matchCapture s' with
           | Some cap => Some (String c cap)
           | None => if matchTail s' then Some (String c "") else None
           end
  end.

(** The optional opening quote and what follows; taking the quote is tried
    first. *)
Definition matchQuoted (s : string) : option string :=
  match s with
  | "" => None
  | String c s' =>
      if isQuote c
      then match matchCapture s' with
           | Some cap => Some cap
           | None => matchCapture s
           end
      else matchCapture s
  end.

(** [\s+] and what follows; the longest run is tried first. *)
Fixpoint matchSpaces (s : string) : option string :=
  onWhiteSpace s
    (λ rest, match matchSpaces rest with
             | Some cap => Some cap
             | None => matchQuoted rest
             end)
    None.

(** [trimmed.match(...)], giving [match[1]]. *)
Definition matchGlobLine (trimmed : string) : option string :=
  match trimmed with
  | String "-"%char rest => matchSpaces rest
  | _ => None
  end.

(** The first [replace] of [resolveWorkspaceGlobs]: its pattern matches a
    final slash-star or a final slash-star-star, and at most one of them ends
    a string. *)
Definition replaceTrailingStars (glob : string) : string :=
  match stripSuffix "/**" glob with
  | Some rest => rest
  | None => default glob (stripSuffix "/*" glob)
  end.

(** The second [replace]: its pattern matches a final slash-star. *)
Definition replaceTrailingStar (s : string) : string :=
  default s (stripSuffix "/*" s).

(** The scan root of one glob: [baseDir] in [resolveWorkspaceGlobs]. *)
Definition baseDirOf (glob : string) : string :=
  replaceTrailingStar (replaceTrailingStars glob).

Definition resolveWorkspaceGlobs (globs : list string) : list string :=
  sort (fold_left
          (λ dirs glob,
             let baseDir := baseDirOf glob in
             if truthy baseDir && negb (includes baseDir dirs)
             then dirs ++ [baseDir] else dirs)
          globs []).

Definition GO_VERSION : string := "1.23".

Definition header : list string :=
  [ "// Auto-generated by scripts/go-workspace-sync.ts";
    "// Do NOT edit manually — run: pnpm workspace:sync";
    "//";
    "// This file allows Go to recognize multiple modules within the repository";
    "// without needing manual 'replace' directives in each go.mod file.";
    "go " +:+ GO_VERSION;
    "";
    "use (" ].

(** The body of the loop over [dirEntries], from index [i] on; [n] is
    [dirEntries.length]. *)
Fixpoint sections (n i : nat) (dirEntries : list (string * list string)) : list string :=
  match dirEntries with
  | [] => []
  | (dir, modules) :: rest =>
      match modules with
      | [] => sections n (S i) rest
      | _ =>
          let label := capitalize dir in
          [tab +:+ "// " +:+ label]
            ++ ((λ mod_, tab +:+ mod_) <$> modules)
            ++ (if (i <? n - 1)%nat then [""] else [])
            ++ sections n (S i) rest
      end
  end.

(** The lines of the manifest before they are joined. *)
Definition goWorkLines (dirEntries : list (string * list string)) : list string :=
  header ++ sections (length dirEntries) 0 dirEntries ++ [")"; ""].

Definition generateGoWork (modulesByDir : jsobj (list string)) : string :=
  join nl (goWorkLines (Object_entries modulesByDir)).

Section Script.

(** The directory of the script, and [JSON.parse] on the text of
    [package.json]: [None] when reading the document throws. *)
Variable __dirname : path.
Variable JSON_parse : string → option RootPackageJson.

Definition ROOT : path := path_join __dirname [".."].
Definition GO_WORK_PATH : path := path_join ROOT ["go.work"].

Definition readPackageJson (pkgJsonPath : path) : IO RootPackageJson :=
  text ← readFileSync pkgJsonPath;
  match JSON_parse text with
  | Some pkgJson => ret pkgJson
  | None => throw SyntaxError
  end.

Definition detectPackageManager : IO string :=
  let pkgJsonPath := path_join ROOT ["package.json"] in
  found ← existsSync pkgJsonPath;
  if negb found then ret "unknown"
  else
    pkgJson ← readPackageJson pkgJsonPath;
    let declared := default "" (packageManager pkgJson) in
    if truthy declared
    then
      let name := default "" (head (split "@"%char declared)) in
      ret (if truthy name then name else "unknown")
    else
      pnpm ← existsSync (path_join ROOT ["pnpm-lock.yaml"]);
      if pnpm then ret "pnpm"
      else
        yarn ← existsSync (path_join ROOT ["yarn.lock"]);
        if yarn then ret "yarn"
        else
          npm ← existsSync (path_join ROOT ["package-lock.json"]);
          if npm then ret "npm" else ret "unknown".

Definition parsePnpmWorkspace : IO (list string) :=
  let filePath := path_join ROOT ["pnpm-workspace.yaml"] in
  found ← existsSync filePath;
  if negb found
  then console_warn "⚠️  pnpm-workspace.yaml not found";; ret []
  else
    content ← readFileSync filePath;
    ret (omap (λ line, matchGlobLine (trim line)) (split "010"%char content)).

Definition readPackageJsonWorkspaces : IO (list string) :=
  let pkgJsonPath := path_join ROOT ["package.json"] in
  found ← existsSync pkgJsonPath;
  if negb found then ret []
  else
    pkgJson ← readPackageJson pkgJsonPath;
    match workspaces pkgJson with
    | None => ret []
    | Some (WorkspacesArray globs) => ret globs
    | Some (WorkspacesObject packages) => ret (default [] packages)
    end.

Definition getWorkspaceDirs : IO (list string) :=
  pm ← detectPackageManager;
  console_log ("📦 Detected package manager: " +:+ pm);;
  globs ← (if String.eqb pm "pnpm"
           then console_log "📄 Reading workspace config from: pnpm-workspace.yaml";;
                parsePnpmWorkspace
           else console_log "📄 Reading workspace config from: package.json workspaces";;
                readPackageJsonWorkspaces);
  if (length globs =? 0)%nat
  then console_error "❌ No workspace globs found. Check your workspace config.";;
       process_exit 1
  else
    let dirs := resolveWorkspaceGlobs globs in
    console_log ("🔎 Workspace directories: " +:+ join ", " dirs +:+ nl);;
    ret dirs.

Definition discoverModules (baseDir : string) : IO (list string) :=
  let fullBase := path_join ROOT [baseDir] in
  found ← existsSync fullBase;
  if negb found
  then console_warn ("⚠️  Directory not found: " +:+ baseDir +:+ "/");; ret []
  else
    entries ← readdirSync fullBase;
    modules ← forOfAcc entries []
      (λ modules entry,
         if negb (isDirectory entry) then ret modules
         else
           let modPath := path_child (path_child fullBase (name entry)) "go.mod" in
           hasMod ← existsSync modPath;
           ret (if hasMod
                 then modules ++ ["./" +:+ baseDir +:+ "/" +:+ name entry]
                 else modules));
    ret (sort modules).

Definition main : IO unit :=
  console_log ("🔍 Scanning for Go modules..." +:+ nl);;
  scanDirs ← getWorkspaceDirs;
  '(modulesByDir, totalModules) ←
    forOfAcc scanDirs ([], 0%nat)
      (λ '(modulesByDir, totalModules) dir,
         modules ← discoverModules dir;
         (if (0 <? length modules)%nat
          then console_log ("  📦 " +:+ dir +:+ "/");;
               forOf modules (λ mod_, console_log ("     └─ " +:+ mod_))
          else ret tt);;
         ret (obj_set dir modules modulesByDir,
               (totalModules + length modules)%nat));
  if (totalModules =? 0)%nat
  then console_error "❌ No Go modules found. Nothing to sync.";;
       process_exit 1
  else
    let content := generateGoWork modulesByDir in
    found ← existsSync GO_WORK_PATH;
    upToDate ← (if found
                then existing ← readFileSync GO_WORK_PATH;
                     ret (String.eqb existing content)
                else ret false);
    if upToDate
    then console_log (nl +:+ "✅ go.work is already up to date.")
    else
      writeFileSync GO_WORK_PATH content;;
      console_log (nl +:+ "✅ go.work synced — " +:+ pretty totalModules
                      +:+ " modules registered.").

(** *** Views of [discoverModules] and [main] used by the properties *)

(** What [discoverModules] records for one entry of the scan root. *)
Definition moduleOf (fs : FS) (baseDir : string) (entry : Dirent) : option string :=
  let fullBase := path_join ROOT [baseDir] in
  if isDirectory entry
     && bool_decide
          (is_Some (stat fs (path_child (path_child fullBase (name entry)) "go.mod")))
  then Some ("./" +:+ baseDir +:+ "/" +:+ name entry)
  else None.

(** The body of the loop of [main] over the scan roots. *)
Definition scanBody
    : jsobj (list string) * nat → string → IO (jsobj (list string) * nat) :=
  λ '(modulesByDir, totalModules) dir,
    modules ← discoverModules dir;
    (if (0 <? length modules)%nat
     then console_log ("  📦 " +:+ dir +:+ "/");;
          forOf modules (λ mod_, console_log ("     └─ " +:+ mod_))
     else ret tt);;
    ret (obj_set dir modules modulesByDir,
          (totalModules + length modules)%nat).

(** [main] up to the point where the manifest is generated: the scan. *)
Definition scan : IO (jsobj (list string) * nat) :=
  console_log ("🔍 Scanning for Go modules..." +:+ nl);;
  scanDirs ← getWorkspaceDirs;
  forOfAcc scanDirs ([], 0%nat) scanBody.

(** [main] from there on. *)
Definition commit (scanned : jsobj (list string) * nat) : IO unit :=
  let '(modulesByDir, totalModules) := scanned in
  if (totalModules =? 0)%nat
  then console_error "❌ No Go modules found. Nothing to sync.";;
       process_exit 1
  else
    let content := generateGoWork modulesByDir in
    found ← existsSync GO_WORK_PATH;
    upToDate ← (if found
                then existing ← readFileSync GO_WORK_PATH;
                     ret (String.eqb existing content)
                else ret false);
    if upToDate
    then console_log (nl +:+ "✅ go.work is already up to date.")
    else
      writeFileSync GO_WORK_PATH content;;
      console_log (nl +:+ "✅ go.work synced — " +:+ pretty totalModules
                      +:+ " modules registered.").

End Script.

End Sync.

(** ** The scaffolding scripts

    Both test the requested name against the same pattern: a lower-case
    letter followed by lower-case letters, digits and hyphens, up to the end
    of the string. *)

Definition namePattern (name : string) : bool :=
  match name with
  | "" => false
  | String c rest =>
      isLower c
      && allChars (λ d, isLower d || isDigit d || Ascii.eqb d "-"%char) rest
  end.

(** [if (!fs.existsSync(dir)) fs.mkdirSync(dir, { recursive: true })] *)
Definition ensureDir (dir : path) : IO unit :=
  found ← existsSync dir;
  if negb found then mkdirSync dir else ret tt.

(** ** tooling/scripts/make-app.ts *)

Module MakeApp.

Record StubContext : Type :=
  { name : string; nameTitle : string; deps : list string }.

Definition parseDeps (args : list string) : list string :=
  match indexOf "--deps" args with
  | None => ["logger"]
  | Some depsIdx =>
      match args !! (depsIdx + 1)%nat with
      | None => ["logger"]
      | Some token => List.filter truthy (trim <$> split ","%char token)
      end
  end.

(** Destination and stub of every generated file, in the order of the
    object literal [files]. *)
Definition stubFiles : list (string * string) :=
  [ ("src/main.go", "src/main.go.ejs");
    ("go.mod", "go.mod.ejs");
    ("package.json", "package.json.ejs");
    (".air.toml", ".air.toml.ejs");
    ("env/.env.example", ".env.example.ejs");
    ("docker/Dockerfile", "Dockerfile.ejs");
    ("docker/compose.local.yaml", "docker/compose.local.yaml.ejs");
    ("docker/compose.dev.yaml", "docker/compose.dev.yaml.ejs");
    ("docker/compose.production.yaml", "docker/compose.production.yaml.ejs") ].

Section Script.

(** The directory of the script, the template engine ([None] when
    [ejs.render] throws) and the commands the script runs. *)
Variable __dirname : path.
Variable ejs_render : string → StubContext → option string.
Variable sh : shell.

Definition ROOT : path := path_join __dirname [".."; ".."].
Definition APPS_DIR : path := path_join ROOT ["apps"].
Definition STUBS_DIR : path := path_join __dirname [".stubs"; "app"].

Definition renderStub (stubPath : string) (context : StubContext) : IO string :=
  let fullPath := path_join STUBS_DIR [stubPath] in
  found ← existsSync fullPath;
  if negb found
  then throw (Error ("Stub not found: " +:+ stubPath +:+ " (looked in "
                       +:+ path_to_string fullPath +:+ ")"))
  else
    template ← readFileSync fullPath;
    match ejs_render template context with
    | Some text => ret text
    | None => throw (Error "ejs.render")
    end.

Definition main (argv : list string) : IO unit :=
  match argv !! 2%nat with
  | None =>
      console_error "❌ Usage: pnpm make:app <name> [--deps logger,http]";;
      console_error "   Example: pnpm make:app notifications";;
      console_error "   Example: pnpm make:app payments --deps logger,config";;
      process_exit 1
  | Some name =>
      if negb (truthy name) || startsWith "--" name
      then
        console_error "❌ Usage: pnpm make:app <name> [--deps logger,http]";;
        console_error "   Example: pnpm make:app notifications";;
        console_error "   Example: pnpm make:app payments --deps logger,config";;
        process_exit 1
      else if negb (namePattern name)
      then
        console_error "❌ App name must start with a letter and contain only lowercase alphanumeric characters or hyphens.";;
        process_exit 1
      else
        let appDir := path_join APPS_DIR [name] in
        taken ← existsSync appDir;
        if taken
        then console_error ("❌ App already exists: apps/" +:+ name +:+ "/");;
             process_exit 1
        else
          let deps := parseDeps argv in
          let context :=
            {| name := name; nameTitle := capitalize name; deps := deps |} in
          console_log (nl +:+ "🚀 Creating app: " +:+ name);;
          console_log ("   Dependencies: "
                         +:+ (if (0 <? length deps)%nat then join ", " deps else "(none)")
                         +:+ nl);;
          ensureDir (path_join appDir ["src"]);;
          ensureDir (path_join appDir ["docker"]);;
          ensureDir (path_join appDir ["env"]);;
          files ← forOfAcc stubFiles []
                    (λ files '(filePath, stubPath),
                       content ← renderStub stubPath context;
                       ret (obj_set filePath content files));
          forOf (Object_entries files)
            (λ '(filePath, content),
               let fullPath := path_join appDir [filePath] in
               writeFileSync fullPath content;;
               console_log ("  ✅ " +:+ filePath));;
          console_log (nl +:+ "🔄 Syncing go.work and setting up environment...");;
          try_catch
            (execSync sh "npx tsx tooling/scripts/go-workspace-sync.ts" (Some ROOT) None;;
             execSync sh ("pnpm run --filter=@apps/" +:+ name +:+ " setup") (Some ROOT) None;;
             execSync sh "go mod tidy" (Some appDir) None;;
             console_log (nl +:+ "📦 Resolving workspace dependencies...");;
             execSync sh "pnpm install" (Some ROOT) None)
            (console_warn (nl +:+ "⚠️  Sync, setup, or dependency resolution failed — run manually: pnpm setup && pnpm install"));;
          console_log (nl +:+ "🎉 App " +:+ dquote +:+ name +:+ dquote +:+ " created successfully!");;
          console_log (nl +:+ "📝 Next steps:");;
          console_log ("   1. Review Turbo dependencies in apps/" +:+ name +:+ "/package.json");;
          console_log ("   2. Add Go dependencies: cd apps/" +:+ name +:+ " && go get ...");;
          console_log "   3. Update Dockerfile COPY lines if you add more shared packages";;
          console_log ("   4. Run: pnpm dev --filter=@apps/" +:+ name)
  end.

End Script.

End MakeApp.

(** ** tooling/scripts/make-package.ts *)

Module MakePackage.

Record StubContext : Type := { name : string }.

Definition stubFiles (name : string) : list (string * string) :=
  [ ("src/" +:+ name +:+ ".go", "__name__.go.ejs");
    ("go.mod", "go.mod.ejs");
    ("package.json", "package.json.ejs");
    (".air.toml", "air.toml") ].

Section Script.

Variable __dirname : path.
Variable ejs_render : string → StubContext → option string.
Variable sh : shell.

Definition ROOT : path := path_join __dirname [".."; ".."].
Definition PACKAGES_DIR : path := path_join ROOT ["packages"].
Definition STUBS_DIR : path := path_join __dirname [".stubs"; "package"].

Definition renderStub (stubPath : string) (context : StubContext) : IO string :=
  let fullPath := path_join STUBS_DIR [stubPath] in
  found ← existsSync fullPath;
  if negb found
  then throw (Error ("Stub not found: " +:+ stubPath +:+ " (looked in "
                       +:+ path_to_string fullPath +:+ ")"))
  else
    template ← readFileSync fullPath;
    match ejs_render template context with
    | Some text => ret text
    | None => throw (Error "ejs.render")
    end.

Definition main (argv : list string) : IO unit :=
  match argv !! 2%nat with
  | None =>
      console_error "❌ Usage: pnpm make:package <name>";;
      console_error "   Example: pnpm make:package middleware";;
      process_exit 1
  | Some name =>
      if negb (truthy name) || startsWith "--" name
      then
        console_error "❌ Usage: pnpm make:package <name>";;
        console_error "   Example: pnpm make:package middleware";;
        process_exit 1
      else if negb (namePattern name)
      then
        console_error "❌ Package name must start with a letter and contain only lowercase alphanumeric characters or hyphens.";;
        process_exit 1
      else
        let pkgDir := path_join PACKAGES_DIR [name] in
        taken ← existsSync pkgDir;
        if taken
        then console_error ("❌ Package already exists: packages/" +:+ name +:+ "/");;
             process_exit 1
        else
          let context := {| name := name |} in
          console_log (nl +:+ "📦 Creating package: " +:+ name +:+ nl);;
          ensureDir (path_join pkgDir ["src"]);;
          files ← forOfAcc (stubFiles name) []
                    (λ files '(filePath, stubPath),
                       content ← renderStub stubPath context;
                       ret (obj_set filePath content files));
          forOf (Object_entries files)
            (λ '(filePath, content),
               let fullPath := path_join pkgDir [filePath] in
               writeFileSync fullPath content;;
               console_log ("  ✅ " +:+ filePath));;
          console_log (nl +:+ "🔄 Syncing go.work and setting up package...");;
          try_catch
            (execSync sh "npx tsx tooling/scripts/go-workspace-sync.ts" (Some ROOT) None;;
             execSync sh ("pnpm run --filter=@packages/" +:+ name +:+ " setup") (Some ROOT) None;;
             execSync sh "go mod tidy" (Some pkgDir) None;;
             console_log (nl +:+ "📦 Resolving workspace dependencies...");;
             execSync sh "pnpm install" (Some ROOT) None)
            (console_warn (nl +:+ "⚠️  Sync, setup, or dependency resolution failed — run manually: pnpm setup && pnpm install"));;
          console_log (nl +:+ "🎉 Package " +:+ dquote +:+ name +:+ dquote +:+ " created successfully!");;
          console_log (nl +:+ "📝 Next steps:");;
          console_log ("   1. Add as dependency in consuming apps' package.json: "
                         +:+ dquote +:+ "@packages/" +:+ name +:+ dquote +:+ ": "
                         +:+ dquote +:+ "workspace:*" +:+ dquote);;
          console_log ("   2. Import in Go: import " +:+ dquote +:+ "fuelers-go/packages/"
                         +:+ name +:+ dquote);;
          console_log ("   3. Run: pnpm test --filter=@packages/" +:+ name)
  end.

End Script.

End MakePackage.

(** ** scripts/deploy-service.ts *)

Module Deploy.

(** [deployEnv]: the argument after the first [--env] when the flag is
    present, else the environment variable. *)
Definition deployEnvOf (argv : list string) (DEPLOY_ENV : option string) : option string :=
  match indexOf "--env" argv with
  | Some envArgIdx => argv !! (envArgIdx + 1)%nat
  | None => DEPLOY_ENV
  end.

(** The array [candidates] once both [push] calls are done. *)
Definition candidatesOf (deployEnv : option string) : list string :=
  (match deployEnv with
   | Some tag =>
       if truthy tag
       then ["compose." +:+ tag +:+ ".yaml"; "compose." +:+ tag +:+ ".yml"]
       else []
   | None => []
   end) ++ ["compose.yaml"; "compose.yml"].

(** The loop over [candidates], left at the first file that exists. *)
Fixpoint selectFile (dockerDir : path) (candidates : list string) : IO (option path) :=
  match candidates with
  | [] => ret None
  | file :: rest =>
      let fullPath := path_join dockerDir [file] in
      found ← existsSync fullPath;
      if found then ret (Some fullPath) else selectFile dockerDir rest
  end.

Section Script.

Variable __dirname : path.
Variable sh : shell.

Definition ROOT : path := path_join __dirname [".."].

Definition main (argv : list string) (DEPLOY_ENV : option string) : IO unit :=
  let deployEnv := deployEnvOf argv DEPLOY_ENV in
  let serviceName := default "" (argv !! 2%nat) in
  if negb (truthy serviceName)
  then console_error "❌ Error: Service name is required.";;
       process_exit 1
  else
    let serviceDir := path_join ROOT ["apps"; serviceName] in
    found ← existsSync serviceDir;
    if negb found
    then console_error ("❌ Error: Service directory not found: apps/" +:+ serviceName);;
         process_exit 1
    else
      let dockerDir := path_join serviceDir ["docker"] in
      let candidates := candidatesOf deployEnv in
      selected ← selectFile dockerDir candidates;
      match selected with
      | None =>
          console_error ("❌ Error: No valid Docker Compose file found for service "
                           +:+ dquote +:+ serviceName +:+ dquote +:+ " in apps/"
                           +:+ serviceName +:+ "/docker/");;
          console_error ("Checked: " +:+ join ", " candidates);;
          process_exit 1
      | Some selectedFile =>
          let tag := default "" deployEnv in
          let envLabel :=
            if truthy tag then "[" +:+ toUpperCase tag +:+ "]" else "[DEFAULT]" in
          console_log (nl +:+ "🚀 Orchestrating deployment for " +:+ envLabel
                          +:+ " " +:+ serviceName +:+ "...");;
          console_log ("📄 Using config: " +:+ path_relative ROOT selectedFile +:+ nl);;
          try_catch
            (execSync sh ("docker compose -f " +:+ path_to_string selectedFile
                            +:+ " up -d --build")
                      None (Some (if truthy tag then tag else "local"));;
             console_log (nl +:+ "✅ Service " +:+ serviceName +:+ " deployed successfully."))
            (console_error (nl +:+ "❌ Deployment failed for " +:+ serviceName
                              +:+ ". Check Docker logs.");;
             process_exit 1)
      end.

End Script.

End Deploy.

(** * Specification-level notions

    The words of the specification the theorems below compare the scripts
    with. *)

(** One level of stripping in the words of section 4.2 of the specification:
    the glob loses one trailing slash-star-star or one trailing slash-star,
    and is left alone when it ends in neither. *)
Inductive StrippedOnce : string → string → Prop :=
| StripStarStar (r : string) : StrippedOnce (r +:+ "/**") r
| StripStar (r : string) : StrippedOnce (r +:+ "/*") r
| StripNothing (g : string) :
    (∀ r, g ≠ r +:+ "/**") → (∀ r, g ≠ r +:+ "/*") → StrippedOnce g g.

(** The white-space characters in the words of the ECMAScript
    specification, each the UTF-8 text of its code point: TAB, LF, VT, FF,
    CR, SPACE, U+00A0, U+1680, U+2000 to U+200A, U+2028, U+2029, U+202F,
    U+205F, U+3000, U+FEFF. *)
Definition bytes (codes : list nat) : string :=
  foldr (λ n s, String (ascii_of_nat n) s) "" codes.

Definition whiteSpace : list string :=
  bytes <$> ([[9]; [10]; [11]; [12]; [13]; [32]; [194; 160]; [225; 154; 128]]
             ++ ((λ k, [226; 128; 128 + k]) <$> seq 0 11)
             ++ [[226; 128; 168]; [226; 128; 169]; [226; 128; 175];
                 [226; 129; 159]; [227; 128; 128]; [239; 187; 191]])%nat.

(** A run of white-space characters. *)
Inductive WhiteSpaceRun : string → Prop :=
| WhiteSpaceRun_nil : WhiteSpaceRun ""
| WhiteSpaceRun_cons (w s : string) :
    w ∈ whiteSpace → WhiteSpaceRun s → WhiteSpaceRun (w +:+ s).

(** A piece trimmed of white space, in the words of the specification:
    [core] is what is left of [piece] between a run of white space and a run
    of white space, and it neither starts nor ends with a white-space
    character. *)
Definition Trimmed (piece core : string) : Prop :=
  ∃ l r, piece = l +:+ core +:+ r
         ∧ WhiteSpaceRun l ∧ WhiteSpaceRun r
         ∧ (∀ w rest, w ∈ whiteSpace → core ≠ w +:+ rest)
         ∧ (∀ w rest, w ∈ whiteSpace → core ≠ rest +:+ w).

(** A text split on a separator, in the words of the specification: the
    pieces hold no separator and, joined by it, give the text back. *)
Definition SplitOn (sep : ascii) (s : string) (pieces : list string) : Prop :=
  pieces ≠ []
  ∧ join (String sep "") pieces = s
  ∧ Forall (λ piece, allChars (λ c, negb (Ascii.eqb c sep)) piece = true) pieces.

(** The name pattern in the words of section 4.5 of the specification: a
    lower-case letter, then lower-case letters, digits or hyphens. *)
Inductive NameTail : string → Prop :=
| NameTail_nil : NameTail ""
| NameTail_cons (c : ascii) (s : string) :
    isLower c ∨ isDigit c ∨ c = "-"%char → NameTail s → NameTail (String c s).

Inductive ValidName : string → Prop :=
| ValidName_intro (c : ascii) (s : string) :
    isLower c → NameTail s → ValidName (String c s).

Definition isUpper (c : ascii) : bool :=
  let n := nat_of_ascii c in (65 <=? n)%nat && (n <=? 90)%nat.

Fixpoint existsChar (p : ascii → bool) (s : string) : bool :=
  match s with
  | "" => false
  | String c s' => p c || existsChar p s'
  end.

(** The candidate list in the words of section 4.6 of the specification: the
    two names of the tag when a tag is given (a non-empty string), then the
    two generic names. *)
Definition claimedCandidates (tag : option string) : list string :=
  match tag with
  | Some t =>
      if decide (t = "") then ["compose.yaml"; "compose.yml"]
      else ["compose." +:+ t +:+ ".yaml"; "compose." +:+ t +:+ ".yml";
            "compose.yaml"; "compose.yml"]
  | None => ["compose.yaml"; "compose.yml"]
  end.

(** The console line of a sync run that found the manifest up to date. *)
Definition upToDateLine : event :=
  Console Log (nl +:+ "✅ go.work is already up to date.").

(** ** The two scaffolding scripts as one operation *)

Module Scaffolding.

Inductive kind : Type := App | Package.

Section Script.

Variable __dirname : path.
Variable ejs_app : string → MakeApp.StubContext → option string.
Variable ejs_package : string → MakePackage.StubContext → option string.
Variable sh : shell.

(** The scaffolding script of each kind of unit, and the directory it
    creates the unit in. *)
Definition scaffold (k : kind) (argv : list string) : IO unit :=
  match k with
  | App => MakeApp.main __dirname ejs_app sh argv
  | Package => MakePackage.main __dirname ejs_package sh argv
  end.

Definition targetDir (k : kind) (name : string) : path :=
  match k with
  | App => path_join (MakeApp.APPS_DIR __dirname) [name]
  | Package => path_join (MakePackage.PACKAGES_DIR __dirname) [name]
  end.

(** A run that stops with exit code 1 after writing to the console only. *)
Definition rejected (fs : FS) (o : out unit) : Prop :=
  result o = Exit 1 ∧ disk o = fs ∧ Forall (λ ev, isConsole ev = true) (trace o).

(** A run that gets as far as the collision check on [name]. *)
Definition accepted (k : kind) (name : string) (o : out unit) : Prop :=
  ∃ tr, trace o = Exists (targetDir k name) :: tr.

End Script.

End Scaffolding.

(** * A sample workspace

    The repository layout of the README: two services and a scratch
    directory under [apps/], one library under [packages/], a pnpm workspace
    declaration, and the scripts in [scripts/] and [tooling/scripts/]. *)

Module Sample.

Definition scripts_dir : path := ["repo"; "scripts"].
Definition tooling_dir : path := ["repo"; "tooling"; "scripts"].

(** Every [package.json] declares pnpm and no workspaces. *)
Definition JSON_parse (text : string) : option Sync.RootPackageJson :=
  Some {| Sync.packageManager := Some "pnpm@9.1.0"; Sync.workspaces := None |}.

(** Templates render to themselves; commands succeed and leave the disk
    alone. *)
Definition ejs_app (template : string) (context : MakeApp.StubContext) : option string :=
  Some template.
Definition ejs_package (template : string) (context : MakePackage.StubContext) : option string :=
  Some template.
Definition sh : shell := λ _ _ _ fs, (true, fs).

Definition pnpm_workspace_yaml : string :=
  "packages:" +:+ nl
  +:+ "  - " +:+ dquote +:+ "apps/*" +:+ dquote +:+ nl
  +:+ "  - 'packages/*'" +:+ nl.

Definition workspace : FS :=
  list_to_map
    [ (["repo"], DirE);
      (["repo"; "package.json"], FileE "{}");
      (["repo"; "pnpm-workspace.yaml"], FileE pnpm_workspace_yaml);
      (["repo"; "apps"], DirE);
      (["repo"; "apps"; "gateway"], DirE);
      (["repo"; "apps"; "gateway"; "go.mod"], FileE "module fuelers-go/apps/gateway");
      (["repo"; "apps"; "gateway"; "docker"], DirE);
      (["repo"; "apps"; "gateway"; "docker"; "compose.yaml"], FileE "services: {}");
      (["repo"; "apps"; "auth"], DirE);
      (["repo"; "apps"; "auth"; "go.mod"], FileE "module fuelers-go/apps/auth");
      (["repo"; "apps"; "auth"; "docker"], DirE);
      (["repo"; "apps"; "tmp"], DirE);
      (["repo"; "packages"], DirE);
      (["repo"; "packages"; "logger"], DirE);
      (["repo"; "packages"; "logger"; "go.mod"], FileE "module fuelers-go/packages/logger") ].

(** A workspace whose scan roots hold no module. *)
Definition unpopulated : FS :=
  list_to_map
    [ (["repo"], DirE);
      (["repo"; "package.json"], FileE "{}");
      (["repo"; "pnpm-workspace.yaml"], FileE pnpm_workspace_yaml);
      (["repo"; "apps"], DirE);
      (["repo"; "apps"; "tmp"], DirE) ].

(** A workspace whose declaration names the manifest itself as a scan
    root, next to [apps/]. *)
Definition aliased : FS :=
  list_to_map
    [ (["repo"], DirE);
      (["repo"; "package.json"], FileE "{}");
      (["repo"; "pnpm-workspace.yaml"],
       FileE ("packages:" +:+ nl +:+ "  - apps/*" +:+ nl +:+ "  - go.work/*" +:+ nl));
      (["repo"; "apps"], DirE);
      (["repo"; "apps"; "gateway"], DirE);
      (["repo"; "apps"; "gateway"; "go.mod"], FileE "module fuelers-go/apps/gateway") ].

(** A checkout without any workspace declaration. *)
Definition bare : FS := list_to_map [ (["repo"], DirE) ].

End Sample.

(** * Notions for the further properties *)

(** Every outcome of a computation satisfies [Q], whatever the disk. *)
Definition post {A : Type} (m : IO A) (Q : res A → Prop) : Prop :=
  ∀ fs, Q (result (m fs)).

(** The outcomes that are not an exit. *)
Definition noExit {A : Type} (r : res A) : Prop := ∀ code, r ≠ Exit code.


(** A checkout that declares no package manager and holds a yarn lock file
    next to an npm one, and the reading of its [package.json]. *)
Definition yarn_checkout : FS :=
  list_to_map
    [ (["repo"], DirE);
      (["repo"; "package.json"], FileE "{}");
      (["repo"; "yarn.lock"], FileE "");
      (["repo"; "package-lock.json"], FileE "{}") ].

Definition JSON_parse_undeclared (text : string) : option Sync.RootPackageJson :=
  Some {| Sync.packageManager := None; Sync.workspaces := None |}.

(** The language of the line pattern of [parsePnpmWorkspace], read off the
    regular expression: a dash, white space, an optional quote character, the
    capture, an optional quote character, white space. *)
Definition optQuote (q : string) : Prop :=
  q = "" ∨ ∃ c, isQuote c = true ∧ q = String c "".

Definition GlobLine (line capture : string) : Prop :=
  ∃ ws q1 q2 ws',
    line = "-" +:+ ws +:+ q1 +:+ capture +:+ q2 +:+ ws'
    ∧ ws ≠ "" ∧ WhiteSpaceRun ws
    ∧ optQuote q1
    ∧ capture ≠ "" ∧ allChars (λ c, negb (isQuote c)) capture = true
    ∧ optQuote q2
    ∧ WhiteSpaceRun ws'.

(** The layout of the body of the manifest: the block of one scan root, and
    blocks set apart by a separator. *)
Definition hasModules (dirEntry : string * list string) : bool :=
  negb (length dirEntry.2 =? 0)%nat.

Definition sectionOf (label : string → string) (dirEntry : string * list string)
    : list string :=
  (tab +:+ "// " +:+ label dirEntry.1) :: ((λ mod_, tab +:+ mod_) <$> dirEntry.2).

Fixpoint separated (sep : list string) (blocks : list (list string)) : list string :=
  match blocks with
  | [] => []
  | [block] => block
  | block :: rest => block ++ sep ++ separated sep rest
  end.

(** Some root has modules and the last root has none. *)
Definition lastRootEmpty (dirEntries : list (string * list string)) : bool :=
  existsb hasModules dirEntries
  && match last dirEntries with
     | Some dirEntry => negb (hasModules dirEntry)
     | None => false
     end.





(** * Properties *)

(** ** Strings *)

Lemma append_nil (t : string) : "" +:+ t = t.
Proof. reflexivity. Qed.

Lemma append_cons (c : ascii) (s t : string) :
  String c s +:+ t = String c (s +:+ t).
Proof. reflexivity. Qed.

Lemma append_empty_r (s : string) : s +:+ "" = s.
Proof.
  induction s as [|c s IH]; [done|]. by rewrite append_cons, IH.
Qed.

Lemma append_assoc (a b c : string) : (a +:+ b) +:+ c = a +:+ (b +:+ c).
Proof.
  induction a as [|x a IH]; [done|]. by rewrite !append_cons, IH.
Qed.

Lemma length_append (a b : string) :
  String.length (a +:+ b) = (String.length a + String.length b)%nat.
Proof.
  induction a as [|x a IH]; [done|]. rewrite append_cons. simpl. by rewrite IH.
Qed.

(** Two decompositions of one string with tails of equal length agree. *)
Lemma append_inj_length (a b s t : string) :
  a +:+ s = b +:+ t → String.length s = String.length t → a = b ∧ s = t.
Proof.
  revert b. induction a as [|x a IH]; intros [|y b] Heq Hlen;
    rewrite ?append_nil, ?append_cons in Heq.
  - done.
  - exfalso. apply (f_equal String.length) in Heq.
    simpl in Heq. rewrite length_append in Heq. lia.
  - exfalso. apply (f_equal String.length) in Heq.
    simpl in Heq. rewrite length_append in Heq. lia.
  - injection Heq as -> Heq. destruct (IH b Heq Hlen) as [-> ->]. done.
Qed.

Lemma stripSuffix_unfold (suf s : string) :
  stripSuffix suf s =
    if String.eqb s suf then Some ""
    else match s with
         | "" => None
         | String c s' => String c <$> stripSuffix suf s'
         end.
Proof. by destruct s. Qed.

Lemma stripSuffix_app (suf r : string) : stripSuffix suf (r +:+ suf) = Some r.
Proof.
  induction r as [|c r IH]; rewrite stripSuffix_unfold.
  - rewrite append_nil. by rewrite String.eqb_refl.
  - assert (String.eqb (String c r +:+ suf) suf = false) as ->.
    { apply String.eqb_neq. intros Heq.
      apply (f_equal String.length) in Heq.
      rewrite append_cons in Heq. simpl in Heq.
      rewrite length_append in Heq. lia. }
    rewrite append_cons, IH. done.
Qed.

Lemma stripSuffix_Some (suf s r : string) :
  stripSuffix suf s = Some r → s = r +:+ suf.
Proof.
  revert r. induction s as [|c s IH]; intros r; rewrite stripSuffix_unfold.
  - destruct (String.eqb_spec "" suf) as [<-|].
    + by intros [= <-].
    + done.
  - destruct (String.eqb_spec (String c s) suf) as [<-|].
    + by intros [= <-].
    + destruct (stripSuffix suf s) as [r'|] eqn:Hs; simpl; [|done].
      intros [= <-]. by rewrite append_cons, (IH r').
Qed.

Lemma stripSuffix_None (suf s : string) :
  stripSuffix suf s = None → ∀ r, s ≠ r +:+ suf.
Proof. intros Hnone r ->. by rewrite stripSuffix_app in Hnone. Qed.

(** ** The scan root of a glob (Glob Resolver) *)


Lemma replaceTrailingStars_once (glob : string) :
  StrippedOnce glob (Sync.replaceTrailingStars glob).
Proof.
  unfold Sync.replaceTrailingStars.
  destruct (stripSuffix "/**" glob) as [r|] eqn:H2.
  - apply stripSuffix_Some in H2 as ->. constructor.
  - destruct (stripSuffix "/*" glob) as [r|] eqn:H1; simpl.
    + apply stripSuffix_Some in H1 as ->. constructor.
    + constructor; by apply stripSuffix_None.
Qed.

Lemma baseDirOf_star_star (r : string) : Sync.baseDirOf (r +:+ "/*/*") = r.
Proof.
  unfold Sync.baseDirOf, Sync.replaceTrailingStars.
  destruct (stripSuffix "/**" (r +:+ "/*/*")) as [x|] eqn:H2.
  { apply stripSuffix_Some in H2.
    change (r +:+ "/*/*") with (r +:+ ("/" +:+ "*/*")) in H2.
    rewrite <- append_assoc in H2.
    by apply append_inj_length in H2 as [_ ?]. }
  change (r +:+ "/*/*") with (r +:+ ("/*" +:+ "/*")).
  rewrite <- append_assoc, stripSuffix_app. simpl.
  unfold Sync.replaceTrailingStar. by rewrite stripSuffix_app.
Qed.

Lemma baseDirOf_star_starstar (r : string) : Sync.baseDirOf (r +:+ "/*/**") = r.
Proof.
  unfold Sync.baseDirOf, Sync.replaceTrailingStars.
  change (r +:+ "/*/**") with (r +:+ ("/*" +:+ "/**")).
  rewrite <- append_assoc, stripSuffix_app.
  unfold Sync.replaceTrailingStar. by rewrite stripSuffix_app.
Qed.

(** C2, as the claim states it, fails: the scan root of [apps/*/*] is [apps],
    which is not that glob with one trailing wildcard segment stripped. *)
Lemma baseDirOf_not_stripped_once :
  Sync.baseDirOf "apps/*/*" = "apps"
  ∧ ¬ StrippedOnce "apps/*/*" (Sync.baseDirOf "apps/*/*").
Proof.
  split; [reflexivity|].
  change (Sync.baseDirOf "apps/*/*") with "apps".
  intros H. inversion H as [r Hr Hg | r Hr Hg | g H2 H1 Hg Hg'].
  - subst r. vm_compute in Hr. discriminate Hr.
  - subst r. vm_compute in Hr. discriminate Hr.
Qed.

(** C2 (amended): the resolver strips one trailing wildcard segment as the
    spec says and then strips one further trailing slash-star from what is
    left, when there is one; so a glob that ends in slash-star slash-star or
    in slash-star slash-star-star loses both segments. *)
Theorem baseDirOf_strips_twice (glob : string) :
  (∃ once,
      StrippedOnce glob once
      ∧ (once = Sync.baseDirOf glob +:+ "/*"
         ∨ (Sync.baseDirOf glob = once ∧ ∀ r, once ≠ r +:+ "/*")))
  ∧ Sync.baseDirOf (glob +:+ "/*/*") = glob
  ∧ Sync.baseDirOf (glob +:+ "/*/**") = glob.
Proof.
  split; [|split; [apply baseDirOf_star_star | apply baseDirOf_star_starstar]].
  exists (Sync.replaceTrailingStars glob). split.
  - apply replaceTrailingStars_once.
  - unfold Sync.baseDirOf, Sync.replaceTrailingStar.
    destruct (stripSuffix "/*" (Sync.replaceTrailingStars glob)) as [r|] eqn:H1; simpl.
    + left. by apply stripSuffix_Some.
    + right. split; [done|]. by apply stripSuffix_None.
Qed.

(** ** The manifest (Manifest Generator) *)

(** C3 fails on the code: when the last scan root has no module, the blank
    line pushed after the section before it stays, and the manifest has a
    blank line between the final emitted section and the closing
    parenthesis. *)
Theorem generateGoWork_blank_line_before_close :
  let modulesByDir :=
    obj_set "packages" [] (obj_set "apps" ["./apps/gateway"] []) in
  Sync.goWorkLines (Object_entries modulesByDir)
  = Sync.header ++ [tab +:+ "// Apps"; tab +:+ "./apps/gateway"; ""; ")"; ""]
  ∧ Sync.generateGoWork modulesByDir
    = join nl (Sync.header
                 ++ [tab +:+ "// Apps"; tab +:+ "./apps/gateway"; ""; ")"; ""]).
Proof. split; reflexivity. Qed.

(** ** JavaScript string and array helpers *)

Lemma split_nonempty (sep : ascii) (s : string) : split sep s ≠ [].
Proof.
  destruct s as [|c s]; simpl; [done|].
  destruct (Ascii.eqb c sep); [done|]. by destruct (split sep s).
Qed.

Lemma join_split (sep : ascii) (s : string) :
  join (String sep "") (split sep s) = s.
Proof.
  induction s as [|c s IH]; [done|]. simpl.
  pose proof (split_nonempty sep s) as Hne'.
  destruct (Ascii.eqb_spec c sep) as [->|Hne].
  - destruct (split sep s) as [|p ps] eqn:Hs; [done|].
    change (join (String sep "") ("" :: p :: ps))
      with ("" +:+ String sep "" +:+ join (String sep "") (p :: ps)).
    by rewrite IH.
  - destruct (split sep s) as [|p ps] eqn:Hs; [done|].
    destruct ps as [|p' ps].
    + simpl in *. by rewrite IH.
    + change (join (String sep "") (String c p :: p' :: ps))
        with (String c p +:+ String sep "" +:+ join (String sep "") (p' :: ps)).
      rewrite append_cons. f_equal. exact IH.
Qed.

Lemma split_pieces_no_sep (sep : ascii) (s : string) :
  Forall (λ piece, allChars (λ c, negb (Ascii.eqb c sep)) piece = true) (split sep s).
Proof.
  induction s as [|c s IH]; simpl; [by repeat constructor|].
  destruct (Ascii.eqb_spec c sep) as [->|Hne].
  - by constructor.
  - destruct (split sep s) as [|p ps]; [|inversion IH as [|? ? Hp Hps]; subst].
    + repeat constructor. simpl. by destruct (Ascii.eqb_spec c sep).
    + constructor; [|done]. simpl. rewrite Hp.
      by destruct (Ascii.eqb_spec c sep).
Qed.

(** ** White space *)

Lemma whiteSpace_nonempty (w : string) : w ∈ whiteSpace → w ≠ "".
Proof. intros Hw ->. revert Hw. compute_done. Qed.

Lemma isWhiteSpace1_spec (c : ascii) :
  isWhiteSpace1 c = bool_decide (String c "" ∈ whiteSpace).
Proof. destruct c as [[] [] [] [] [] [] [] []]; by vm_compute. Qed.

Lemma ascii_of_code (c : ascii) (n : nat) : nat_of_ascii c = n → c = ascii_of_nat n.
Proof. intros <-. by rewrite ascii_nat_embedding. Qed.

Lemma isWhiteSpace2_spec (c d : ascii) :
  isWhiteSpace2 c d = true → String c (String d "") ∈ whiteSpace.
Proof.
  unfold isWhiteSpace2.
  intros [->%Nat.eqb_eq%ascii_of_code ->%Nat.eqb_eq%ascii_of_code]%andb_true_iff.
  compute_done.
Qed.

Ltac codes :=
  repeat match goal with
         | H : nat_of_ascii ?c = _ |- _ => apply ascii_of_code in H; subst c
         end.

Lemma isWhiteSpace3_spec (c d e : ascii) :
  isWhiteSpace3 c d e = true → String c (String d (String e "")) ∈ whiteSpace.
Proof.
  unfold isWhiteSpace3. cbv zeta beta iota.
  rewrite !orb_true_iff, !andb_true_iff, !orb_true_iff, !andb_true_iff,
    !Nat.eqb_eq, !Nat.leb_le.
  intros Hcases. decompose [and or] Hcases; clear Hcases; codes; try compute_done.
  assert (nat_of_ascii e = 128 ∨ nat_of_ascii e = 129 ∨ nat_of_ascii e = 130
          ∨ nat_of_ascii e = 131 ∨ nat_of_ascii e = 132 ∨ nat_of_ascii e = 133
          ∨ nat_of_ascii e = 134 ∨ nat_of_ascii e = 135 ∨ nat_of_ascii e = 136
          ∨ nat_of_ascii e = 137 ∨ nat_of_ascii e = 138)%nat as He by lia.
  decompose [or] He; codes; compute_done.
Qed.

Lemma stripWhiteSpace_sound (s r : string) :
  stripWhiteSpace s = Some r → ∃ w, w ∈ whiteSpace ∧ s = w +:+ r.
Proof.
  unfold stripWhiteSpace, onWhiteSpace. destruct s as [|c s1]; [done|].
  destruct (isWhiteSpace1 c) eqn:H1.
  { intros [= <-]. exists (String c ""). split; [|done].
    rewrite isWhiteSpace1_spec in H1. by apply bool_decide_eq_true in H1. }
  destruct s1 as [|d s2]; [done|]. destruct (isWhiteSpace2 c d) eqn:H2.
  { intros [= <-]. exists (String c (String d "")). split; [|done].
    by apply isWhiteSpace2_spec. }
  destruct s2 as [|e s3]; [done|]. destruct (isWhiteSpace3 c d e) eqn:H3; [|done].
  intros [= <-]. exists (String c (String d (String e ""))). split; [|done].
  by apply isWhiteSpace3_spec.
Qed.

Lemma stripWhiteSpace_complete (w r : string) :
  w ∈ whiteSpace → stripWhiteSpace (w +:+ r) = Some r.
Proof.
  intros Hw. vm_compute in Hw.
  repeat (apply elem_of_cons in Hw as [->|Hw]); try reflexivity.
  by apply elem_of_nil in Hw.
Qed.

Lemma stripWhiteSpace_shorter (s r : string) :
  stripWhiteSpace s = Some r → (String.length r < String.length s)%nat.
Proof.
  intros (w & Hw & ->)%stripWhiteSpace_sound. rewrite length_append.
  apply whiteSpace_nonempty in Hw. destruct w; [done|]. simpl. lia.
Qed.

Lemma trimStart_unfold (s : string) :
  trimStart s = match stripWhiteSpace s with Some rest => trimStart rest | None => s end.
Proof.
  destruct s as [|c s1]; [done|]. unfold stripWhiteSpace. simpl.
  destruct (isWhiteSpace1 c); [done|]. destruct s1 as [|d s2]; [done|].
  destruct (isWhiteSpace2 c d); [done|]. destruct s2 as [|e s3]; [done|].
  by destruct (isWhiteSpace3 c d e).
Qed.

(** Induction on a string by the white-space character it starts with. *)
Lemma string_length_ind (P : string → Prop) :
  (∀ s, (∀ r, (String.length r < String.length s)%nat → P r) → P s) → ∀ s, P s.
Proof.
  intros Hstep s. remember (String.length s) as n eqn:Hn.
  revert s Hn. induction n as [n IH] using lt_wf_ind. intros s ->.
  apply Hstep. intros r Hr. by apply (IH _ Hr).
Qed.

Lemma trimStart_spec (s : string) :
  ∃ l, s = l +:+ trimStart s ∧ WhiteSpaceRun l ∧ stripWhiteSpace (trimStart s) = None.
Proof.
  induction s as [s IH] using string_length_ind. rewrite trimStart_unfold.
  destruct (stripWhiteSpace s) as [rest|] eqn:Hs.
  - destruct (IH rest (stripWhiteSpace_shorter _ _ Hs)) as (l & Hrest & Hl & Hnone).
    apply stripWhiteSpace_sound in Hs as (w & Hw & ->).
    exists (w +:+ l). rewrite append_assoc, <- Hrest. split; [done|].
    split; [by constructor|done].
  - exists "". split; [done|]. split; [constructor|done].
Qed.

Lemma WhiteSpaceRun_app (a b : string) :
  WhiteSpaceRun a → WhiteSpaceRun b → WhiteSpaceRun (a +:+ b).
Proof.
  induction 1 as [|w s Hw _ IH]; intros Hb; [done|].
  rewrite append_assoc. constructor; [done|by apply IH].
Qed.

Lemma WhiteSpaceRun_one (w : string) : w ∈ whiteSpace → WhiteSpaceRun w.
Proof.
  intros Hw. rewrite <- (append_empty_r w). constructor; [done|constructor].
Qed.

Lemma trimStart_run (l s : string) : WhiteSpaceRun l → trimStart (l +:+ s) = trimStart s.
Proof.
  induction 1 as [|w l Hw _ IH]; [done|].
  rewrite append_assoc, trimStart_unfold. by rewrite stripWhiteSpace_complete.
Qed.

Lemma trimStart_fixed (s : string) : stripWhiteSpace s = None → trimStart s = s.
Proof. intros Hs. by rewrite trimStart_unfold, Hs. Qed.

Lemma allWhiteSpace_run (s : string) : allWhiteSpace s = true ↔ WhiteSpaceRun s.
Proof.
  unfold allWhiteSpace. split.
  - intros Heq%String.eqb_eq. destruct (trimStart_spec s) as (l & Hs & Hl & _).
    rewrite Heq, append_empty_r in Hs. by subst.
  - intros Hs. rewrite <- (append_empty_r s), (trimStart_run _ _ Hs). done.
Qed.

Lemma trimEnd_spec (s : string) :
  ∃ r, s = trimEnd s +:+ r ∧ WhiteSpaceRun r
       ∧ ∀ t w, w ∈ whiteSpace → trimEnd s ≠ t +:+ w.
Proof.
  induction s as [|c s (r & Hs & Hr & Hlast)].
  { exists "". split; [done|]. split; [constructor|].
    intros [|] w Hw Heq; [|done]. rewrite append_nil in Heq.
    by apply (whiteSpace_nonempty w). }
  cbn [trimEnd]. destruct (allWhiteSpace (String c s)) eqn:Hall.
  - exists (String c s). split; [done|]. split; [by apply allWhiteSpace_run|].
    intros [|] w Hw Heq; [|done]. rewrite append_nil in Heq.
    by apply (whiteSpace_nonempty w).
  - exists r. rewrite append_cons, <- Hs. split; [done|]. split; [done|].
    intros [|x t] w Hw Heq.
    + rewrite append_nil in Heq.
      assert (allWhiteSpace (String c s) = true) as Hyes; [|congruence].
      apply allWhiteSpace_run. rewrite Hs, <- append_cons, Heq.
      by constructor.
    + rewrite append_cons in Heq. injection Heq as _ Heq. by apply (Hlast t w).
Qed.

(** [trim] removes the white space at both ends and nothing else. *)
Lemma trim_Trimmed (s : string) : Trimmed s (trim s).
Proof.
  unfold trim.
  destruct (trimStart_spec s) as (l & Hs & Hl & Hhd).
  destruct (trimEnd_spec (trimStart s)) as (r & Hm & Hr & Hlast).
  exists l, r. split; [by rewrite <- Hm|]. do 2 (split; [done|]).
  split; [|intros w rest Hw; by apply Hlast].
  intros w rest Hw Heq. rewrite Hm, Heq, append_assoc in Hhd.
  by rewrite stripWhiteSpace_complete in Hhd.
Qed.

(** *** A piece has one trimmed form *)

Lemma append_prefix_cases (a x b y : string) :
  a +:+ x = b +:+ y →
  (∃ u, a = b +:+ u ∧ y = u +:+ x) ∨ (∃ u, b = a +:+ u ∧ x = u +:+ y).
Proof.
  revert b. induction a as [|c a IH]; intros b Heq.
  - right. exists b. by rewrite append_nil in *.
  - destruct b as [|d b].
    + left. exists (String c a). by rewrite append_nil in *.
    + rewrite !append_cons in Heq. injection Heq as -> Heq.
      destruct (IH b Heq) as [(u & -> & ->)|(u & -> & ->)]; [left|right]; by exists u.
Qed.

Lemma allChars_app (ok : ascii → bool) (s t : string) :
  allChars ok (s +:+ t) = allChars ok s && allChars ok t.
Proof.
  induction s as [|c s IH]; [done|]. rewrite append_cons. simpl.
  by rewrite IH, andb_assoc.
Qed.

(** A white-space character starts with a byte below 128 or from 194 on, and
    goes on with bytes from 128 to 191. *)
Lemma whiteSpace_bytes (w : string) :
  w ∈ whiteSpace →
  ∃ h tl, w = String h tl
          ∧ ((nat_of_ascii h <? 128) || (194 <=? nat_of_ascii h))%nat = true
          ∧ allChars (λ c, (128 <=? nat_of_ascii c) && (nat_of_ascii c <=? 191))%nat tl
            = true.
Proof.
  intros Hw. vm_compute in Hw.
  repeat (apply elem_of_cons in Hw as [->|Hw]); try (by apply elem_of_nil in Hw);
    eexists _, _; (split; [reflexivity|]); by vm_compute.
Qed.

(** No byte inside a white-space character starts a white-space character. *)
Lemma whiteSpace_inner (w w' a t t' : string) (c : ascii) :
  w ∈ whiteSpace → w' ∈ whiteSpace → a ≠ "" →
  w = a +:+ String c t → w' = String c t' → False.
Proof.
  intros (h & tl & -> & _ & Htl)%whiteSpace_bytes (h' & tl' & -> & Hh & _)%whiteSpace_bytes.
  intros Ha Heq Heq'. injection Heq' as -> _.
  destruct a as [|a0 a]; [done|]. rewrite append_cons in Heq. injection Heq as _ ->.
  rewrite allChars_app in Htl. apply andb_true_iff in Htl as [_ Htl].
  cbn [allChars] in Htl. apply andb_true_iff in Htl as [Hc _].
  apply andb_true_iff in Hc as [Hc1 Hc2].
  apply Nat.leb_le in Hc1. apply Nat.leb_le in Hc2.
  apply orb_true_iff in Hh as [Hh|Hh];
    [apply Nat.ltb_lt in Hh|apply Nat.leb_le in Hh]; lia.
Qed.

Lemma starts_after_core (core r : string) :
  (∀ w rest, w ∈ whiteSpace → core ≠ w +:+ rest) → core ≠ "" → WhiteSpaceRun r →
  stripWhiteSpace (core +:+ r) = None.
Proof.
  intros Hcore Hne Hr. destruct (stripWhiteSpace (core +:+ r)) as [rest|] eqn:Hs; [|done].
  exfalso. apply stripWhiteSpace_sound in Hs as (w & Hw & Heq).
  apply append_prefix_cases in Heq as [(u & -> & _)|(u & -> & Hru)].
  { by apply (Hcore w u). }
  destruct u as [|c u].
  { rewrite append_empty_r in Hw. apply (Hcore core ""); [done|].
    by rewrite append_empty_r. }
  destruct Hr as [|w' r' Hw' _]; [done|].
  pose proof (whiteSpace_nonempty _ Hw') as Hne'. destruct w' as [|c' t']; [done|].
  rewrite !append_cons in Hru. injection Hru as <- _.
  by apply (whiteSpace_inner (core +:+ String c' u) (String c' t') core u t' c').
Qed.

(** A run that ends with a run starts with a run. *)
Lemma run_before_run (u r1 r2 : string) :
  WhiteSpaceRun r2 → WhiteSpaceRun r1 → u +:+ r1 = r2 → WhiteSpaceRun u.
Proof.
  intros Hr2. revert u. induction Hr2 as [|w s Hw Hs IH]; intros u Hr1 Heq.
  { destruct u; [constructor|done]. }
  apply append_prefix_cases in Heq as [(v & -> & Hs')|(v & Hwv & Hr1v)].
  - constructor; [done|]. apply IH; [done|]. by symmetry.
  - destruct u as [|c0 u0]; [constructor|]. destruct v as [|c v].
    { rewrite append_empty_r in Hwv. subst w.
      by apply WhiteSpaceRun_one. }
    exfalso. destruct Hr1 as [|w' r' Hw' _]; [done|].
    pose proof (whiteSpace_nonempty _ Hw') as Hne'. destruct w' as [|c' t']; [done|].
    rewrite !append_cons in Hr1v. injection Hr1v as <- _.
    by apply (whiteSpace_inner w (String c' t') (String c0 u0) v t' c').
Qed.

Lemma run_ends (u : string) :
  WhiteSpaceRun u → u ≠ "" → ∃ t w, w ∈ whiteSpace ∧ u = t +:+ w.
Proof.
  induction 1 as [|w s Hw Hs IH]; [done|]. intros _.
  destruct s as [|c s'].
  - exists "", w. by rewrite append_empty_r.
  - destruct (IH ltac:(done)) as (t & w' & Hw' & ->).
    exists (w +:+ t), w'. by rewrite append_assoc.
Qed.

Lemma append_suffix_cases (a x b y : string) :
  a +:+ x = b +:+ y →
  (String.length x ≤ String.length y)%nat → ∃ u, y = u +:+ x ∧ a = b +:+ u.
Proof.
  intros Heq Hlen.
  apply append_prefix_cases in Heq as [(u & -> & ->)|(u & -> & ->)].
  - by exists u.
  - rewrite length_append in Hlen. destruct u; [|simpl in Hlen; lia].
    exists "". by rewrite !append_empty_r, !append_nil.
Qed.

Lemma Trimmed_core_end (c1 c2 r1 r2 : string) :
  c1 +:+ r1 = c2 +:+ r2 → WhiteSpaceRun r1 → WhiteSpaceRun r2 →
  (String.length r1 ≤ String.length r2)%nat →
  (∀ w rest, w ∈ whiteSpace → c1 ≠ rest +:+ w) → c1 = c2.
Proof.
  intros Heq Hr1 Hr2 Hlen Hend.
  destruct (append_suffix_cases _ _ _ _ Heq Hlen) as (u & Hr2u & ->).
  assert (WhiteSpaceRun u) as Hu by by apply (run_before_run u r1 r2).
  destruct u as [|c u]; [by rewrite append_empty_r|]. exfalso.
  destruct (run_ends _ Hu ltac:(done)) as (t & w & Hw & Htw).
  apply (Hend w (c2 +:+ t) Hw). by rewrite Htw, append_assoc.
Qed.

(** The trimmed form of a piece is unique. *)
Lemma Trimmed_unique (piece core1 core2 : string) :
  Trimmed piece core1 → Trimmed piece core2 → core1 = core2.
Proof.
  intros (l1 & r1 & Hp1 & Hl1 & Hr1 & Hs1 & He1) (l2 & r2 & Hp2 & Hl2 & Hr2 & Hs2 & He2).
  assert (∀ l core r, piece = l +:+ core +:+ r → WhiteSpaceRun l → WhiteSpaceRun r →
            (∀ w rest, w ∈ whiteSpace → core ≠ w +:+ rest) →
            trimStart piece = if decide (core = "") then "" else core +:+ r) as Hstart.
  { intros l core r -> Hl Hr Hs. rewrite (trimStart_run _ _ Hl).
    case_decide as Hc.
    - subst core. rewrite append_nil.
      apply String.eqb_eq. by apply allWhiteSpace_run.
    - apply trimStart_fixed. by apply starts_after_core. }
  pose proof (Hstart l1 core1 r1 Hp1 Hl1 Hr1 Hs1) as H1.
  pose proof (Hstart l2 core2 r2 Hp2 Hl2 Hr2 Hs2) as H2.
  rewrite H1 in H2. clear Hstart H1.
  destruct (decide (core1 = "")) as [->|Hc1], (decide (core2 = "")) as [->|Hc2].
  - done.
  - by destruct core2.
  - by destruct core1.
  - destruct (Nat.le_ge_cases (String.length r1) (String.length r2)).
    + by apply (Trimmed_core_end core1 core2 r1 r2).
    + symmetry. by apply (Trimmed_core_end core2 core1 r2 r1).
Qed.

(** *** Splitting on a separator *)

Lemma split_no_sep (sep : ascii) (s : string) :
  allChars (λ c, negb (Ascii.eqb c sep)) s = true → split sep s = [s].
Proof.
  induction s as [|c s IH]; [done|]. simpl. intros [Hc Hs]%andb_true_iff.
  apply negb_true_iff in Hc. rewrite Hc, (IH Hs). done.
Qed.

Lemma split_app_sep (sep : ascii) (s rest : string) :
  allChars (λ c, negb (Ascii.eqb c sep)) s = true →
  split sep (s +:+ String sep rest) = s :: split sep rest.
Proof.
  induction s as [|c s IH]; intros Hs.
  - rewrite append_nil. simpl. by rewrite Ascii.eqb_refl.
  - simpl in Hs. apply andb_true_iff in Hs as [Hc Hs]. apply negb_true_iff in Hc.
    rewrite append_cons. simpl. rewrite Hc, (IH Hs). done.
Qed.

Lemma split_SplitOn (sep : ascii) (s : string) : SplitOn sep s (split sep s).
Proof.
  split; [apply split_nonempty|]. split; [apply join_split|apply split_pieces_no_sep].
Qed.

Lemma SplitOn_unique (sep : ascii) (s : string) (pieces : list string) :
  SplitOn sep s pieces → pieces = split sep s.
Proof.
  intros (Hne & Hjoin & Hpieces). revert s Hjoin.
  induction Hpieces as [|p ps Hp Hps IH]; intros s Hjoin; [done|].
  destruct ps as [|q ps].
  - simpl in Hjoin. subst s. by rewrite split_no_sep.
  - change (join (String sep "") (p :: q :: ps))
      with (p +:+ String sep "" +:+ join (String sep "") (q :: ps)) in Hjoin.
    rewrite append_cons, append_nil in Hjoin. subst s.
    rewrite split_app_sep by done. f_equal. by apply IH.
Qed.

Lemma Forall2_Trimmed (pieces cores : list string) :
  Forall2 Trimmed pieces cores → cores = trim <$> pieces.
Proof.
  induction 1 as [|piece core pieces cores Ht _ IH]; [done|].
  rewrite fmap_cons, <- IH. f_equal. apply (Trimmed_unique piece); [done|].
  apply trim_Trimmed.
Qed.

Lemma indexOf_None (x : string) (args : list string) :
  indexOf x args = None ↔ x ∉ args.
Proof.
  induction args as [|a args IH]; simpl.
  - split; [|done]. intros _. apply not_elem_of_nil.
  - destruct (String.eqb_spec a x) as [->|Hne].
    + split; [done|]. intros Hx. exfalso. apply Hx. by left.
    + rewrite not_elem_of_cons. destruct (indexOf x args); simpl.
      * split; [done|]. intros [_ H]. by apply IH in H.
      * split; [|done]. intros _. split; [done|]. by apply IH.
Qed.

Lemma indexOf_app (x : string) (pre post : list string) :
  x ∉ pre → indexOf x (pre ++ x :: post) = Some (length pre).
Proof.
  induction pre as [|a pre IH]; simpl; intros Hpre.
  - by rewrite String.eqb_refl.
  - apply not_elem_of_cons in Hpre as [Hne Hpre].
    destruct (String.eqb_spec a x) as [->|_]; [done|]. by rewrite IH.
Qed.

Lemma filter_truthy (pieces : list string) :
  List.filter truthy pieces = filter (λ piece, piece ≠ "") pieces.
Proof.
  induction pieces as [|p pieces IH]; [done|]. simpl. unfold truthy at 1.
  destruct (String.eqb_spec p "") as [->|Hne]; simpl.
  - rewrite filter_cons_False by (by intros H). exact IH.
  - rewrite filter_cons_True by done. by rewrite IH.
Qed.

(** ** Dependency-flag parsing (make-app) *)

(** C8: without a [--deps] token, or with the first one in last position, the
    result is the default; otherwise it is the token after the first
    [--deps], split on commas, every piece trimmed of white space, the empty
    pieces dropped and the others kept in their order, duplicates included.
    The token has one splitting and every piece one trimmed form. *)
Theorem parseDeps_spec (args : list string) :
  ("--deps" ∉ args → MakeApp.parseDeps args = ["logger"])
  ∧ (∀ pre, args = pre ++ ["--deps"] → "--deps" ∉ pre →
       MakeApp.parseDeps args = ["logger"])
  ∧ (∀ pre token post, args = pre ++ "--deps" :: token :: post → "--deps" ∉ pre →
       (∃ pieces cores, SplitOn "," token pieces ∧ Forall2 Trimmed pieces cores)
       ∧ ∀ pieces cores,
           SplitOn "," token pieces → Forall2 Trimmed pieces cores →
           MakeApp.parseDeps args = filter (λ core, core ≠ "") cores).
Proof.
  unfold MakeApp.parseDeps. split; [|split].
  - intros Hno. apply indexOf_None in Hno. by rewrite Hno.
  - intros pre -> Hpre. rewrite indexOf_app by done.
    rewrite lookup_ge_None_2; [done|]. rewrite length_app. simpl. lia.
  - intros pre token post -> Hpre. split.
    { exists (split "," token), (trim <$> split "," token).
      split; [apply split_SplitOn|]. apply Forall2_fmap_r, Forall_Forall2_diag.
      apply Forall_forall. intros piece _. apply trim_Trimmed. }
    intros pieces cores Hsplit Htrim.
    apply SplitOn_unique in Hsplit as ->. apply Forall2_Trimmed in Htrim as ->.
    rewrite indexOf_app by done.
    replace (length pre + 1)%nat with (S (length pre)) by lia.
    rewrite (lookup_app_r pre) by lia.
    replace (S (length pre) - length pre)%nat with 1%nat by lia. simpl.
    apply filter_truthy.
Qed.

Lemma parseDeps_spec_witness :
  let token := " logger ,,config," +:+ bytes [194; 160] +:+ "logger"
               +:+ bytes [226; 128; 168] +:+ ", " in
  MakeApp.parseDeps ["node"; "make-app.ts"; "billing"] = ["logger"]
  ∧ MakeApp.parseDeps ["node"; "make-app.ts"; "billing"; "--deps"] = ["logger"]
  ∧ MakeApp.parseDeps ["node"; "make-app.ts"; "billing"; "--deps"; token; "-v"]
    = ["logger"; "config"; "logger"].
Proof.
  intros token. split; [|split].
  - apply (proj1 (parseDeps_spec ["node"; "make-app.ts"; "billing"])).
    compute_done.
  - apply (proj1 (proj2 (parseDeps_spec ["node"; "make-app.ts"; "billing"; "--deps"]))
             ["node"; "make-app.ts"; "billing"]); [reflexivity | compute_done].
  - apply (proj2 (proj2 (proj2 (parseDeps_spec
             ["node"; "make-app.ts"; "billing"; "--deps"; token; "-v"]))
             ["node"; "make-app.ts"; "billing"] token ["-v"] eq_refl ltac:(compute_done))
             [" logger "; ""; "config";
              bytes [194; 160] +:+ "logger" +:+ bytes [226; 128; 168]; " "]
             ["logger"; ""; "config"; "logger"; ""]).
    + split; [done|]. split; [reflexivity|]. repeat constructor.
    + repeat first [apply Forall2_nil_2 | apply Forall2_cons_2].
      * exact (trim_Trimmed " logger ").
      * exact (trim_Trimmed "").
      * exact (trim_Trimmed "config").
      * exact (trim_Trimmed (bytes [194; 160] +:+ "logger" +:+ bytes [226; 128; 168])).
      * exact (trim_Trimmed " ").
Defined.

(** ** Running a script step by step *)

Lemma bind_console {B} (s : stream) (msg : string) (f : unit → IO B) (fs : FS) :
  bind (console s msg) f fs
  = Out (result (f tt fs)) (disk (f tt fs)) (Console s msg :: trace (f tt fs)).
Proof. reflexivity. Qed.

Lemma bind_existsSync {B} (p : path) (f : bool → IO B) (fs : FS) :
  bind (existsSync p) f fs
  = let o := f (bool_decide (is_Some (stat fs p))) fs in
    Out (result o) (disk o) (Exists p :: trace o).
Proof. reflexivity. Qed.

Lemma bind_ret {A B} (a : A) (f : A → IO B) (fs : FS) :
  bind (ret a) f fs = f a fs.
Proof. unfold bind, ret. simpl. by destruct (f a fs). Qed.

Lemma bind_process_exit {A B} (code : nat) (f : A → IO B) (fs : FS) :
  bind (process_exit code) f fs = Out (Exit code) fs [].
Proof. reflexivity. Qed.

Lemma bind_throw {A B} (e : exn) (f : A → IO B) (fs : FS) :
  bind (throw e) f fs = Out (Throw e) fs [].
Proof. reflexivity. Qed.

Lemma bind_assoc {A B C} (m : IO A) (f : A → IO B) (g : B → IO C) (fs : FS) :
  bind (bind m f) g fs = bind m (λ a, bind (f a) g) fs.
Proof.
  unfold bind. destruct (m fs) as [[a|c|e] d t]; simpl; [|done..].
  destruct (f a d) as [[b|c|e] d' t']; simpl; [|done..].
  by rewrite app_assoc.
Qed.

(** ** Name validation and collision check (Scaffold Engine) *)


Lemma allChars_NameTail (s : string) :
  allChars (λ d, isLower d || isDigit d || Ascii.eqb d "-"%char) s = true ↔ NameTail s.
Proof.
  induction s as [|c s IH]; simpl.
  - split; [constructor | done].
  - rewrite andb_true_iff, IH, !orb_true_iff. split.
    + intros [[[Hc|Hc]|Hc] Hs]; constructor; try done.
      * left. by apply Is_true_true.
      * right; left. by apply Is_true_true.
      * right; right. by apply Ascii.eqb_eq.
    + intros H. inversion H as [|? ? [Hc|[Hc|Hc]] Hs]; subst; split; try done.
      * left; left. by apply Is_true_true.
      * left; right. by apply Is_true_true.
      * right. by apply Ascii.eqb_eq.
Qed.

Lemma namePattern_ValidName (name : string) :
  namePattern name = true ↔ ValidName name.
Proof.
  destruct name as [|c s]; simpl.
  - split; [done | inversion 1].
  - rewrite andb_true_iff, allChars_NameTail. split.
    + intros [Hc Hs]. constructor; [by apply Is_true_true | done].
    + inversion 1; subst. split; [by apply Is_true_true | done].
Qed.

Lemma ValidName_not_flag (name : string) :
  ValidName name → negb (truthy name) || startsWith "--" name = false.
Proof.
  inversion 1 as [c s Hc Hs]; subst. unfold truthy. simpl.
  destruct (Ascii.ascii_dec "-" c) as [<-|Hne]; [done|].
  destruct c as [[] [] [] [] [] [] [] []]; done.
Qed.


Lemma NameTail_no_bad_char (s : string) :
  NameTail s → existsChar (λ c, isUpper c || Ascii.eqb c "_"%char) s = false.
Proof.
  induction 1 as [|c s Hc _ IH]; simpl; [done|]. rewrite IH, orb_false_r.
  destruct Hc as [Hc|[Hc| ->]]; [| |done];
    destruct c as [[] [] [] [] [] [] [] []]; done.
Qed.

(** The names the claim lists as invalid are not valid. *)
Lemma ValidName_excludes (name : string) :
  ValidName name →
  startsWith "--" name = false
  ∧ existsChar isUpper name = false
  ∧ existsChar (λ c, Ascii.eqb c "_"%char) name = false
  ∧ match name with
    | String c _ => isDigit c = false ∧ c ≠ "-"%char
    | "" => False
    end.
Proof.
  intros Hv. pose proof (ValidName_not_flag _ Hv) as Hflag.
  apply orb_false_iff in Hflag as [_ Hflag].
  inversion Hv as [c s Hc Hs]; subst.
  pose proof (NameTail_no_bad_char _ Hs) as Hbad.
  assert (existsChar isUpper s = false ∧ existsChar (λ c, Ascii.eqb c "_"%char) s = false)
    as [Hup Hus].
  { clear -Hbad. induction s as [|d s IH]; simpl in *; [done|].
    apply orb_false_iff in Hbad as [Hd Hbad]. apply orb_false_iff in Hd as [-> ->].
    destruct (IH Hbad) as [-> ->]. done. }
  split; [done|]. simpl. rewrite Hup, Hus, !orb_false_r.
  destruct c as [[] [] [] [] [] [] [] []]; done.
Qed.


Lemma console_only_no_mutation (tr : list event) :
  Forall (λ ev, isConsole ev = true) tr → mutations tr = [].
Proof.
  induction 1 as [|ev tr Hev _ IH]; [done|].
  unfold mutations in *. rewrite filter_cons, IH.
  case_decide; [|done]. by destruct ev.
Qed.

Section Scaffold.

Variable __dirname : path.
Variable ejs_app : string → MakeApp.StubContext → option string.
Variable ejs_package : string → MakePackage.StubContext → option string.
Variable sh : shell.

Local Abbreviation scaffold := (Scaffolding.scaffold __dirname ejs_app ejs_package sh).
Local Abbreviation targetDir := (Scaffolding.targetDir __dirname).
Local Abbreviation accepted := (Scaffolding.accepted __dirname).
Local Abbreviation rejected := Scaffolding.rejected.

Lemma scaffold_absent (k : Scaffolding.kind) (argv : list string) (fs : FS) :
  argv !! 2%nat = None → rejected fs (scaffold k argv fs).
Proof.
  intros Hname. unfold Scaffolding.scaffold, MakeApp.main, MakePackage.main.
  destruct k; rewrite Hname; repeat split; repeat constructor.
Qed.

Lemma scaffold_invalid (k : Scaffolding.kind) (argv : list string) (fs : FS) (name : string) :
  argv !! 2%nat = Some name → ¬ ValidName name → rejected fs (scaffold k argv fs).
Proof.
  intros Hname Hinv. rewrite <- namePattern_ValidName in Hinv.
  apply not_true_is_false in Hinv.
  unfold Scaffolding.scaffold, MakeApp.main, MakePackage.main.
  destruct k; rewrite Hname;
    (destruct (negb (truthy name) || startsWith "--" name);
     [|rewrite Hinv]; repeat split; repeat constructor).
Qed.

Lemma scaffold_valid (k : Scaffolding.kind) (argv : list string) (fs : FS) (name : string) :
  argv !! 2%nat = Some name → ValidName name →
  accepted k name (scaffold k argv fs)
  ∧ (is_Some (stat fs (targetDir k name)) →
     result (scaffold k argv fs) = Exit 1
     ∧ disk (scaffold k argv fs) = fs
     ∧ mutations (trace (scaffold k argv fs)) = []).
Proof.
  intros Hname Hv. pose proof (ValidName_not_flag _ Hv) as Hflag.
  apply namePattern_ValidName in Hv.
  unfold Scaffolding.accepted, Scaffolding.scaffold, Scaffolding.targetDir, MakeApp.main, MakePackage.main.
  destruct k; rewrite Hname, Hflag, Hv; cbn [negb];
    rewrite bind_existsSync; cbv zeta.
  - split; [by eexists|]. intros Hex. rewrite bool_decide_eq_true_2 by done. done.
  - split; [by eexists|]. intros Hex. rewrite bool_decide_eq_true_2 by done. done.
Qed.

(** C9: a run gets past validation exactly when the requested name is a
    lower-case letter followed by lower-case letters, digits and hyphens;
    every other run (no name, a flag in its place, an upper-case letter or
    an underscore anywhere, a leading digit or hyphen) stops with exit code 1
    having made no call to the file system at all. *)
Theorem name_validation (k : Scaffolding.kind) (argv : list string) (fs : FS) :
  ((∃ name, argv !! 2%nat = Some name ∧ accepted k name (scaffold k argv fs))
   ↔ ∃ name, argv !! 2%nat = Some name ∧ ValidName name)
  ∧ ((¬ ∃ name, argv !! 2%nat = Some name ∧ ValidName name) →
     rejected fs (scaffold k argv fs))
  ∧ ((argv !! 2%nat = None
      ∨ ∃ name, argv !! 2%nat = Some name
          ∧ (startsWith "--" name = true
             ∨ existsChar isUpper name = true
             ∨ existsChar (λ c, Ascii.eqb c "_"%char) name = true
             ∨ ∃ c rest, name = String c rest ∧ (isDigit c = true ∨ c = "-"%char))) →
     rejected fs (scaffold k argv fs)).
Proof.
  assert ((¬ ∃ name, argv !! 2%nat = Some name ∧ ValidName name) →
          rejected fs (scaffold k argv fs)) as Hrej.
  { intros Hno. destruct (argv !! 2%nat) as [name|] eqn:Hname.
    - apply (scaffold_invalid k argv fs name Hname). intros Hv. apply Hno. eauto.
    - by apply scaffold_absent. }
  split; [|split; [exact Hrej|]].
  - split.
    + intros (name & Hname & tr & Htr).
      destruct (decide (namePattern name = true)) as [Hp|Hp].
      * exists name. split; [done|]. by apply namePattern_ValidName.
      * rewrite namePattern_ValidName in Hp.
        destruct (scaffold_invalid k argv fs name Hname Hp) as (_ & _ & Hcons).
        rewrite Htr in Hcons. by inversion Hcons.
    + intros (name & Hname & Hv). exists name. split; [done|].
      by apply scaffold_valid.
  - intros Hbad. apply Hrej. intros (name & Hname & Hv).
    destruct (ValidName_excludes _ Hv) as (Hflag & Hup & Hus & Hhd).
    destruct Hbad as [Habs|(name' & Hname' & Hbad)]; [congruence|].
    assert (name' = name) as -> by congruence.
    destruct Hbad as [?|[?|[?|(c & rest & -> & Hc)]]]; [congruence..|].
    destruct Hhd as [Hd Hh]. destruct Hc; congruence.
Qed.

(** C5: when the target directory of the requested name exists, the
    scaffolding of an app and of a package both stop with exit code 1, the
    disk is as before, and the run attempted no directory creation, no file
    write and no command. *)
Theorem collision_rejected (k : Scaffolding.kind) (argv : list string) (fs : FS) (name : string) :
  argv !! 2%nat = Some name →
  is_Some (stat fs (targetDir k name)) →
  result (scaffold k argv fs) = Exit 1
  ∧ disk (scaffold k argv fs) = fs
  ∧ mutations (trace (scaffold k argv fs)) = [].
Proof.
  intros Hname Hex.
  destruct (decide (namePattern name = true)) as [Hp|Hp].
  - apply namePattern_ValidName in Hp.
    by apply (scaffold_valid k argv fs name Hname Hp).
  - rewrite namePattern_ValidName in Hp.
    destruct (scaffold_invalid k argv fs name Hname Hp) as (? & ? & Hcons).
    by rewrite (console_only_no_mutation _ Hcons).
Qed.

End Scaffold.

Lemma name_validation_witness :
  (∃ name, ["node"; "make-app.ts"; "billing-2"] !! 2%nat = Some name ∧ ValidName name)
  ∧ Scaffolding.accepted Sample.tooling_dir Scaffolding.App "billing-2"
      (Scaffolding.scaffold Sample.tooling_dir Sample.ejs_app Sample.ejs_package Sample.sh
         Scaffolding.App ["node"; "make-app.ts"; "billing-2"] Sample.workspace)
  ∧ Scaffolding.rejected Sample.workspace
      (Scaffolding.scaffold Sample.tooling_dir Sample.ejs_app Sample.ejs_package Sample.sh
         Scaffolding.Package ["node"; "make-package.ts"; "app_name"] Sample.workspace).
Proof.
  assert (ValidName "billing-2") as Hv by (by apply namePattern_ValidName).
  split; [by exists "billing-2"|]. split.
  - destruct (proj2 (proj1 (name_validation Sample.tooling_dir Sample.ejs_app
        Sample.ejs_package Sample.sh Scaffolding.App
        ["node"; "make-app.ts"; "billing-2"] Sample.workspace)))
      as (name & [= <-] & Hacc); [|exact Hacc].
    by exists "billing-2".
  - apply (proj2 (proj2 (name_validation Sample.tooling_dir Sample.ejs_app
        Sample.ejs_package Sample.sh Scaffolding.Package
        ["node"; "make-package.ts"; "app_name"] Sample.workspace))).
    right. exists "app_name". split; [reflexivity|]. right; right; left. reflexivity.
Defined.

Lemma collision_rejected_witness :
  let argv := ["node"; "make-app.ts"; "gateway"; "--deps"; "logger"] in
  let run := Scaffolding.scaffold Sample.tooling_dir Sample.ejs_app Sample.ejs_package
               Sample.sh Scaffolding.App argv Sample.workspace in
  argv !! 2%nat = Some "gateway"
  ∧ is_Some (stat Sample.workspace
               (Scaffolding.targetDir Sample.tooling_dir Scaffolding.App "gateway"))
  ∧ result run = Exit 1 ∧ disk run = Sample.workspace ∧ mutations (trace run) = [].
Proof.
  assert (is_Some (stat Sample.workspace
            (Scaffolding.targetDir Sample.tooling_dir Scaffolding.App "gateway"))) as Hex.
  { vm_compute. by eexists. }
  split; [reflexivity|]. split; [exact Hex|].
  apply (collision_rejected Sample.tooling_dir Sample.ejs_app Sample.ejs_package
           Sample.sh Scaffolding.App
           ["node"; "make-app.ts"; "gateway"; "--deps"; "logger"]
           Sample.workspace "gateway"); [reflexivity | exact Hex].
Defined.

(** ** Deploy Candidate Resolver *)

Lemma bind_Ok_eq {A B} (m : IO A) (f : A → IO B) (fs : FS) (a : A) :
  result (m fs) = Ok a →
  bind m f fs
  = Out (result (f a (disk (m fs)))) (disk (f a (disk (m fs))))
        (trace (m fs) ++ trace (f a (disk (m fs)))).
Proof. unfold bind. by intros ->. Qed.

Lemma probes_app (tr1 tr2 : list event) : probes (tr1 ++ tr2) = probes tr1 ++ probes tr2.
Proof. apply filter_app. Qed.

Lemma probes_Exists (ps : list path) : probes (Exists <$> ps) = Exists <$> ps.
Proof.
  induction ps as [|p ps IH]; [done|]. unfold probes in *.
  rewrite fmap_cons, filter_cons_True by done. by rewrite IH.
Qed.

Lemma selectFile_spec (dockerDir : path) (candidates : list string) (fs : FS) :
  let o := Deploy.selectFile dockerDir candidates fs in
  let present file := is_Some (stat fs (path_join dockerDir [file])) in
  disk o = fs
  ∧ match list_find present candidates with
    | Some (i, file) =>
        result o = Ok (Some (path_join dockerDir [file]))
        ∧ trace o = Exists <$> ((λ f, path_join dockerDir [f]) <$> take (S i) candidates)
    | None =>
        result o = Ok None
        ∧ trace o = Exists <$> ((λ f, path_join dockerDir [f]) <$> candidates)
    end.
Proof.
  induction candidates as [|file rest IH]; [done|].
  cbn [Deploy.selectFile list_find]. rewrite bind_existsSync. cbv zeta.
  case_decide as Hp.
  - rewrite bool_decide_eq_true_2 by done. done.
  - rewrite bool_decide_eq_false_2 by done. cbv zeta in IH.
    destruct IH as [Hd IH]. split; [done|].
    destruct (list_find _ rest) as [[i f]|]; simpl; destruct IH as [-> ->]; done.
Qed.

Section DeployResolver.

Variable __dirname : path.
Variable sh : shell.

Local Abbreviation main := (Deploy.main __dirname sh).
Local Abbreviation ROOT := (Deploy.ROOT __dirname).

Lemma candidatesOf_claimed (tag : option string) :
  Deploy.candidatesOf tag = claimedCandidates tag.
Proof.
  unfold Deploy.candidatesOf, claimedCandidates, truthy.
  destruct tag as [t|]; [|done].
  destruct (String.eqb_spec t ""); by case_decide.
Qed.

Lemma probes_cons_Exists (p : path) (tr : list event) :
  probes (Exists p :: tr) = Exists p :: probes tr.
Proof. unfold probes. rewrite filter_cons_True; done. Qed.

Lemma probes_cons_other (ev : event) (tr : list event) :
  isProbe ev = false → probes (ev :: tr) = probes tr.
Proof.
  intros Hev. unfold probes. rewrite filter_cons_False; [done|]. rewrite Hev. intros [].
Qed.

(** C4: once the service directory is found, the resolver probes the
    candidates of the tag (when one is given) and then the generic ones, in
    that order and only up to the first that exists, which it hands to the
    orchestration command; when none exists it stops with exit code 1 and
    its last error line lists every candidate. *)
Theorem deploy_candidate_order (argv : list string) (DEPLOY_ENV : option string)
    (fs : FS) (serviceName : string) :
  argv !! 2%nat = Some serviceName →
  serviceName ≠ "" →
  is_Some (stat fs (path_join ROOT ["apps"; serviceName])) →
  let serviceDir := path_join ROOT ["apps"; serviceName] in
  let dockerDir := path_join serviceDir ["docker"] in
  let candidates := claimedCandidates (Deploy.deployEnvOf argv DEPLOY_ENV) in
  let present file := is_Some (stat fs (path_join dockerDir [file])) in
  let o := main argv DEPLOY_ENV fs in
  match list_find present candidates with
  | Some (i, file) =>
      probes (trace o)
      = Exists <$> (serviceDir :: ((λ f, path_join dockerDir [f]) <$> take (S i) candidates))
      ∧ ∃ env, Exec ("docker compose -f " +:+ path_to_string (path_join dockerDir [file])
                       +:+ " up -d --build") None env ∈ trace o
  | None =>
      result o = Exit 1 ∧ disk o = fs
      ∧ ∃ msg, trace o
               = (Exists <$> (serviceDir :: ((λ f, path_join dockerDir [f]) <$> candidates)))
                   ++ [Console Err msg; Console Err ("Checked: " +:+ join ", " candidates)]
  end.
Proof.
  intros Hname Hne Hdir serviceDir dockerDir candidates present o.
  subst o. unfold Deploy.main. rewrite Hname.
  change (default "" (Some serviceName)) with serviceName.
  assert (truthy serviceName = true) as ->.
  { unfold truthy. by destruct (String.eqb_spec serviceName ""). }
  cbn [negb]. rewrite bind_existsSync. fold ROOT. fold serviceDir.
  rewrite bool_decide_eq_true_2 by done. cbn [negb]. cbv zeta.
  fold dockerDir. rewrite candidatesOf_claimed. fold candidates.
  destruct (selectFile_spec dockerDir candidates fs) as [Hd Hsel].
  fold present in Hsel.
  destruct (list_find present candidates) as [[i file]|]; destruct Hsel as [Hr Ht].
  - rewrite (bind_Ok_eq _ _ _ _ Hr), Hd, Ht. cbn [trace result disk].
    unfold console_log, console_error. rewrite !bind_console. cbn [trace result disk].
    unfold try_catch, bind, execSync.
    destruct (sh _ None _ fs) as [[] fs']; cbn [trace result disk console process_exit app]; split.
    + rewrite fmap_cons, probes_cons_Exists, probes_app, probes_Exists.
      rewrite !probes_cons_other by done. by rewrite app_nil_r.
    + eexists. apply elem_of_cons. right. apply elem_of_app. right.
      do 2 (apply elem_of_cons; right). apply elem_of_cons. by left.
    + rewrite fmap_cons, probes_cons_Exists, probes_app, probes_Exists.
      rewrite !probes_cons_other by done. by rewrite app_nil_r.
    + eexists. apply elem_of_cons. right. apply elem_of_app. right.
      do 2 (apply elem_of_cons; right). apply elem_of_cons. by left.
  - rewrite (bind_Ok_eq _ _ _ _ Hr), Hd, Ht. cbn [trace result disk].
    unfold console_log, console_error. rewrite !bind_console.
    unfold process_exit. cbn [trace result disk].
    split; [done|]. split; [done|]. eexists. by rewrite fmap_cons.
Qed.

End DeployResolver.

Lemma deploy_candidate_order_witness :
  let argv := ["node"; "deploy-service.ts"; "gateway"; "--env"; "production"] in
  let o := Deploy.main Sample.scripts_dir Sample.sh argv None Sample.workspace in
  argv !! 2%nat = Some "gateway"
  ∧ "gateway" ≠ ""
  ∧ is_Some (stat Sample.workspace
               (path_join (Deploy.ROOT Sample.scripts_dir) ["apps"; "gateway"]))
  ∧ probes (trace o)
    = Exists <$> [ ["repo"; "apps"; "gateway"];
                   ["repo"; "apps"; "gateway"; "docker"; "compose.production.yaml"];
                   ["repo"; "apps"; "gateway"; "docker"; "compose.production.yml"];
                   ["repo"; "apps"; "gateway"; "docker"; "compose.yaml"] ]
  ∧ ∃ env, Exec "docker compose -f /repo/apps/gateway/docker/compose.yaml up -d --build"
             None env ∈ trace o.
Proof.
  assert (is_Some (stat Sample.workspace
            (path_join (Deploy.ROOT Sample.scripts_dir) ["apps"; "gateway"]))) as Hdir.
  { vm_compute. by eexists. }
  split; [reflexivity|]. split; [done|]. split; [exact Hdir|].
  pose proof (deploy_candidate_order Sample.scripts_dir Sample.sh
                ["node"; "deploy-service.ts"; "gateway"; "--env"; "production"]
                None Sample.workspace "gateway" eq_refl ltac:(done) Hdir) as H.
  exact H.
Defined.

Lemma fmap_take_prefix {A B} (f : A → B) (n : nat) (l : list A) :
  f <$> take n l `prefix_of` f <$> l.
Proof. exists (f <$> drop n l). by rewrite <- fmap_app, take_drop. Qed.

Section DeployEnvironment.

Variable __dirname : path.
Variable sh : shell.

Local Abbreviation main := (Deploy.main __dirname sh).
Local Abbreviation ROOT := (Deploy.ROOT __dirname).

(** Whatever the arguments and the disk, the script probes the service
    directory and then candidates from the head of the list, nothing else. *)
Lemma main_probes_prefix (argv : list string) (DEPLOY_ENV : option string) (fs : FS) :
  let serviceDir := path_join ROOT ["apps"; default "" (argv !! 2%nat)] in
  let dockerDir := path_join serviceDir ["docker"] in
  probes (trace (main argv DEPLOY_ENV fs))
  `prefix_of`
  Exists <$> (serviceDir :: ((λ f, path_join dockerDir [f])
                               <$> Deploy.candidatesOf (Deploy.deployEnvOf argv DEPLOY_ENV))).
Proof.
  intros serviceDir dockerDir. unfold Deploy.main.
  destruct (truthy (default "" (argv !! 2%nat))); cbn [negb]; [|apply prefix_nil].
  rewrite bind_existsSync. fold ROOT. fold serviceDir. cbv zeta.
  destruct (bool_decide (is_Some (stat fs serviceDir))); cbn [negb].
  2:{ rewrite fmap_cons. cbn [trace]. rewrite probes_cons_Exists.
      apply prefix_cons, prefix_nil. }
  fold dockerDir.
  destruct (selectFile_spec dockerDir
              (Deploy.candidatesOf (Deploy.deployEnvOf argv DEPLOY_ENV)) fs) as [Hd Hsel].
  cbv zeta in Hsel.
  destruct (list_find _ _) as [[i file]|]; destruct Hsel as [Hr Ht].
  - rewrite (bind_Ok_eq _ _ _ _ Hr), Hd, Ht. cbn [trace result disk].
    unfold console_log, console_error. rewrite !bind_console. cbn [trace result disk].
    unfold try_catch, bind, execSync.
    destruct (sh _ None _ fs) as [[] fs']; cbn [trace result disk console process_exit app];
      rewrite fmap_cons, probes_cons_Exists, probes_app, probes_Exists;
      rewrite !probes_cons_other by done; rewrite app_nil_r;
      apply prefix_cons; rewrite <- !list_fmap_compose; apply fmap_take_prefix.
  - rewrite (bind_Ok_eq _ _ _ _ Hr), Hd, Ht. cbn [trace result disk].
    unfold console_log, console_error. rewrite !bind_console.
    unfold process_exit. cbn [trace result disk].
    rewrite fmap_cons, probes_cons_Exists, probes_app, probes_Exists.
    rewrite !probes_cons_other by done. by rewrite app_nil_r.
Qed.

(** C10: the environment variable is the tag only when the arguments hold
    no [--env]; with the flag present the run does not depend on the
    variable, and with the flag in last position the tag is undefined and
    the script probes nothing but the service directory and the two generic
    candidates. *)
Theorem deploy_env_flag (argv : list string) (DEPLOY_ENV : option string) :
  ("--env" ∉ argv → Deploy.deployEnvOf argv DEPLOY_ENV = DEPLOY_ENV)
  ∧ ("--env" ∈ argv → ∀ other fs, main argv DEPLOY_ENV fs = main argv other fs)
  ∧ (∀ pre, argv = pre ++ ["--env"] → "--env" ∉ pre →
       Deploy.deployEnvOf argv DEPLOY_ENV = None
       ∧ Deploy.candidatesOf (Deploy.deployEnvOf argv DEPLOY_ENV)
         = ["compose.yaml"; "compose.yml"]
       ∧ ∀ fs,
           let serviceDir := path_join ROOT ["apps"; default "" (argv !! 2%nat)] in
           let dockerDir := path_join serviceDir ["docker"] in
           probes (trace (main argv DEPLOY_ENV fs))
           `prefix_of`
           Exists <$> [ serviceDir;
                        path_join dockerDir ["compose.yaml"];
                        path_join dockerDir ["compose.yml"] ]).
Proof.
  split; [|split].
  - intros Hno. unfold Deploy.deployEnvOf. apply indexOf_None in Hno. by rewrite Hno.
  - intros Hin other fs.
    assert (∀ e, Deploy.deployEnvOf argv e = Deploy.deployEnvOf argv None) as Henv.
    { intros e. unfold Deploy.deployEnvOf.
      destruct (indexOf "--env" argv) eqn:Hidx; [done|].
      by apply indexOf_None in Hidx. }
    unfold Deploy.main. by rewrite (Henv DEPLOY_ENV), (Henv other).
  - intros pre -> Hpre.
    assert (Deploy.deployEnvOf (pre ++ ["--env"]) DEPLOY_ENV = None) as Htag.
    { unfold Deploy.deployEnvOf. rewrite indexOf_app by done.
      apply lookup_ge_None_2. rewrite length_app. simpl. lia. }
    split; [done|]. split; [by rewrite Htag|]. intros fs serviceDir dockerDir.
    pose proof (main_probes_prefix (pre ++ ["--env"]) DEPLOY_ENV fs) as Hp.
    cbv zeta in Hp. by rewrite Htag in Hp.
Qed.

End DeployEnvironment.

Lemma deploy_env_flag_witness :
  let argv := ["node"; "deploy-service.ts"; "gateway"; "--env"] in
  let o := Deploy.main Sample.scripts_dir Sample.sh argv (Some "production") Sample.workspace in
  Deploy.deployEnvOf ["node"; "deploy-service.ts"; "gateway"] (Some "production")
  = Some "production"
  ∧ Deploy.deployEnvOf argv (Some "production") = None
  ∧ o = Deploy.main Sample.scripts_dir Sample.sh argv None Sample.workspace
  ∧ probes (trace o)
    `prefix_of`
    Exists <$> [ ["repo"; "apps"; "gateway"];
                 ["repo"; "apps"; "gateway"; "docker"; "compose.yaml"];
                 ["repo"; "apps"; "gateway"; "docker"; "compose.yml"] ].
Proof.
  split; [|split; [|split]].
  - apply (proj1 (deploy_env_flag Sample.scripts_dir Sample.sh
                    ["node"; "deploy-service.ts"; "gateway"] (Some "production"))).
    compute_done.
  - apply (proj2 (proj2 (deploy_env_flag Sample.scripts_dir Sample.sh
                    ["node"; "deploy-service.ts"; "gateway"; "--env"] (Some "production")))
             ["node"; "deploy-service.ts"; "gateway"] eq_refl).
    compute_done.
  - apply (proj1 (proj2 (deploy_env_flag Sample.scripts_dir Sample.sh
                    ["node"; "deploy-service.ts"; "gateway"; "--env"] (Some "production")))).
    compute_done.
  - apply (proj2 (proj2 (deploy_env_flag Sample.scripts_dir Sample.sh
                    ["node"; "deploy-service.ts"; "gateway"; "--env"] (Some "production")))
             ["node"; "deploy-service.ts"; "gateway"] eq_refl).
    compute_done.
Defined.

(** ** The order of [sort] *)

Lemma leb_cons (a b : ascii) (s t : string) :
  String.leb (String a s) (String b t) = true
  ↔ (N_of_ascii a < N_of_ascii b)%N ∨ (a = b ∧ String.leb s t = true).
Proof.
  unfold String.leb. simpl. unfold Ascii.compare.
  destruct (N.compare_spec (N_of_ascii a) (N_of_ascii b)) as [Heq|Hlt|Hgt].
  - assert (a = b) as -> by (by rewrite <- (ascii_N_embedding a), Heq, ascii_N_embedding).
    split; [by right|]. intros [?|[_ ?]]; [lia|done].
  - split; [by left|done].
  - split; [done|]. intros [?|[-> _]]; lia.
Qed.

Lemma leb_nil (t : string) : String.leb "" t = true.
Proof. by destruct t. Qed.

Lemma leb_cons_nil (a : ascii) (s : string) : String.leb (String a s) "" = false.
Proof. done. Qed.

#[global] Instance str_le_total : Total str_le.
Proof. intros a b. apply String.leb_total. Qed.

#[global] Instance str_le_antisymm : AntiSymm (=) str_le.
Proof. intros a b. apply String.leb_antisym. Qed.

#[global] Instance str_le_trans : Transitive str_le.
Proof.
  unfold str_le. intros s1. induction s1 as [|a s1 IH]; intros s2 s3 H12 H23.
  - apply leb_nil.
  - destruct s2 as [|b s2]; [by rewrite leb_cons_nil in H12|].
    destruct s3 as [|c s3]; [by rewrite leb_cons_nil in H23|].
    apply leb_cons in H12, H23. apply leb_cons.
    destruct H12 as [?|[-> H12]], H23 as [?|[-> H23]]; [left; lia|by left..|].
    right. split; [done|]. by apply (IH s2).
Qed.

Lemma leb_prefix (pre a b : string) :
  String.leb (pre +:+ a) (pre +:+ b) = String.leb a b.
Proof.
  induction pre as [|c pre IH]; [done|]. rewrite !append_cons.
  unfold String.leb in *. simpl. unfold Ascii.compare. by rewrite N.compare_refl.
Qed.

Lemma sort_Permutation (arr : list string) : sort arr ≡ₚ arr.
Proof. apply merge_sort_Permutation. Qed.

Lemma sort_Sorted (arr : list string) : Sorted str_le (sort arr).
Proof. apply Sorted_merge_sort, _. Qed.

(** Sorting depends on the elements only, not on the order they come in. *)
Lemma sort_perm (arr1 arr2 : list string) : arr1 ≡ₚ arr2 → sort arr1 = sort arr2.
Proof.
  intros Hp. apply (Sorted_unique str_le); [apply sort_Sorted..|].
  by rewrite !sort_Permutation.
Qed.

(** ** Read-only runs *)

Lemma mutations_app (tr1 tr2 : list event) :
  mutations (tr1 ++ tr2) = mutations tr1 ++ mutations tr2.
Proof. apply filter_app. Qed.

Lemma mutations_cons_other (ev : event) (tr : list event) :
  isMutation ev = false → mutations (ev :: tr) = mutations tr.
Proof.
  intros Hev. unfold mutations. rewrite filter_cons_False; [done|].
  rewrite Hev. intros [].
Qed.


Lemma readOnly_ret {A} (a : A) : readOnly (ret a).
Proof. done. Qed.

Lemma readOnly_process_exit {A} (code : nat) : readOnly (@process_exit A code).
Proof. done. Qed.

Lemma readOnly_throw {A} (e : exn) : readOnly (@throw A e).
Proof. done. Qed.

Lemma readOnly_console (s : stream) (msg : string) : readOnly (console s msg).
Proof. done. Qed.

Lemma readOnly_existsSync (p : path) : readOnly (existsSync p).
Proof. done. Qed.

Lemma readOnly_readFileSync (p : path) : readOnly (readFileSync p).
Proof. intros fs. unfold readFileSync. by destruct (stat fs p) as [[]|]. Qed.

Lemma readOnly_readdirSync (p : path) : readOnly (readdirSync p).
Proof. intros fs. unfold readdirSync. by destruct (stat fs p) as [[]|]. Qed.

Lemma readOnly_bind {A B} (m : IO A) (f : A → IO B) :
  readOnly m → (∀ a, readOnly (f a)) → readOnly (bind m f).
Proof.
  intros Hm Hf fs. destruct (Hm fs) as [Hd Ht]. unfold bind.
  destruct (m fs) as [[a|c|e] d t]; simpl in *; subst; [|done..].
  destruct (Hf a fs) as [Hd' Ht']. by rewrite mutations_app, Ht, Ht'.
Qed.

Lemma readOnly_forOf {A} (xs : list A) (body : A → IO unit) :
  (∀ x, readOnly (body x)) → readOnly (forOf xs body).
Proof.
  intros Hb. induction xs as [|x xs IH]; [done|].
  simpl. by apply readOnly_bind.
Qed.

Lemma readOnly_forOfAcc {A S} (xs : list A) (acc : S) (body : S → A → IO S) :
  (∀ acc x, readOnly (body acc x)) → readOnly (forOfAcc xs acc body).
Proof.
  intros Hb. revert acc. induction xs as [|x xs IH]; intros acc; [done|].
  simpl. by apply readOnly_bind.
Qed.

Create HintDb readonly.
#[global] Hint Resolve readOnly_ret readOnly_process_exit readOnly_throw readOnly_console
  readOnly_existsSync readOnly_readFileSync readOnly_readdirSync : readonly.

(** Unfolds a script one level and discharges its read-only steps. *)
Ltac read_only :=
  repeat first
    [ apply readOnly_bind; [|intros ?]
    | apply readOnly_forOf; intros ?
    | apply readOnly_forOfAcc; intros ? ?
    | progress unfold console_log, console_warn, console_error
    | solve [auto with readonly]
    | match goal with
      | |- readOnly (if ?b then _ else _) => destruct b
      | |- readOnly (match ?x with _ => _ end) => destruct x
      | |- readOnly ((match ?x with _ => _ end) _) => destruct x
      end ].

(** Running on, after a read-only step that succeeded. *)
Lemma bind_readOnly_Ok {A B} (m : IO A) (f : A → IO B) (fs : FS) (a : A) :
  readOnly m → result (m fs) = Ok a →
  bind m f fs = Out (result (f a fs)) (disk (f a fs)) (trace (m fs) ++ trace (f a fs)).
Proof.
  intros Hm Hr. rewrite (bind_Ok_eq _ _ _ _ Hr). by rewrite (proj1 (Hm fs)).
Qed.

Lemma bind_Exit_eq {A B} (m : IO A) (f : A → IO B) (fs : FS) (code : nat) :
  result (m fs) = Exit code →
  bind m f fs = Out (Exit code) (disk (m fs)) (trace (m fs)).
Proof. unfold bind. by intros ->. Qed.

Lemma bind_Throw_eq {A B} (m : IO A) (f : A → IO B) (fs : FS) (e : exn) :
  result (m fs) = Throw e →
  bind m f fs = Out (Throw e) (disk (m fs)) (trace (m fs)).
Proof. unfold bind. by intros ->. Qed.

Section SyncReadOnly.

Variable __dirname : path.
Variable JSON_parse : string → option Sync.RootPackageJson.

Lemma readOnly_detectPackageManager :
  readOnly (Sync.detectPackageManager __dirname JSON_parse).
Proof. unfold Sync.detectPackageManager, Sync.readPackageJson. read_only. Qed.

Lemma readOnly_parsePnpmWorkspace : readOnly (Sync.parsePnpmWorkspace __dirname).
Proof. unfold Sync.parsePnpmWorkspace. read_only. Qed.

Lemma readOnly_readPackageJsonWorkspaces :
  readOnly (Sync.readPackageJsonWorkspaces __dirname JSON_parse).
Proof. unfold Sync.readPackageJsonWorkspaces, Sync.readPackageJson. read_only. Qed.

Lemma readOnly_getWorkspaceDirs :
  readOnly (Sync.getWorkspaceDirs __dirname JSON_parse).
Proof.
  unfold Sync.getWorkspaceDirs.
  pose proof readOnly_detectPackageManager.
  pose proof readOnly_parsePnpmWorkspace.
  pose proof readOnly_readPackageJsonWorkspaces.
  read_only; done.
Qed.

Lemma readOnly_discoverModules (baseDir : string) :
  readOnly (Sync.discoverModules __dirname baseDir).
Proof. unfold Sync.discoverModules. read_only. Qed.

Lemma readOnly_scanBody (acc : jsobj (list string) * nat) (dir : string) :
  readOnly (Sync.scanBody __dirname acc dir).
Proof.
  unfold Sync.scanBody. pose proof readOnly_discoverModules. read_only; done.
Qed.

Lemma readOnly_scan : readOnly (Sync.scan __dirname JSON_parse).
Proof.
  unfold Sync.scan.
  pose proof readOnly_getWorkspaceDirs. pose proof readOnly_scanBody.
  read_only; done.
Qed.

End SyncReadOnly.

(** ** Directory listings *)

Lemma childName_Some (dir q : path) (n : string) :
  childName dir q = Some n ↔ q = dir ++ [n].
Proof.
  revert q. induction dir as [|a dir IH]; intros q; simpl.
  - destruct q as [|b [|c q]]; split; intros H; try done; by simplify_eq.
  - destruct q as [|b q]; [split; intros H; done|].
    destruct (String.eqb_spec a b) as [->|Hne].
    + rewrite IH. split; intros H; by simplify_eq.
    + split; intros H; [done|]. by simplify_eq.
Qed.

Lemma elem_of_dirents (fs : FS) (dir : path) (d : Dirent) :
  d ∈ dirents fs dir
  ↔ ∃ e, fs !! (dir ++ [name d]) = Some e ∧ isDirectory d = isDir e.
Proof.
  unfold dirents. rewrite list_elem_of_omap. split.
  - intros ([q e] & Hin & Hd). apply elem_of_map_to_list in Hin. simpl in Hd.
    destruct (childName dir q) as [n|] eqn:Hn; [|done]. simpl in Hd.
    apply childName_Some in Hn as ->. injection Hd as <-. by exists e.
  - intros (e & Hfs & Hdir). exists (dir ++ [name d], e). split.
    + by apply elem_of_map_to_list.
    + simpl. rewrite (proj2 (childName_Some dir _ (name d)) eq_refl). simpl.
      rewrite <- Hdir. by destruct d.
Qed.

Lemma NoDup_omap_inj {A B} (f : A → option B) (l : list A) :
  (∀ x y z, f x = Some z → f y = Some z → x = y) →
  NoDup l → NoDup (omap f l).
Proof.
  intros Hinj. induction 1 as [|x l Hx Hl IH]; simpl; [constructor|].
  destruct (f x) as [z|] eqn:Hfx; [|done]. constructor; [|done].
  intros Hz. apply list_elem_of_omap in Hz as (y & Hy & Hfy).
  by rewrite (Hinj x y z Hfx Hfy) in Hx.
Qed.

Lemma NoDup_dirent_names (fs : FS) (dir : path) : NoDup (name <$> dirents fs dir).
Proof.
  unfold dirents.
  assert (∀ l : list (path * entry),
            name <$> omap (λ qe, childName dir qe.1
                                   ≫= λ n, Some (mkDirent n (isDir qe.2))) l
            = omap (childName dir) l.*1) as ->.
  { induction l as [|[q e] l IH]; [done|]. simpl in *.
    destruct (childName dir q); simpl; [f_equal|]; exact IH. }
  apply NoDup_omap_inj; [|apply NoDup_fst_map_to_list].
  intros x y z Hx Hy. apply childName_Some in Hx, Hy. congruence.
Qed.

(** ** Module discovery (Module Discoverer) *)

Section Discovery.

Variable __dirname : path.

Local Abbreviation ROOT := (Sync.ROOT __dirname).
Local Abbreviation discoverModules := (Sync.discoverModules __dirname).
Local Abbreviation moduleOf := (Sync.moduleOf __dirname).

Lemma discover_loop (baseDir : string) (entries : list Dirent)
    (acc : list string) (fs : FS) :
  let fullBase := path_join ROOT [baseDir] in
  result
    (forOfAcc entries acc
       (λ modules entry,
          if negb (isDirectory entry) then ret modules
          else
            hasMod ← existsSync (path_child (path_child fullBase (name entry)) "go.mod");
            ret (if hasMod
                 then modules ++ ["./" +:+ baseDir +:+ "/" +:+ name entry]
                 else modules)) fs)
  = Ok (acc ++ omap (moduleOf fs baseDir) entries).
Proof.
  intros fullBase. revert acc.
  induction entries as [|entry entries IH]; intros acc.
  { simpl. by rewrite app_nil_r. }
  cbn [forOfAcc omap list_omap]. unfold Sync.moduleOf at 1. fold fullBase.
  destruct (isDirectory entry); cbn [negb andb].
  - rewrite bind_assoc, bind_existsSync. cbv zeta. rewrite bind_ret.
    cbn [result]. rewrite IH.
    destruct (bool_decide _); [|done]. by rewrite <- app_assoc.
  - rewrite bind_ret. by rewrite IH.
Qed.

Lemma discoverModules_result (baseDir : string) (fs : FS) :
  result (discoverModules baseDir fs)
  = match stat fs (path_join ROOT [baseDir]) with
    | None => Ok []
    | Some DirE =>
        Ok (sort (omap (moduleOf fs baseDir) (dirents fs (path_join ROOT [baseDir]))))
    | Some (FileE _) => Throw (ENOTDIR (path_join ROOT [baseDir]))
    end.
Proof.
  unfold Sync.discoverModules. rewrite bind_existsSync. cbv zeta.
  destruct (stat fs (path_join ROOT [baseDir])) as [[c|]|] eqn:Hst.
  - rewrite bool_decide_eq_true_2 by by eexists. cbn [negb result].
    unfold bind at 1, readdirSync. by rewrite Hst.
  - rewrite bool_decide_eq_true_2 by by eexists. cbn [negb result].
    rewrite (bind_readOnly_Ok _ _ fs (dirents fs (path_join ROOT [baseDir])));
      [|apply readOnly_readdirSync|unfold readdirSync; by rewrite Hst].
    cbn [result].
    pose proof (discover_loop baseDir (dirents fs (path_join ROOT [baseDir])) [] fs) as Hl.
    cbv zeta in Hl.
    by rewrite (bind_Ok_eq _ _ _ _ Hl).
  - rewrite bool_decide_eq_false_2; [done|]. by intros [? ?].
Qed.

(** The children of the scan root that are directories holding [go.mod]. *)
Lemma elem_of_modules (baseDir : string) (fs : FS) (x : string) :
  let fullBase := path_join ROOT [baseDir] in
  x ∈ omap (moduleOf fs baseDir) (dirents fs fullBase)
  ↔ ∃ child,
      fs !! path_child fullBase child = Some DirE
      ∧ is_Some (stat fs (path_child (path_child fullBase child) "go.mod"))
      ∧ x = "./" +:+ baseDir +:+ "/" +:+ child.
Proof.
  intros fullBase. rewrite list_elem_of_omap. split.
  - intros (d & Hd & Hm). apply elem_of_dirents in Hd as (e & Hfs & Hdir).
    unfold Sync.moduleOf in Hm. fold fullBase in Hm.
    destruct (isDirectory d) eqn:Hisdir; [|done]. cbn [andb] in Hm.
    case_bool_decide as Hmod; [|done]. injection Hm as <-.
    exists (name d). destruct e; [done|]. done.
  - intros (child & Hfs & Hmod & ->). exists (mkDirent child true). split.
    + apply elem_of_dirents. by exists DirE.
    + unfold Sync.moduleOf. fold fullBase. cbn [isDirectory name andb].
      by rewrite bool_decide_eq_true_2.
Qed.

End Discovery.

Lemma stat_child (fs : FS) (dir : path) (child : string) :
  stat fs (path_child dir child) = fs !! path_child dir child.
Proof. unfold path_child. by destruct dir. Qed.

Section DiscoverySpec.

Variable __dirname : path.

Local Abbreviation ROOT := (Sync.ROOT __dirname).
Local Abbreviation discoverModules := (Sync.discoverModules __dirname).
Local Abbreviation moduleOf := (Sync.moduleOf __dirname).

Lemma modules_of_children (baseDir : string) (fs : FS) (entries : list Dirent) :
  omap (moduleOf fs baseDir) entries
  = (λ child, ("./" +:+ baseDir +:+ "/") +:+ child)
      <$> omap (λ d, const (name d) <$> moduleOf fs baseDir d) entries.
Proof.
  induction entries as [|d entries IH]; [done|]. simpl.
  destruct (moduleOf fs baseDir d) as [x|] eqn:Hx; simpl; [|exact IH].
  f_equal; [|exact IH]. unfold Sync.moduleOf in Hx.
  destruct (_ && _); [|done]. injection Hx as <-. by rewrite !append_assoc.
Qed.

(** C7: discovery leaves the disk alone; a missing scan root gives the empty
    list and one warning; for a scan root that is a directory the result is
    the list of its immediate child directories that hold an entry named
    [go.mod], each exactly once, as [./<scanRoot>/<child>] in ascending
    order of the child names. *)
Theorem discoverModules_spec (baseDir : string) (fs : FS) :
  let fullBase := path_join ROOT [baseDir] in
  let o := discoverModules baseDir fs in
  disk o = fs ∧ mutations (trace o) = []
  ∧ (stat fs fullBase = None →
     result o = Ok []
     ∧ trace o = [Exists fullBase;
                  Console Warn ("⚠️  Directory not found: " +:+ baseDir +:+ "/")])
  ∧ (stat fs fullBase = Some DirE →
     ∃ children,
       result o = Ok ((λ child, "./" +:+ baseDir +:+ "/" +:+ child) <$> children)
       ∧ Sorted str_le children ∧ NoDup children
       ∧ ∀ child, child ∈ children
                  ↔ fs !! path_child fullBase child = Some DirE
                    ∧ is_Some (fs !! path_child (path_child fullBase child) "go.mod")).
Proof.
  intros fullBase o.
  destruct (readOnly_discoverModules __dirname baseDir fs) as [Hd Hm].
  split; [done|]. split; [done|]. split.
  - intros Hst. subst o. unfold Sync.discoverModules. rewrite bind_existsSync.
    fold fullBase. rewrite bool_decide_eq_false_2 by (rewrite Hst; by intros [? ?]).
    done.
  - intros Hst. subst o. rewrite discoverModules_result. fold fullBase. rewrite Hst.
    set (names := omap (λ d, const (name d) <$> moduleOf fs baseDir d)
                       (dirents fs fullBase)).
    set (f := λ child : string, ("./" +:+ baseDir +:+ "/") +:+ child).
    assert (∀ child, f child = "./" +:+ baseDir +:+ "/" +:+ child) as Hf.
    { intros child. unfold f. by rewrite !append_assoc. }
    exists (sort names). split; [|split; [apply sort_Sorted|split]].
    + f_equal. rewrite modules_of_children. fold names. fold f.
      rewrite (list_fmap_ext _ f (sort names) (λ _ c _, eq_sym (Hf c))).
      apply (Sorted_unique str_le); [apply sort_Sorted| |].
      * apply (Sorted_fmap f str_le str_le); [|apply sort_Sorted].
        intros a b Hab. unfold str_le, f in *. by rewrite leb_prefix.
      * by rewrite !sort_Permutation.
    + rewrite sort_Permutation. apply NoDup_omap_inj.
      * intros x y z Hx Hy. unfold Sync.moduleOf in Hx, Hy.
        destruct (isDirectory x) eqn:Hdx; [|done].
        destruct (isDirectory y) eqn:Hdy; [|done].
        cbn [andb] in *. destruct (bool_decide _); [|done].
        destruct (bool_decide _); [|done]. simpl in *.
        destruct x, y; simpl in *; congruence.
      * eapply NoDup_fmap_1, NoDup_dirent_names.
    + intros child. rewrite sort_Permutation.
      rewrite <- (stat_child fs (path_child fullBase child)).
      transitivity (f child ∈ f <$> names).
      { split; [apply list_elem_of_fmap_2|].
        intros (c & Hc & Hin)%list_elem_of_fmap.
        unfold f in Hc. by apply String.app_inj in Hc as ->. }
      unfold names, f. rewrite <- modules_of_children.
      pose proof (elem_of_modules __dirname baseDir fs
                    (("./" +:+ baseDir +:+ "/") +:+ child)) as Hem.
      cbv zeta in Hem. fold fullBase in Hem. rewrite Hem. clear Hem. split.
      * intros (c & Hdir & Hmod & Hc). rewrite !append_assoc in Hc.
        do 2 apply String.app_inj in Hc. by apply String.app_inj in Hc as ->.
      * intros [Hdir Hmod]. exists child. by rewrite !append_assoc.
Qed.

End DiscoverySpec.

Lemma discoverModules_spec_witness :
  let fullBase := path_join (Sync.ROOT Sample.scripts_dir) ["apps"] in
  let o := Sync.discoverModules Sample.scripts_dir "apps" Sample.workspace in
  let missing := Sync.discoverModules Sample.scripts_dir "services" Sample.workspace in
  stat Sample.workspace fullBase = Some DirE
  ∧ stat Sample.workspace (path_join (Sync.ROOT Sample.scripts_dir) ["services"]) = None
  ∧ result o = Ok ["./apps/auth"; "./apps/gateway"]
  ∧ (∃ children,
       result o = Ok ((λ child, "./" +:+ "apps" +:+ "/" +:+ child) <$> children)
       ∧ Sorted str_le children ∧ NoDup children
       ∧ ∀ child, child ∈ children
                  ↔ Sample.workspace !! path_child fullBase child = Some DirE
                    ∧ is_Some (Sample.workspace
                                 !! path_child (path_child fullBase child) "go.mod"))
  ∧ result missing = Ok []
  ∧ trace missing
    = [Exists ["repo"; "services"];
       Console Warn ("⚠️  Directory not found: " +:+ "services" +:+ "/")].
Proof.
  pose proof (discoverModules_spec Sample.scripts_dir "apps" Sample.workspace)
    as (_ & _ & _ & Hdir).
  pose proof (discoverModules_spec Sample.scripts_dir "services" Sample.workspace)
    as (_ & _ & Hmissing & _).
  split; [by vm_compute|]. split; [by vm_compute|]. split; [by vm_compute|].
  split; [apply Hdir; by vm_compute|]. apply Hmissing. by vm_compute.
Defined.

(** ** Sync: scan, then commit *)

Section SyncRun.

Variable __dirname : path.
Variable JSON_parse : string → option Sync.RootPackageJson.

Local Abbreviation ROOT := (Sync.ROOT __dirname).
Local Abbreviation GO_WORK_PATH := (Sync.GO_WORK_PATH __dirname).
Local Abbreviation detectPackageManager := (Sync.detectPackageManager __dirname JSON_parse).
Local Abbreviation parsePnpmWorkspace := (Sync.parsePnpmWorkspace __dirname).
Local Abbreviation readPackageJsonWorkspaces :=
  (Sync.readPackageJsonWorkspaces __dirname JSON_parse).
Local Abbreviation getWorkspaceDirs := (Sync.getWorkspaceDirs __dirname JSON_parse).
Local Abbreviation discoverModules := (Sync.discoverModules __dirname).
Local Abbreviation scanBody := (Sync.scanBody __dirname).
Local Abbreviation scan := (Sync.scan __dirname JSON_parse).
Local Abbreviation commit := (Sync.commit __dirname).
Local Abbreviation main := (Sync.main __dirname JSON_parse).

Lemma main_scan_commit (fs : FS) : main fs = bind scan commit fs.
Proof.
  unfold Sync.main, Sync.scan, console_log.
  rewrite bind_assoc, !bind_console. by rewrite bind_assoc.
Qed.

(** A run whose scan does not succeed stops there, the disk untouched. *)
Lemma main_scan_failed (fs : FS) :
  (∀ x, result (scan fs) ≠ Ok x) →
  result (main fs) = result (bind scan (λ _, ret tt) fs)
  ∧ disk (main fs) = fs ∧ mutations (trace (main fs)) = [].
Proof.
  intros Hfail. rewrite main_scan_commit.
  destruct (readOnly_scan __dirname JSON_parse fs) as [Hd Hm].
  unfold bind. destruct (scan fs) as [[x|c|e] d t]; simpl in *; [|done..].
  by destruct (Hfail x).
Qed.

Lemma getWorkspaceDirs_no_globs (fs : FS) (pm : string) :
  result (detectPackageManager fs) = Ok pm →
  result ((if String.eqb pm "pnpm" then parsePnpmWorkspace
           else readPackageJsonWorkspaces) fs) = Ok [] →
  result (getWorkspaceDirs fs) = Exit 1.
Proof.
  intros Hpm Hglobs. unfold Sync.getWorkspaceDirs.
  rewrite (bind_readOnly_Ok _ _ fs pm (readOnly_detectPackageManager _ _) Hpm).
  cbn [result]. unfold console_log. rewrite bind_console. cbn [result].
  destruct (String.eqb pm "pnpm").
  - rewrite bind_assoc, bind_console. cbn [result].
    by rewrite (bind_readOnly_Ok _ _ fs [] (readOnly_parsePnpmWorkspace _) Hglobs).
  - rewrite bind_assoc, bind_console. cbn [result].
    by rewrite (bind_readOnly_Ok _ _ fs [] (readOnly_readPackageJsonWorkspaces _ _) Hglobs).
Qed.

Lemma scan_loop_no_modules (fs : FS) (dirs : list string)
    (modulesByDir : jsobj (list string)) (totalModules : nat) :
  (∀ dir, dir ∈ dirs → result (discoverModules dir fs) = Ok []) →
  ∃ modulesByDir',
    result (forOfAcc dirs (modulesByDir, totalModules) scanBody fs)
    = Ok (modulesByDir', totalModules).
Proof.
  revert modulesByDir. induction dirs as [|dir dirs IH]; intros modulesByDir Hnone.
  { by eexists. }
  cbn [forOfAcc].
  assert (result (scanBody (modulesByDir, totalModules) dir fs)
          = Ok (obj_set dir [] modulesByDir, totalModules)) as Hbody.
  { unfold Sync.scanBody.
    rewrite (bind_readOnly_Ok _ _ fs [] (readOnly_discoverModules _ _)
               (Hnone dir ltac:(left))).
    cbn [result length Nat.ltb Nat.leb]. rewrite bind_ret. cbn [result ret].
    by rewrite Nat.add_0_r. }
  rewrite (bind_readOnly_Ok _ _ fs _ (readOnly_scanBody _ _ _) Hbody). cbn [result].
  apply IH. intros d Hd. apply Hnone. by right.
Qed.

(** C6: when the workspace declaration yields no glob, or when no scan root
    holds a module, the run stops with exit code 1, the disk is as before and
    the run attempted no write. *)
Theorem sync_fail_fast (fs : FS) :
  (∀ pm,
     result (detectPackageManager fs) = Ok pm →
     result ((if String.eqb pm "pnpm" then parsePnpmWorkspace
              else readPackageJsonWorkspaces) fs) = Ok [] →
     result (main fs) = Exit 1 ∧ disk (main fs) = fs ∧ mutations (trace (main fs)) = [])
  ∧ (∀ dirs,
       result (getWorkspaceDirs fs) = Ok dirs →
       (∀ dir, dir ∈ dirs → result (discoverModules dir fs) = Ok []) →
       result (main fs) = Exit 1 ∧ disk (main fs) = fs ∧ mutations (trace (main fs)) = []).
Proof.
  split.
  - intros pm Hpm Hglobs.
    pose proof (getWorkspaceDirs_no_globs fs pm Hpm Hglobs) as Hexit.
    assert (result (scan fs) = Exit 1) as Hscan.
    { unfold Sync.scan, console_log. rewrite bind_console. cbn [result].
      by rewrite (bind_Exit_eq _ _ _ _ Hexit). }
    destruct (main_scan_failed fs) as (Hr & Hd & Hm); [by rewrite Hscan|].
    split; [|done]. rewrite Hr. by rewrite (bind_Exit_eq _ _ _ _ Hscan).
  - intros dirs Hdirs Hnone.
    destruct (scan_loop_no_modules fs dirs [] 0 Hnone) as [m Hloop].
    assert (result (scan fs) = Ok (m, 0%nat)) as Hscan.
    { unfold Sync.scan, console_log. rewrite bind_console. cbn [result].
      rewrite (bind_readOnly_Ok _ _ fs dirs (readOnly_getWorkspaceDirs _ _) Hdirs).
      done. }
    destruct (readOnly_scan __dirname JSON_parse fs) as [Hd Hm].
    rewrite main_scan_commit.
    rewrite (bind_readOnly_Ok _ _ fs _ (readOnly_scan _ _) Hscan).
    cbn [result disk trace Sync.commit Nat.eqb]. unfold console_error.
    rewrite bind_console. cbn [result disk trace].
    split; [done|]. split; [done|]. by rewrite mutations_app, Hm.
Qed.

End SyncRun.

Lemma sync_fail_fast_witness :
  let main := Sync.main Sample.scripts_dir Sample.JSON_parse in
  result (Sync.detectPackageManager Sample.scripts_dir Sample.JSON_parse Sample.bare)
  = Ok "unknown"
  ∧ result (Sync.readPackageJsonWorkspaces Sample.scripts_dir Sample.JSON_parse Sample.bare)
    = Ok []
  ∧ (result (main Sample.bare) = Exit 1 ∧ disk (main Sample.bare) = Sample.bare
     ∧ mutations (trace (main Sample.bare)) = [])
  ∧ result (Sync.getWorkspaceDirs Sample.scripts_dir Sample.JSON_parse Sample.unpopulated)
    = Ok ["apps"; "packages"]
  ∧ (∀ dir, dir ∈ ["apps"; "packages"] →
       result (Sync.discoverModules Sample.scripts_dir dir Sample.unpopulated) = Ok [])
  ∧ (result (main Sample.unpopulated) = Exit 1
     ∧ disk (main Sample.unpopulated) = Sample.unpopulated
     ∧ mutations (trace (main Sample.unpopulated)) = []).
Proof.
  assert (∀ dir, dir ∈ ["apps"; "packages"] →
            result (Sync.discoverModules Sample.scripts_dir dir Sample.unpopulated) = Ok [])
    as Hnone.
  { intros dir Hdir. apply elem_of_cons in Hdir as [->|Hdir]; [by vm_compute|].
    apply elem_of_cons in Hdir as [->|Hdir]; [by vm_compute|].
    by apply elem_of_nil in Hdir. }
  split; [by vm_compute|]. split; [by vm_compute|]. split.
  { apply (proj1 (sync_fail_fast Sample.scripts_dir Sample.JSON_parse Sample.bare)
             "unknown"); by vm_compute. }
  split; [by vm_compute|]. split; [exact Hnone|].
  apply (proj2 (sync_fail_fast Sample.scripts_dir Sample.JSON_parse Sample.unpopulated)
           ["apps"; "packages"]); [by vm_compute | exact Hnone].
Defined.

(** ** Outcomes that do not depend on the manifest file *)

Lemma agree_ret {A : Type} (fs fs' : FS) (a : A) : agree fs fs' (ret a).
Proof. done. Qed.

Lemma agree_process_exit {A : Type} (fs fs' : FS) (code : nat) :
  agree fs fs' (@process_exit A code).
Proof. done. Qed.

Lemma agree_throw {A : Type} (fs fs' : FS) (e : exn) : agree fs fs' (@throw A e).
Proof. done. Qed.

Lemma agree_console (fs fs' : FS) (s : stream) (msg : string) :
  agree fs fs' (console s msg).
Proof. done. Qed.

Lemma agree_bind {A B : Type} (fs fs' : FS) (m : IO A) (f : A → IO B) :
  readOnly m → agree fs fs' m →
  (∀ a, result (m fs) = Ok a → agree fs fs' (f a)) →
  agree fs fs' (bind m f).
Proof.
  unfold agree, bind. intros Hro Hm Hf.
  rewrite (proj1 (Hro fs)), (proj1 (Hro fs')), Hm.
  destruct (result (m fs)) as [a|c|e] eqn:Hr; simpl; [|done..]. by apply Hf.
Qed.

Lemma agree_forOf {A : Type} (fs fs' : FS) (xs : list A) (body : A → IO unit) :
  (∀ x, readOnly (body x)) → (∀ x, agree fs fs' (body x)) →
  agree fs fs' (forOf xs body).
Proof.
  intros Hro Hb. induction xs as [|x xs IH]; [done|].
  simpl. apply agree_bind; auto.
Qed.

Lemma agree_forOfAcc {A S : Type} (fs fs' : FS) (xs : list A) (acc : S) (body : S → A → IO S) :
  (∀ acc x, readOnly (body acc x)) →
  (∀ acc x, x ∈ xs → agree fs fs' (body acc x)) →
  agree fs fs' (forOfAcc xs acc body).
Proof.
  intros Hro Hb. revert acc. induction xs as [|x xs IH]; intros acc; [done|].
  simpl. apply agree_bind; [done|apply Hb; by left|].
  intros acc' _. apply IH. intros a y Hy. apply Hb. by right.
Qed.

Lemma stat_insert_ne (fs : FS) (p q : path) (e : entry) :
  p ≠ q → stat (<[p := e]> fs) q = stat fs q.
Proof. intros Hne. destruct q; [done|]. simpl. by rewrite lookup_insert_ne. Qed.

Lemma agree_existsSync (fs : FS) (p q : path) (e : entry) :
  p ≠ q → agree fs (<[p := e]> fs) (existsSync q).
Proof. intros Hne. unfold agree, existsSync. simpl. by rewrite stat_insert_ne. Qed.

Lemma agree_readFileSync (fs : FS) (p q : path) (e : entry) :
  p ≠ q → agree fs (<[p := e]> fs) (readFileSync q).
Proof.
  intros Hne. unfold agree, readFileSync. rewrite stat_insert_ne by done.
  by destruct (stat fs q) as [[]|].
Qed.

(** A path under the root with a literal last segment. *)
Lemma path_join_literal_ne (root : path) (a b : string) :
  a ≠ b → path_join root [a] = root ++ [a] → path_join root [b] = root ++ [b] →
  path_join root [a] ≠ path_join root [b].
Proof. intros Hne -> -> Heq. apply app_inv_head in Heq. congruence. Qed.

Ltac path_ne :=
  first [ apply path_join_literal_ne; [done | reflexivity | reflexivity]
        | done ].

(** Discharges the steps of a script that do not look at the manifest. *)
Ltac agree_steps :=
  repeat first
    [ apply agree_ret | apply agree_console | apply agree_throw
    | apply agree_process_exit
    | apply agree_existsSync; path_ne
    | apply agree_readFileSync; path_ne
    | apply agree_bind; [solve [read_only] | | intros ? ?]
    | progress unfold console_log, console_warn, console_error
    | match goal with
      | |- agree _ _ (if ?b then _ else _) => destruct b
      | |- agree _ _ (match ?x with _ => _ end) => destruct x
      end ].

Lemma omap_dirents_insert_new {B} (f : Dirent → option B) (fs : FS)
    (p dir : path) (c : string) :
  (∀ d, isDirectory d = false → f d = None) →
  fs !! p = None →
  omap f (dirents (<[p := FileE c]> fs) dir) ≡ₚ omap f (dirents fs dir).
Proof.
  intros Hf Hnone. unfold dirents.
  rewrite (map_to_list_insert fs p (FileE c) Hnone). simpl.
  destruct (childName dir p) as [n|]; simpl; [|done].
  by rewrite (Hf (mkDirent n false) eq_refl).
Qed.

Lemma omap_dirents_insert_file {B} (f : Dirent → option B) (fs : FS)
    (p dir : path) (c : string) :
  (∀ d, isDirectory d = false → f d = None) →
  fs !! p ≠ Some DirE →
  omap f (dirents (<[p := FileE c]> fs) dir) ≡ₚ omap f (dirents fs dir).
Proof.
  intros Hf Hnd. destruct (fs !! p) as [[c0|]|] eqn:Hp; [|done|].
  - rewrite <- (insert_delete_eq fs p (FileE c)).
    rewrite <- (insert_delete_id fs p (FileE c0) Hp) at 2.
    rewrite !omap_dirents_insert_new; try done; apply lookup_delete_eq.
  - by apply omap_dirents_insert_new.
Qed.

Section SyncStable.

Variable __dirname : path.
Variable JSON_parse : string → option Sync.RootPackageJson.

Local Abbreviation ROOT := (Sync.ROOT __dirname).
Local Abbreviation GO_WORK_PATH := (Sync.GO_WORK_PATH __dirname).
Local Abbreviation getWorkspaceDirs := (Sync.getWorkspaceDirs __dirname JSON_parse).
Local Abbreviation discoverModules := (Sync.discoverModules __dirname).
Local Abbreviation moduleOf := (Sync.moduleOf __dirname).
Local Abbreviation scanBody := (Sync.scanBody __dirname).
Local Abbreviation scan := (Sync.scan __dirname JSON_parse).
Local Abbreviation commit := (Sync.commit __dirname).
Local Abbreviation main := (Sync.main __dirname JSON_parse).

Lemma GO_WORK_PATH_eq : GO_WORK_PATH = ROOT ++ ["go.work"].
Proof. reflexivity. Qed.

Lemma stat_GO_WORK_PATH (fs : FS) : stat fs GO_WORK_PATH = fs !! GO_WORK_PATH.
Proof. rewrite GO_WORK_PATH_eq. by destruct ROOT. Qed.

(** Writing the manifest: the disk [fs] with [go.work] holding [content]. *)
Local Abbreviation written fs content := (<[GO_WORK_PATH := FileE content]> fs).

Lemma agree_getWorkspaceDirs (fs : FS) (content : string) :
  agree fs (written fs content) getWorkspaceDirs.
Proof.
  unfold Sync.getWorkspaceDirs, Sync.detectPackageManager, Sync.parsePnpmWorkspace,
    Sync.readPackageJsonWorkspaces, Sync.readPackageJson.
  fold ROOT. agree_steps.
Qed.

Lemma moduleOf_written (fs : FS) (content baseDir : string) (entry : Dirent) :
  moduleOf (written fs content) baseDir entry = moduleOf fs baseDir entry.
Proof.
  unfold Sync.moduleOf. rewrite stat_insert_ne; [done|].
  rewrite GO_WORK_PATH_eq. unfold path_child. intros Heq.
  apply (f_equal last) in Heq. rewrite !last_snoc in Heq. done.
Qed.

Lemma agree_discoverModules (fs : FS) (content baseDir : string) :
  path_join ROOT [baseDir] ≠ GO_WORK_PATH →
  fs !! GO_WORK_PATH ≠ Some DirE →
  agree fs (written fs content) (discoverModules baseDir).
Proof.
  intros Hne Hnd. unfold agree. rewrite !discoverModules_result.
  rewrite stat_insert_ne by done.
  destruct (stat fs (path_join ROOT [baseDir])) as [[c|]|]; [done| |done].
  f_equal. apply sort_perm.
  rewrite (list_omap_ext _ (moduleOf fs baseDir) _
             (dirents (written fs content) (path_join ROOT [baseDir])));
    [|apply Forall2_same_length_lookup_2; [done|]; intros i x y Hx Hy;
      rewrite moduleOf_written; congruence].
  apply omap_dirents_insert_file; [|done].
  intros d Hd. unfold Sync.moduleOf. by rewrite Hd.
Qed.

Lemma agree_scanBody (fs : FS) (content : string)
    (acc : jsobj (list string) * nat) (dir : string) :
  path_join ROOT [dir] ≠ GO_WORK_PATH →
  fs !! GO_WORK_PATH ≠ Some DirE →
  agree fs (written fs content) (scanBody acc dir).
Proof.
  intros Hne Hnd. destruct acc as [modulesByDir totalModules].
  unfold Sync.scanBody.
  apply agree_bind; [apply readOnly_discoverModules|by apply agree_discoverModules|].
  intros modules _. apply agree_bind; [read_only| |intros; apply agree_ret].
  destruct (0 <? length modules)%nat; [|apply agree_ret].
  apply agree_bind; [read_only|apply agree_console|].
  intros _ _. apply agree_forOf; [intros; read_only|intros; apply agree_console].
Qed.

Lemma agree_scan (fs : FS) (content : string) (dirs : list string) :
  result (getWorkspaceDirs fs) = Ok dirs →
  Forall (λ dir, path_join ROOT [dir] ≠ GO_WORK_PATH) dirs →
  fs !! GO_WORK_PATH ≠ Some DirE →
  agree fs (written fs content) scan.
Proof.
  intros Hdirs Hne Hnd. unfold Sync.scan, console_log.
  apply agree_bind; [read_only|apply agree_console|]. intros _ _.
  apply agree_bind;
    [apply readOnly_getWorkspaceDirs|apply agree_getWorkspaceDirs|].
  intros dirs' Hdirs'. assert (dirs' = dirs) as -> by congruence.
  apply agree_forOfAcc; [apply readOnly_scanBody|].
  intros acc dir Hdir. apply agree_scanBody; [|done].
  by apply (proj1 (Forall_forall _ _) Hne).
Qed.

End SyncStable.

Lemma writes_app (tr1 tr2 : list event) : writes (tr1 ++ tr2) = writes tr1 ++ writes tr2.
Proof. apply filter_app. Qed.

Lemma writes_of_read_only (tr : list event) : mutations tr = [] → writes tr = [].
Proof.
  induction tr as [|ev tr IH]; [done|]. unfold mutations, writes in *.
  rewrite !filter_cons. destruct ev; simpl; try done; by intros ?%IH.
Qed.

Lemma bind_readFileSync_file {B} (p : path) (c : string) (f : string → IO B) (fs : FS) :
  stat fs p = Some (FileE c) →
  bind (readFileSync p) f fs
  = let o := f c fs in Out (result o) (disk o) (ReadFile p :: trace o).
Proof. intros Hst. unfold bind, readFileSync. by rewrite Hst. Qed.

Lemma bind_readFileSync_dir {B} (p : path) (f : string → IO B) (fs : FS) :
  stat fs p = Some DirE →
  bind (readFileSync p) f fs = Out (Throw (EISDIR p)) fs [ReadFile p].
Proof. intros Hst. unfold bind, readFileSync. by rewrite Hst. Qed.

(** A write goes through, or throws and leaves the disk alone. *)
Lemma writeFileSync_cases (p : path) (data : string) (fs : FS) :
  (stat fs p ≠ Some DirE
   ∧ writeFileSync p data fs = Out (Ok tt) (<[p := FileE data]> fs) [WriteFile p data])
  ∨ ∃ e, writeFileSync p data fs = Out (Throw e) fs [WriteFile p data].
Proof.
  unfold writeFileSync.
  destruct (stat fs p) as [[c|]|]; [|right; by eexists|];
    (destruct (stat fs (parent p)) as [[c'|]|];
     [right; by eexists|left; by split|right; by eexists]).
Qed.

Lemma bind_writeFileSync_ok {B} (p : path) (data : string) (f : unit → IO B) (fs : FS) :
  writeFileSync p data fs = Out (Ok tt) (<[p := FileE data]> fs) [WriteFile p data] →
  bind (writeFileSync p data) f fs
  = let o := f tt (<[p := FileE data]> fs) in
    Out (result o) (disk o) (WriteFile p data :: trace o).
Proof. intros Hw. unfold bind. by rewrite Hw. Qed.

(** ** Idempotent sync *)

Section SyncTwice.

Variable __dirname : path.
Variable JSON_parse : string → option Sync.RootPackageJson.

Local Abbreviation ROOT := (Sync.ROOT __dirname).
Local Abbreviation GO_WORK_PATH := (Sync.GO_WORK_PATH __dirname).
Local Abbreviation getWorkspaceDirs := (Sync.getWorkspaceDirs __dirname JSON_parse).
Local Abbreviation scan := (Sync.scan __dirname JSON_parse).
Local Abbreviation commit := (Sync.commit __dirname).
Local Abbreviation main := (Sync.main __dirname JSON_parse).

Lemma commit_up_to_date (fs : FS) (modulesByDir : jsobj (list string)) (totalModules : nat) :
  totalModules ≠ 0%nat →
  fs !! GO_WORK_PATH = Some (FileE (Sync.generateGoWork modulesByDir)) →
  commit (modulesByDir, totalModules) fs
  = Out (Ok tt) fs [Exists GO_WORK_PATH; ReadFile GO_WORK_PATH; upToDateLine].
Proof.
  intros Hne Hfs. unfold Sync.commit. destruct totalModules; [done|]. cbn [Nat.eqb].
  rewrite bind_existsSync. rewrite stat_GO_WORK_PATH, Hfs.
  rewrite bool_decide_eq_true_2 by by eexists. cbv zeta.
  rewrite bind_assoc, (bind_readFileSync_file _ _ _ _ (eq_trans (stat_GO_WORK_PATH __dirname fs) Hfs)).
  cbv zeta. rewrite bind_ret, String.eqb_refl. done.
Qed.

Lemma commit_Ok (fs : FS) (modulesByDir : jsobj (list string)) (totalModules : nat) :
  let o := commit (modulesByDir, totalModules) fs in
  let content := Sync.generateGoWork modulesByDir in
  result o = Ok tt →
  totalModules ≠ 0%nat
  ∧ fs !! GO_WORK_PATH ≠ Some DirE
  ∧ disk o = <[GO_WORK_PATH := FileE content]> fs
  ∧ (fs !! GO_WORK_PATH = Some (FileE content) → writes (trace o) = [] ∧ disk o = fs)
  ∧ (writes (trace o) = [] ∨ writes (trace o) = [WriteFile GO_WORK_PATH content]).
Proof.
  intros o content. subst o. unfold Sync.commit. fold content.
  destruct totalModules; [done|]. cbn [Nat.eqb].
  rewrite bind_existsSync. cbv zeta.
  pose proof (stat_GO_WORK_PATH __dirname fs) as Hst.
  destruct (fs !! GO_WORK_PATH) as [[c0|]|] eqn:Hfs.
  - rewrite bool_decide_eq_true_2 by (rewrite Hst; by eexists).
    rewrite bind_assoc, (bind_readFileSync_file _ _ _ _ Hst). cbv zeta.
    rewrite bind_ret. destruct (String.eqb_spec c0 content) as [->|Hc].
    + intros _. split; [done|]. split; [done|]. split; [by rewrite insert_id|].
      by split; [|left].
    + destruct (writeFileSync_cases GO_WORK_PATH content fs) as [(Hp & Hw)|(e & Hw)].
      * rewrite (bind_writeFileSync_ok _ _ _ _ Hw). intros _.
        split; [done|]. split; [done|]. split; [done|].
        split; [intros [= ?]; done|]. by right.
      * rewrite (bind_Throw_eq _ _ _ e) by (by rewrite Hw). done.
  - rewrite bool_decide_eq_true_2 by (rewrite Hst; by eexists).
    rewrite bind_assoc, (bind_readFileSync_dir _ _ _ Hst). done.
  - rewrite bool_decide_eq_false_2 by (rewrite Hst; by intros [? ?]).
    rewrite bind_ret.
    destruct (writeFileSync_cases GO_WORK_PATH content fs) as [(Hp & Hw)|(e & Hw)].
    + rewrite (bind_writeFileSync_ok _ _ _ _ Hw). intros _.
      split; [done|]. split; [done|]. split; [done|]. split; [done|]. by right.
    + rewrite (bind_Throw_eq _ _ _ e) by (by rewrite Hw). done.
Qed.

Lemma commit_failed (fs : FS) (scanned : jsobj (list string) * nat) :
  result (commit scanned fs) ≠ Ok tt → disk (commit scanned fs) = fs.
Proof.
  destruct scanned as [modulesByDir totalModules]. unfold Sync.commit.
  destruct totalModules; [done|]. cbn [Nat.eqb].
  rewrite bind_existsSync. cbv zeta.
  set (content := Sync.generateGoWork modulesByDir).
  pose proof (stat_GO_WORK_PATH __dirname fs) as Hst.
  destruct (fs !! GO_WORK_PATH) as [[c0|]|] eqn:Hfs.
  - rewrite bool_decide_eq_true_2 by (rewrite Hst; by eexists).
    rewrite bind_assoc, (bind_readFileSync_file _ _ _ _ Hst). cbv zeta.
    rewrite bind_ret. destruct (String.eqb_spec c0 content) as [->|Hc]; [done|].
    destruct (writeFileSync_cases GO_WORK_PATH content fs) as [(Hp & Hw)|(e & Hw)].
    + rewrite (bind_writeFileSync_ok _ _ _ _ Hw). done.
    + rewrite (bind_Throw_eq _ _ _ e) by (by rewrite Hw). by rewrite Hw.
  - rewrite bool_decide_eq_true_2 by (rewrite Hst; by eexists).
    rewrite bind_assoc, (bind_readFileSync_dir _ _ _ Hst). done.
  - rewrite bool_decide_eq_false_2 by (rewrite Hst; by intros [? ?]).
    rewrite bind_ret.
    destruct (writeFileSync_cases GO_WORK_PATH content fs) as [(Hp & Hw)|(e & Hw)].
    + rewrite (bind_writeFileSync_ok _ _ _ _ Hw). done.
    + rewrite (bind_Throw_eq _ _ _ e) by (by rewrite Hw). by rewrite Hw.
Qed.

(** A run that does not complete leaves the disk as it was. *)
Lemma main_failed (fs : FS) : result (main fs) ≠ Ok tt → disk (main fs) = fs.
Proof.
  intros Hfail. rewrite main_scan_commit in *.
  destruct (result (scan fs)) as [x|c|e] eqn:Hscan.
  - rewrite (bind_readOnly_Ok _ _ fs _ (readOnly_scan _ _) Hscan) in *.
    cbn [result disk] in *. by apply commit_failed.
  - rewrite (bind_Exit_eq _ _ _ _ Hscan). apply readOnly_scan.
  - rewrite (bind_Throw_eq _ _ _ _ Hscan). apply readOnly_scan.
Qed.

(** C1 (amended): when the manifest on disk already is the generated text,
    the run writes nothing.  A first run that does not complete leaves the
    disk as it was, so that the second run repeats it; and when a first run
    completes and no scan root is the path of the manifest itself, it wrote
    the manifest at most once, and the second run on the disk it leaves
    completes, writes nothing, leaves the disk as it is and ends on the
    up-to-date line. *)
Theorem sync_idempotent (fs : FS) :
  let first := main fs in
  let second := main (disk first) in
  (result first ≠ Ok tt → disk first = fs ∧ second = first)
  ∧ (result first = Ok tt →
     ∀ dirs,
       result (getWorkspaceDirs fs) = Ok dirs →
       Forall (λ dir, path_join ROOT [dir] ≠ GO_WORK_PATH) dirs →
       (∃ modulesByDir totalModules,
          result (scan fs) = Ok (modulesByDir, totalModules)
          ∧ let content := Sync.generateGoWork modulesByDir in
            disk first !! GO_WORK_PATH = Some (FileE content)
            ∧ (fs !! GO_WORK_PATH = Some (FileE content) →
               writes (trace first) = [] ∧ disk first = fs)
            ∧ (writes (trace first) = []
               ∨ writes (trace first) = [WriteFile GO_WORK_PATH content]))
       ∧ result second = Ok tt
       ∧ disk second = disk first
       ∧ writes (trace second) = []
       ∧ last (trace second) = Some upToDateLine).
Proof.
  cbv zeta. split.
  { intros Hfail. pose proof (main_failed fs Hfail) as Hd. split; [done|].
    by rewrite Hd. }
  intros Hfirst dirs Hdirs Hne.
  destruct (readOnly_scan __dirname JSON_parse fs) as [Hd Hm].
  rewrite (main_scan_commit __dirname JSON_parse fs) in *.
  destruct (result (scan fs)) as [[m t]|c|e] eqn:Hscan;
    [|by rewrite (bind_Exit_eq _ _ _ _ Hscan) in Hfirst
     |by rewrite (bind_Throw_eq _ _ _ _ Hscan) in Hfirst].
  rewrite (bind_readOnly_Ok _ _ fs _ (readOnly_scan _ _) Hscan) in *.
  cbn [result disk trace] in *.
  destruct (commit_Ok fs m t Hfirst) as (Ht & Hnd & Hdisk & Hsame & Hwrites).
  rewrite !writes_app, (writes_of_read_only _ Hm), !app_nil_l.
  split.
  { exists m, t. split; [done|]. cbv zeta. split; [|done].
    rewrite Hdisk. apply lookup_insert_eq. }
  rewrite Hdisk. rewrite main_scan_commit.
  pose proof (agree_scan __dirname JSON_parse fs (Sync.generateGoWork m) dirs
                Hdirs Hne Hnd) as Hagree.
  unfold agree in Hagree. rewrite Hscan in Hagree.
  rewrite (bind_readOnly_Ok _ _ _ _ (readOnly_scan _ _) Hagree).
  rewrite commit_up_to_date by (done || apply lookup_insert_eq).
  cbn [result disk trace].
  split; [done|]. split; [done|]. split.
  - rewrite writes_app, (writes_of_read_only _ (proj2 (readOnly_scan _ _ _))). done.
  - by rewrite last_app.
Qed.

End SyncTwice.

Lemma sync_idempotent_witness :
  let main := Sync.main Sample.scripts_dir Sample.JSON_parse in
  let first := main Sample.workspace in
  let second := main (disk first) in
  let failed := main Sample.bare in
  result first = Ok tt
  ∧ result (Sync.getWorkspaceDirs Sample.scripts_dir Sample.JSON_parse Sample.workspace)
    = Ok ["apps"; "packages"]
  ∧ Forall (λ dir, path_join (Sync.ROOT Sample.scripts_dir) [dir]
                   ≠ Sync.GO_WORK_PATH Sample.scripts_dir) ["apps"; "packages"]
  ∧ (∃ content, writes (trace first) = [WriteFile ["repo"; "go.work"] content])
  ∧ result second = Ok tt
  ∧ disk second = disk first
  ∧ writes (trace second) = []
  ∧ last (trace second) = Some upToDateLine
  ∧ result failed ≠ Ok tt
  ∧ disk failed = Sample.bare
  ∧ main (disk failed) = failed.
Proof.
  assert (result (Sync.main Sample.scripts_dir Sample.JSON_parse Sample.workspace) = Ok tt)
    as Hfirst by (by vm_compute).
  assert (result (Sync.getWorkspaceDirs Sample.scripts_dir Sample.JSON_parse
                    Sample.workspace) = Ok ["apps"; "packages"])
    as Hdirs by (by vm_compute).
  assert (Forall (λ dir, path_join (Sync.ROOT Sample.scripts_dir) [dir]
                         ≠ Sync.GO_WORK_PATH Sample.scripts_dir) ["apps"; "packages"])
    as Hne by (repeat constructor; by vm_compute).
  assert (result (Sync.main Sample.scripts_dir Sample.JSON_parse Sample.bare) ≠ Ok tt)
    as Hfailed by (by vm_compute).
  split; [exact Hfirst|]. split; [exact Hdirs|]. split; [exact Hne|].
  split; [eexists; by vm_compute|].
  destruct (proj2 (sync_idempotent Sample.scripts_dir Sample.JSON_parse Sample.workspace)
              Hfirst ["apps"; "packages"] Hdirs Hne) as (_ & H2 & H3 & H4 & H5).
  do 4 (split; [assumption|]). split; [exact Hfailed|].
  exact (proj1 (sync_idempotent Sample.scripts_dir Sample.JSON_parse Sample.bare) Hfailed).
Defined.

(** C1, as the claim states it, fails: on a checkout without workspace
    declaration both runs stop with exit code 1, and the second one ends on
    the error line, not on the up-to-date line. *)
Lemma sync_twice_not_up_to_date :
  let main := Sync.main Sample.scripts_dir Sample.JSON_parse in
  let first := main Sample.bare in
  let second := main (disk first) in
  result second = Exit 1
  ∧ last (trace second)
    = Some (Console Err "❌ No workspace globs found. Check your workspace config.")
  ∧ upToDateLine ∉ trace second.
Proof.
  split; [by vm_compute|]. split; [by vm_compute|]. compute_done.
Qed.

(** A scan root must not be the path of the manifest either: when one is,
    the first run writes the manifest and the second one fails to list it as
    a directory. *)
Lemma sync_twice_scan_root_is_manifest :
  let main := Sync.main Sample.scripts_dir Sample.JSON_parse in
  let first := main Sample.aliased in
  let second := main (disk first) in
  result first = Ok tt
  ∧ result second = Throw (ENOTDIR ["repo"; "go.work"])
  ∧ writes (trace second) = [].
Proof. split; [by vm_compute|]. split; by vm_compute. Qed.

(** * Further properties *)

(** ** Dependency names *)

Lemma allChars_trim (ok : ascii → bool) (s : string) :
  allChars ok s = true → allChars ok (trim s) = true.
Proof.
  destruct (trim_Trimmed s) as (l & r & Hs & _). rewrite Hs at 1.
  rewrite !allChars_app. by intros [_ [? _]%andb_true_iff]%andb_true_iff.
Qed.

(** X1: every dependency name [parseDeps] returns is non-empty, neither
    starts nor ends with a white-space character and holds no comma. *)
Theorem parseDeps_names_clean (args : list string) :
  Forall (λ dep, dep ≠ ""
                 ∧ (∀ w rest, w ∈ whiteSpace → dep ≠ w +:+ rest)
                 ∧ (∀ w rest, w ∈ whiteSpace → dep ≠ rest +:+ w)
                 ∧ allChars (λ c, negb (Ascii.eqb c ","%char)) dep = true)
         (MakeApp.parseDeps args).
Proof.
  assert (∀ piece, trim piece ≠ "" →
            allChars (λ c, negb (Ascii.eqb c ","%char)) piece = true →
            trim piece ≠ ""
            ∧ (∀ w rest, w ∈ whiteSpace → trim piece ≠ w +:+ rest)
            ∧ (∀ w rest, w ∈ whiteSpace → trim piece ≠ rest +:+ w)
            ∧ allChars (λ c, negb (Ascii.eqb c ","%char)) (trim piece) = true) as Hclean.
  { intros piece Hne Hcomma. destruct (trim_Trimmed piece) as (l & r & _ & _ & _ & Hs & He).
    split; [done|]. split; [done|]. split; [done|]. by apply allChars_trim. }
  unfold MakeApp.parseDeps.
  destruct (indexOf "--deps" args) as [i|];
    [|constructor; [by apply (Hclean "logger")|constructor]].
  destruct (args !! (i + 1)%nat) as [token|];
    [|constructor; [by apply (Hclean "logger")|constructor]].
  rewrite filter_truthy. apply Forall_forall. intros dep Hdep.
  apply list_elem_of_filter in Hdep as [Hne Hdep].
  apply list_elem_of_fmap in Hdep as (piece & -> & Hpiece).
  apply Hclean; [done|].
  by apply (proj1 (Forall_forall _ _) (split_pieces_no_sep ","%char token)).
Qed.

(** ** Scan roots (Glob Resolver) *)

Lemma includes_elem_of (x : string) (arr : list string) :
  includes x arr = true ↔ x ∈ arr.
Proof.
  unfold includes. rewrite existsb_exists. split.
  - intros (y & Hy & ->%String.eqb_eq). by apply list_elem_of_In.
  - intros Hx. exists x. split; [by apply list_elem_of_In|apply String.eqb_refl].
Qed.

Lemma resolve_fold (globs dirs : list string) :
  let step := λ dirs glob,
    let baseDir := Sync.baseDirOf glob in
    if truthy baseDir && negb (includes baseDir dirs) then dirs ++ [baseDir] else dirs in
  NoDup dirs →
  NoDup (fold_left step globs dirs)
  ∧ ∀ x, x ∈ fold_left step globs dirs
         ↔ x ∈ dirs ∨ (x ≠ "" ∧ ∃ glob, glob ∈ globs ∧ Sync.baseDirOf glob = x).
Proof.
  intros step. revert dirs. induction globs as [|glob globs IH]; intros dirs Hnd.
  { simpl. split; [done|]. intros x. split; [by left|].
    intros [?|(_ & g & Hg & _)]; [done|]. by apply elem_of_nil in Hg. }
  cbn [fold_left]. unfold step at 2 4. cbv zeta.
  destruct (truthy (Sync.baseDirOf glob)) eqn:Ht; cbn [andb].
  - destruct (includes (Sync.baseDirOf glob) dirs) eqn:Hinc; cbn [negb].
    + destruct (IH dirs Hnd) as [Hnd' Hmem]. split; [done|]. intros x.
      rewrite Hmem. split.
      * intros [?|(Hx & g & Hg & Hb)]; [by left|]. right. split; [done|].
        exists g. split; [by right|done].
      * intros [?|(Hx & g & Hg & Hb)]; [by left|].
        apply elem_of_cons in Hg as [->|Hg].
        -- left. rewrite Hb in Hinc. by apply includes_elem_of.
        -- right. split; [done|]. by exists g.
    + assert (Sync.baseDirOf glob ∉ dirs) as Hnotin.
      { intros Hin%includes_elem_of. congruence. }
      destruct (IH (dirs ++ [Sync.baseDirOf glob])) as [Hnd' Hmem].
      { apply NoDup_app. split; [done|]. split; [|apply NoDup_singleton].
        intros y Hy ->%list_elem_of_singleton. done. }
      split; [done|]. intros x. rewrite Hmem, elem_of_app, list_elem_of_singleton.
      assert (Sync.baseDirOf glob ≠ "") as Hne.
      { unfold truthy in Ht. by destruct (String.eqb_spec (Sync.baseDirOf glob) ""). }
      split.
      * intros [[?| ->]|(Hx & g & Hg & Hb)]; [by left| |].
        -- right. split; [done|]. exists glob. split; [by left|done].
        -- right. split; [done|]. exists g. split; [by right|done].
      * intros [?|(Hx & g & Hg & Hb)]; [by left; left|].
        apply elem_of_cons in Hg as [->|Hg]; [left; by right|].
        right. split; [done|]. by exists g.
  - destruct (IH dirs Hnd) as [Hnd' Hmem]. split; [done|]. intros x.
    rewrite Hmem. split.
    + intros [?|(Hx & g & Hg & Hb)]; [by left|]. right. split; [done|].
      exists g. split; [by right|done].
    + intros [?|(Hx & g & Hg & Hb)]; [by left|].
      apply elem_of_cons in Hg as [->|Hg].
      * exfalso. unfold truthy in Ht. rewrite Hb in Ht.
        by destruct (String.eqb_spec x "").
      * right. split; [done|]. by exists g.
Qed.

Lemma resolveWorkspaceGlobs_roots (globs : list string) :
  NoDup (Sync.resolveWorkspaceGlobs globs)
  ∧ ∀ dir, dir ∈ Sync.resolveWorkspaceGlobs globs
           ↔ dir ≠ "" ∧ ∃ glob, glob ∈ globs ∧ Sync.baseDirOf glob = dir.
Proof.
  unfold Sync.resolveWorkspaceGlobs.
  destruct (resolve_fold globs [] (NoDup_nil_2)) as [Hnd Hmem].
  split; [by rewrite sort_Permutation|].
  intros dir. rewrite sort_Permutation, Hmem. split; [|by right].
  intros [Hin|?]; [by apply elem_of_nil in Hin|done].
Qed.

(** X2: the scan roots are without duplicate and without empty string, and
    they are exactly the non-empty scan roots of the globs. *)
Theorem resolveWorkspaceGlobs_spec (globs : list string) :
  NoDup (Sync.resolveWorkspaceGlobs globs)
  ∧ ∀ dir, dir ∈ Sync.resolveWorkspaceGlobs globs
           ↔ dir ≠ "" ∧ ∃ glob, glob ∈ globs ∧ Sync.baseDirOf glob = dir.
Proof. apply resolveWorkspaceGlobs_roots. Qed.

(** ** Outcomes of a script, whatever the disk *)

Lemma post_ret {A : Type} (a : A) (Q : res A → Prop) : Q (Ok a) → post (ret a) Q.
Proof. by intros H fs. Qed.

Lemma post_process_exit {A : Type} (code : nat) (Q : res A → Prop) :
  Q (Exit code) → post (process_exit code) Q.
Proof. by intros H fs. Qed.

Lemma post_throw {A : Type} (e : exn) (Q : res A → Prop) :
  Q (Throw e) → post (throw e) Q.
Proof. by intros H fs. Qed.

Lemma post_console (s : stream) (msg : string) (Q : res unit → Prop) :
  Q (Ok tt) → post (console s msg) Q.
Proof. by intros H fs. Qed.

Lemma post_existsSync (p : path) (Q : res bool → Prop) :
  (∀ b, Q (Ok b)) → post (existsSync p) Q.
Proof. intros H fs. apply H. Qed.

Lemma post_readFileSync (p : path) (Q : res string → Prop) :
  (∀ c, Q (Ok c)) → (∀ e, Q (Throw e)) → post (readFileSync p) Q.
Proof.
  intros Hok Hthrow fs. unfold readFileSync. destruct (stat fs p) as [[]|]; simpl; auto.
Qed.

Lemma post_readdirSync (p : path) (Q : res (list Dirent) → Prop) :
  (∀ l, Q (Ok l)) → (∀ e, Q (Throw e)) → post (readdirSync p) Q.
Proof.
  intros Hok Hthrow fs. unfold readdirSync. destruct (stat fs p) as [[]|]; simpl; auto.
Qed.

Lemma post_writeFileSync (p : path) (data : string) (Q : res unit → Prop) :
  Q (Ok tt) → (∀ e, Q (Throw e)) → post (writeFileSync p data) Q.
Proof.
  intros Hok Hthrow fs. unfold writeFileSync.
  destruct (stat fs p) as [[]|]; simpl; auto;
    destruct (stat fs (parent p)) as [[]|]; simpl; auto.
Qed.

Lemma post_mkdirSync (p : path) (Q : res unit → Prop) :
  Q (Ok tt) → (∀ e, Q (Throw e)) → post (mkdirSync p) Q.
Proof. intros Hok Hthrow fs. unfold mkdirSync. destruct (forallb _ _); simpl; auto. Qed.

Lemma post_execSync (sh : shell) (command : string) (cwd : option path)
    (env : option string) (Q : res unit → Prop) :
  Q (Ok tt) → Q (Throw (CommandFailed command)) → post (execSync sh command cwd env) Q.
Proof.
  intros Hok Hthrow fs. unfold execSync. destruct (sh _ _ _ _) as [[] ?]; simpl; auto.
Qed.

Lemma post_bind {A B : Type} (m : IO A) (f : A → IO B)
    (Q : res A → Prop) (R : res B → Prop) :
  post m Q →
  (∀ a, Q (Ok a) → post (f a) R) →
  (∀ code, Q (Exit code) → R (Exit code)) →
  (∀ e, Q (Throw e) → R (Throw e)) →
  post (bind m f) R.
Proof.
  intros Hm Hf Hexit Hthrow fs. specialize (Hm fs). unfold bind.
  destruct (result (m fs)) as [a|code|e]; simpl; [by apply Hf|by apply Hexit|by apply Hthrow].
Qed.

(** A handler runs only on an exception of the body. *)
Lemma post_try_catch {A : Type} (body handler : IO A)
    (Q R : res A → Prop) :
  post body Q → post handler R →
  (∀ a, Q (Ok a) → R (Ok a)) →
  (∀ code, Q (Exit code) → R (Exit code)) →
  post (try_catch body handler) R.
Proof.
  intros Hb Hh Hok Hexit fs. specialize (Hb fs). unfold try_catch.
  destruct (result (body fs)) as [a|code|e] eqn:Hr; simpl;
    [rewrite Hr; by apply Hok|rewrite Hr; by apply Hexit|apply Hh].
Qed.

Lemma post_forOf {A : Type} (xs : list A) (body : A → IO unit) (Q : res unit → Prop) :
  Q (Ok tt) → (∀ x, post (body x) Q) → post (forOf xs body) Q.
Proof.
  intros Hok Hb. induction xs as [|x xs IH]; [by apply post_ret|].
  simpl. apply (post_bind _ _ Q); [apply Hb|by intros [] _|done..].
Qed.

Lemma post_forOfAcc {A S : Type} (xs : list A) (acc : S) (body : S → A → IO S)
    (Q : res S → Prop) :
  (∀ s, Q (Ok s)) → (∀ s x, post (body s x) Q) → post (forOfAcc xs acc body) Q.
Proof.
  intros Hok Hb. revert acc. induction xs as [|x xs IH]; intros acc; [by apply post_ret|].
  simpl. apply (post_bind _ _ Q); [apply Hb|by intros s _|done..].
Qed.

Lemma post_weaken {A : Type} (m : IO A) (Q R : res A → Prop) :
  post m Q → (∀ r, Q r → R r) → post m R.
Proof. intros Hm HQR fs. apply HQR, Hm. Qed.

Lemma noExit_Ok {A : Type} (a : A) : noExit (Ok a).
Proof. by intros code. Qed.

Lemma noExit_Throw {A : Type} (e : exn) : @noExit A (Throw e).
Proof. by intros code. Qed.

#[global] Hint Resolve noExit_Ok noExit_Throw : core.

Lemma noExit_Exit {A : Type} (code : nat) (P : Prop) : @noExit A (Exit code) → P.
Proof. intros H. by destruct (H code). Qed.

(** Side conditions of [post_bind] when the first step cannot exit. *)
Ltac post_side :=
  first [ intros ?; apply noExit_Exit
        | intros; split; [auto|intros; discriminate]
        | intros; auto; done ].

(** One step of a script whose first computation cannot exit. *)
Ltac post_step :=
  apply (post_bind _ _ noExit); [| |post_side|post_side].

Section SyncOutcomes.

Variable __dirname : path.
Variable JSON_parse : string → option Sync.RootPackageJson.

Local Abbreviation ROOT := (Sync.ROOT __dirname).
Local Abbreviation detectPackageManager := (Sync.detectPackageManager __dirname JSON_parse).
Local Abbreviation getWorkspaceDirs := (Sync.getWorkspaceDirs __dirname JSON_parse).

Lemma post_readPackageJson (p : path) :
  post (Sync.readPackageJson JSON_parse p) noExit.
Proof.
  unfold Sync.readPackageJson.
  apply (post_bind _ _ noExit);
    [apply post_readFileSync; auto| |intros ?; apply noExit_Exit|auto].
  intros text _. destruct (JSON_parse text); [apply post_ret|apply post_throw]; auto.
Qed.

Lemma post_detectPackageManager :
  post detectPackageManager (λ r, noExit r ∧ ∀ pm, r = Ok pm → pm ≠ "").
Proof.
  assert (∀ lit : string, lit ≠ "" →
            post (ret lit) (λ r, noExit r ∧ ∀ pm, r = Ok pm → pm ≠ "")) as Hlit.
  { intros lit Hne. apply post_ret. split; [auto|]. by intros pm [= <-]. }
  unfold Sync.detectPackageManager.
  post_step; [apply post_existsSync; auto|].
  intros found _. destruct found; cbn [negb]; [|by apply Hlit].
  post_step; [apply post_readPackageJson|].
  intros pkgJson _. destruct (truthy (default "" _)).
  { set (name := default "" (head _)). unfold truthy.
    destruct (String.eqb_spec name ""); by apply Hlit. }
  repeat (post_step; [apply post_existsSync; auto|]; intros [] _; [by apply Hlit|]).
  by apply Hlit.
Qed.

Lemma post_parsePnpmWorkspace : post (Sync.parsePnpmWorkspace __dirname) noExit.
Proof.
  unfold Sync.parsePnpmWorkspace, console_warn.
  post_step; [apply post_existsSync; auto|].
  intros [] _; cbn [negb].
  - post_step; [apply post_readFileSync; auto|]. intros. apply post_ret. auto.
  - post_step; [apply post_console; auto|]. intros. apply post_ret. auto.
Qed.

Lemma post_readPackageJsonWorkspaces :
  post (Sync.readPackageJsonWorkspaces __dirname JSON_parse) noExit.
Proof.
  unfold Sync.readPackageJsonWorkspaces.
  post_step; [apply post_existsSync; auto|].
  intros [] _; cbn [negb]; [|apply post_ret; auto].
  post_step; [apply post_readPackageJson|].
  intros pkgJson _. destruct (Sync.workspaces pkgJson) as [[]|]; apply post_ret; auto.
Qed.

Lemma post_getWorkspaceDirs :
  post getWorkspaceDirs (λ r,
    match r with
    | Ok dirs => ∃ globs, globs ≠ [] ∧ dirs = Sync.resolveWorkspaceGlobs globs
    | Exit code => code = 1%nat
    | Throw _ => True
    end).
Proof.
  unfold Sync.getWorkspaceDirs, console_log, console_error.
  post_step; [eapply post_weaken; [apply post_detectPackageManager|by intros ? []]|].
  intros pm _. post_step; [apply post_console; auto|]. intros _ _.
  post_step.
  { destruct (String.eqb pm "pnpm");
      (post_step; [apply post_console; auto|]); intros _ _.
    - apply post_parsePnpmWorkspace.
    - apply post_readPackageJsonWorkspaces. }
  intros globs _. destruct globs as [|glob globs]; cbn [length Nat.eqb].
  - post_step; [apply post_console; auto|]. intros _ _. by apply post_process_exit.
  - post_step; [apply post_console; auto|]. intros _ _. apply post_ret.
    exists (glob :: globs). by split.
Qed.


End SyncOutcomes.

(** ** Package manager detection *)

Section Detection.

Variable __dirname : path.
Variable JSON_parse : string → option Sync.RootPackageJson.

Local Abbreviation ROOT := (Sync.ROOT __dirname).
Local Abbreviation detectPackageManager := (Sync.detectPackageManager __dirname JSON_parse).

(** X4: without [package.json] the manager is unknown, lock files or not; a
    declared manager is the text before the first [@] of the declaration, or
    unknown when that text is empty; only without declaration do the lock
    files decide, pnpm before yarn before npm. *)
Theorem detectPackageManager_spec (fs : FS) :
  let pkgJsonPath := path_join ROOT ["package.json"] in
  let present := λ file, bool_decide (is_Some (stat fs (path_join ROOT [file]))) in
  let byLockFile :=
    if present "pnpm-lock.yaml" then "pnpm"
    else if present "yarn.lock" then "yarn"
    else if present "package-lock.json" then "npm" else "unknown" in
  let o := detectPackageManager fs in
  (stat fs pkgJsonPath = None → result o = Ok "unknown")
  ∧ (∀ text pkgJson,
       stat fs pkgJsonPath = Some (FileE text) → JSON_parse text = Some pkgJson →
       (∀ name version,
          Sync.packageManager pkgJson = Some (name +:+ "@" +:+ version) →
          allChars (λ c, negb (Ascii.eqb c "@"%char)) name = true →
          result o = Ok (if decide (name = "") then "unknown" else name))
       ∧ (∀ name,
            Sync.packageManager pkgJson = Some name → name ≠ "" →
            allChars (λ c, negb (Ascii.eqb c "@"%char)) name = true →
            result o = Ok name)
       ∧ (Sync.packageManager pkgJson = None ∨ Sync.packageManager pkgJson = Some "" →
          result o = Ok byLockFile)).
Proof.
  intros pkgJsonPath present byLockFile o. subst o.
  unfold Sync.detectPackageManager. fold ROOT. fold pkgJsonPath.
  rewrite bind_existsSync. cbv zeta. split.
  { intros Hst. rewrite Hst. rewrite bool_decide_eq_false_2; [done|by intros [? ?]]. }
  intros text pkgJson Hst Hparse.
  rewrite bool_decide_eq_true_2 by (rewrite Hst; by eexists). cbn [negb result].
  unfold Sync.readPackageJson.
  rewrite bind_assoc, (bind_readFileSync_file _ _ _ _ Hst). cbv zeta. cbn [result].
  rewrite Hparse, bind_ret.
  split; [|split].
  - intros name version Hpm Hname. rewrite Hpm.
    change (default "" (Some (name +:+ "@" +:+ version)))
      with (name +:+ String "@" version).
    unfold truthy at 1.
    destruct (String.eqb_spec (name +:+ String "@" version) "") as [Hempty|_].
    { apply (f_equal String.length) in Hempty. rewrite length_append in Hempty.
      simpl in Hempty. lia. }
    cbn [negb]. rewrite (split_app_sep _ _ _ Hname). cbn [head default result ret].
    unfold truthy. case_decide as Hn.
    + subst name. done.
    + unfold id. by destruct (String.eqb_spec name "").
  - intros name Hpm Hne Hname. rewrite Hpm.
    change (default "" (Some name)) with name.
    unfold truthy. destruct (String.eqb_spec name ""); [done|]. cbn [negb].
    rewrite (split_no_sep _ _ Hname). cbn [head default result ret]. unfold id.
    by destruct (String.eqb_spec name "").
  - intros Hnone.
    assert (truthy (default "" (Sync.packageManager pkgJson)) = false) as ->.
    { by destruct Hnone as [-> | ->]. }
    rewrite bind_existsSync. cbv zeta. cbn [result]. subst byLockFile. unfold present.
    destruct (bool_decide (is_Some (stat fs (path_join ROOT ["pnpm-lock.yaml"]))));
      [done|].
    rewrite bind_existsSync. cbv zeta. cbn [result].
    destruct (bool_decide (is_Some (stat fs (path_join ROOT ["yarn.lock"]))));
      [done|].
    rewrite bind_existsSync. cbv zeta. cbn [result].
    by destruct (bool_decide (is_Some (stat fs (path_join ROOT ["package-lock.json"])))).
Qed.

End Detection.

Lemma detectPackageManager_spec_witness :
  result (Sync.detectPackageManager Sample.scripts_dir Sample.JSON_parse Sample.bare)
  = Ok "unknown"
  ∧ result (Sync.detectPackageManager Sample.scripts_dir Sample.JSON_parse Sample.workspace)
    = Ok "pnpm"
  ∧ result (Sync.detectPackageManager Sample.scripts_dir JSON_parse_undeclared
              yarn_checkout)
    = Ok "yarn".
Proof.
  split; [|split].
  - apply (proj1 (detectPackageManager_spec Sample.scripts_dir Sample.JSON_parse Sample.bare)).
    by vm_compute.
  - apply (proj1 (proj2 (detectPackageManager_spec Sample.scripts_dir Sample.JSON_parse
                           Sample.workspace) "{}" _ eq_refl eq_refl) "pnpm" "9.1.0");
      by vm_compute.
  - apply (proj2 (proj2 (proj2 (detectPackageManager_spec Sample.scripts_dir
                                  JSON_parse_undeclared yarn_checkout)
                           "{}" _ eq_refl eq_refl))).
    by left.
Defined.

(** ** The line pattern of pnpm-workspace.yaml *)

Lemma matchTail_sound (s : string) :
  Sync.matchTail s = true →
  ∃ q2 ws', s = q2 +:+ ws' ∧ optQuote q2 ∧ WhiteSpaceRun ws'.
Proof.
  destruct s as [|c s]; cbn [Sync.matchTail].
  - intros _. exists "", "". split; [done|]. split; [by left|constructor].
  - intros [[Hc Hs]%andb_true_iff|Hs]%orb_true_iff.
    + exists (String c ""), s. split; [done|].
      split; [right; by exists c|by apply allWhiteSpace_run].
    + exists "", (String c s). split; [done|].
      split; [by left|by apply allWhiteSpace_run].
Qed.

Lemma matchTail_complete (q2 ws' : string) :
  optQuote q2 → WhiteSpaceRun ws' → Sync.matchTail (q2 +:+ ws') = true.
Proof.
  intros [->|(c & Hc & ->)] Hws%allWhiteSpace_run.
  - rewrite append_nil. destruct ws' as [|c s]; [done|].
    cbn [Sync.matchTail]. rewrite Hws. apply orb_true_r.
  - rewrite append_cons, append_nil. cbn [Sync.matchTail]. by rewrite Hc, Hws.
Qed.

Lemma matchCapture_sound (s cap : string) :
  Sync.matchCapture s = Some cap →
  cap ≠ "" ∧ allChars (λ c, negb (isQuote c)) cap = true
  ∧ ∃ tail, s = cap +:+ tail ∧ Sync.matchTail tail = true.
Proof.
  revert cap. induction s as [|c s IH]; intros cap; [done|]. simpl.
  destruct (isQuote c) eqn:Hc; [done|].
  destruct (Sync.matchCapture s) as [cap'|] eqn:Hcap.
  - intros [= <-]. destruct (IH _ eq_refl) as (_ & Hfree & tail & -> & Htail).
    repeat split; [done|by simpl; rewrite Hc|]. by exists tail.
  - destruct (Sync.matchTail s) eqn:Htail; [|done]. intros [= <-].
    repeat split; [done|by simpl; rewrite Hc|]. by exists s.
Qed.

Lemma matchCapture_complete (cap tail : string) :
  cap ≠ "" → allChars (λ c, negb (isQuote c)) cap = true →
  Sync.matchTail tail = true → is_Some (Sync.matchCapture (cap +:+ tail)).
Proof.
  intros Hne Hfree Htail. induction cap as [|c cap IH]; [done|].
  simpl in Hfree. apply andb_true_iff in Hfree as [Hc Hfree].
  apply negb_true_iff in Hc. rewrite append_cons. simpl. rewrite Hc.
  destruct cap as [|c' cap].
  - rewrite append_nil. destruct (Sync.matchCapture tail); [by eexists|].
    rewrite Htail. by eexists.
  - destruct (IH ltac:(done) Hfree) as [cap' ->]. by eexists.
Qed.

(** The capture stops where the text stops or a quote character stands. *)
Lemma matchCapture_exact (glob q2 : string) :
  glob ≠ "" → allChars (λ c, negb (isQuote c)) glob = true → optQuote q2 →
  Sync.matchCapture (glob +:+ q2) = Some glob.
Proof.
  intros Hne Hfree Hq. induction glob as [|c glob IH]; [done|].
  simpl in Hfree. apply andb_true_iff in Hfree as [Hc Hfree].
  apply negb_true_iff in Hc. rewrite append_cons. simpl. rewrite Hc.
  destruct glob as [|c' glob].
  - rewrite append_nil. destruct Hq as [->|(q & Hq & ->)]; [done|].
    simpl. by rewrite Hq.
  - by rewrite (IH ltac:(done) Hfree).
Qed.

Lemma matchQuoted_sound (s cap : string) :
  Sync.matchQuoted s = Some cap →
  ∃ q1 tail, s = q1 +:+ cap +:+ tail ∧ optQuote q1 ∧ cap ≠ ""
    ∧ allChars (λ c, negb (isQuote c)) cap = true ∧ Sync.matchTail tail = true.
Proof.
  destruct s as [|c s]; [done|]. unfold Sync.matchQuoted.
  destruct (isQuote c) eqn:Hc.
  - destruct (Sync.matchCapture s) as [cap'|] eqn:Hcap.
    + intros [= ->]. apply matchCapture_sound in Hcap as (? & ? & tail & -> & ?).
      exists (String c ""), tail. repeat split; try done. right. by exists c.
    + intros Hcap'. simpl in Hcap'. by rewrite Hc in Hcap'.
  - intros Hcap. apply matchCapture_sound in Hcap as (? & ? & tail & -> & ?).
    exists "", tail. repeat split; try done. by left.
Qed.

Lemma matchQuoted_complete (q1 cap tail : string) :
  optQuote q1 → cap ≠ "" → allChars (λ c, negb (isQuote c)) cap = true →
  Sync.matchTail tail = true → is_Some (Sync.matchQuoted (q1 +:+ cap +:+ tail)).
Proof.
  intros Hq Hne Hfree Htail.
  pose proof (matchCapture_complete cap tail Hne Hfree Htail) as Hcap.
  destruct Hq as [->|(c & Hc & ->)].
  - rewrite append_nil. destruct cap as [|c cap]; [done|].
    rewrite append_cons in *. unfold Sync.matchQuoted.
    simpl in Hfree. apply andb_true_iff in Hfree as [Hc _].
    apply negb_true_iff in Hc. by rewrite Hc.
  - rewrite append_cons, append_nil. unfold Sync.matchQuoted. rewrite Hc.
    by destruct Hcap as [cap' ->].
Qed.

Lemma matchSpaces_unfold (s : string) :
  Sync.matchSpaces s
  = match stripWhiteSpace s with
    | Some rest => match Sync.matchSpaces rest with
                   | Some cap => Some cap
                   | None => Sync.matchQuoted rest
                   end
    | None => None
    end.
Proof.
  destruct s as [|c s1]; [done|]. unfold stripWhiteSpace. simpl.
  destruct (isWhiteSpace1 c); [done|]. destruct s1 as [|d s2]; [done|].
  destruct (isWhiteSpace2 c d); [done|]. destruct s2 as [|e s3]; [done|].
  by destruct (isWhiteSpace3 c d e).
Qed.

Lemma matchSpaces_sound (s cap : string) :
  Sync.matchSpaces s = Some cap →
  ∃ ws rest, s = ws +:+ rest ∧ ws ≠ "" ∧ WhiteSpaceRun ws
    ∧ Sync.matchQuoted rest = Some cap.
Proof.
  induction s as [s IH] using string_length_ind. rewrite matchSpaces_unfold.
  destruct (stripWhiteSpace s) as [rest|] eqn:Hs; [|done].
  pose proof (stripWhiteSpace_shorter _ _ Hs) as Hlt.
  apply stripWhiteSpace_sound in Hs as (w & Hw & ->).
  pose proof (whiteSpace_nonempty _ Hw) as Hne.
  destruct (Sync.matchSpaces rest) as [cap'|] eqn:Hrest.
  - intros [= ->]. destruct (IH rest Hlt Hrest) as (ws & rest' & -> & _ & Hws & Hq).
    exists (w +:+ ws), rest'. rewrite append_assoc. split; [done|].
    split; [by destruct w|]. split; [by constructor|done].
  - intros Hq. exists w, rest. split; [done|]. split; [done|].
    split; [by apply WhiteSpaceRun_one|done].
Qed.

Lemma matchSpaces_complete (ws rest : string) :
  ws ≠ "" → WhiteSpaceRun ws → is_Some (Sync.matchQuoted rest) →
  is_Some (Sync.matchSpaces (ws +:+ rest)).
Proof.
  intros Hne Hws [cap Hrest]. induction Hws as [|w ws Hw Hws IH]; [done|].
  rewrite append_assoc, matchSpaces_unfold, (stripWhiteSpace_complete _ _ Hw).
  destruct ws as [|c ws].
  - rewrite append_nil. destruct (Sync.matchSpaces rest); [by eexists|].
    rewrite Hrest. by eexists.
  - destruct (IH ltac:(done)) as [cap' ->]. by eexists.
Qed.

(** X5: the line pattern accepts exactly the lines made of a dash, white
    space, an optional quote character, a non-empty text free of quote
    characters, an optional quote character and white space, and what it
    captures is such a text of the line. *)
Theorem matchGlobLine_language (line : string) :
  (∀ capture, Sync.matchGlobLine line = Some capture → GlobLine line capture)
  ∧ ((∃ capture, GlobLine line capture) → is_Some (Sync.matchGlobLine line)).
Proof.
  split.
  - intros cap Hm. unfold Sync.matchGlobLine in Hm.
    destruct line as [|c rest]; [done|].
    destruct (decide (c = "-"%char)) as [->|Hc].
    + apply matchSpaces_sound in Hm as (ws & rest' & -> & Hne & Hws & Hq).
      apply matchQuoted_sound in Hq as (q1 & tail & -> & Hq1 & Hcap & Hfree & Htail).
      apply matchTail_sound in Htail as (q2 & ws' & -> & Hq2 & Hws').
      exists ws, q1, q2, ws'. by rewrite append_cons, append_nil.
    + exfalso. revert Hm.
      destruct c as [[] [] [] [] [] [] [] []]; done.
  - intros (cap & ws & q1 & q2 & ws' & -> & Hne & Hws & Hq1 & Hcap & Hfree & Hq2 & Hws').
    rewrite append_cons, append_nil. unfold Sync.matchGlobLine.
    apply matchSpaces_complete; [done..|].
    apply matchQuoted_complete; [done..|]. by apply matchTail_complete.
Qed.

Lemma matchGlobLine_language_witness :
  GlobLine ("-" +:+ tab +:+ bytes [194; 160] +:+ "'libs/*' ") "libs/*"
  ∧ is_Some (Sync.matchGlobLine "- libs/*").
Proof.
  split.
  - apply (proj1 (matchGlobLine_language
                    ("-" +:+ tab +:+ bytes [194; 160] +:+ "'libs/*' "))).
    reflexivity.
  - apply (proj2 (matchGlobLine_language "- libs/*")). exists "libs/*".
    exists " ", "", "", "". split; [done|]. split; [done|].
    split; [apply WhiteSpaceRun_one; compute_done|]. split; [by left|].
    split; [done|]. split; [done|]. split; [by left|constructor].
Defined.

Lemma stripWhiteSpace_None (s : string) :
  stripWhiteSpace s = None ↔ ∀ w rest, w ∈ whiteSpace → s ≠ w +:+ rest.
Proof.
  split.
  - intros Hs w rest Hw ->. by rewrite stripWhiteSpace_complete in Hs.
  - intros Hs. destruct (stripWhiteSpace s) as [rest|] eqn:Hrest; [|done].
    apply stripWhiteSpace_sound in Hrest as (w & Hw & ->). by destruct (Hs w rest).
Qed.

Lemma stripWhiteSpace_quote (c : ascii) (rest : string) :
  isQuote c = true → stripWhiteSpace (String c rest) = None.
Proof.
  unfold isQuote.
  intros [->%Nat.eqb_eq%ascii_of_code| ->%Nat.eqb_eq%ascii_of_code]%orb_true_iff;
    by destruct rest as [|d [|e rest]].
Qed.

(** A text that does not start with white space does not start with it when
    a quote character follows. *)
Lemma stripWhiteSpace_before_quote (glob q2 : string) :
  glob ≠ "" → stripWhiteSpace glob = None → optQuote q2 →
  stripWhiteSpace (glob +:+ q2) = None.
Proof.
  intros Hne Hglob [->|(c & Hc & ->)]; [by rewrite append_empty_r|].
  apply stripWhiteSpace_None. intros w rest Hw Heq.
  rewrite stripWhiteSpace_None in Hglob.
  apply append_prefix_cases in Heq as [(u & -> & _)|(u & -> & Hu)].
  { by apply (Hglob w u). }
  destruct u as [|d u].
  { apply (Hglob glob ""); [by rewrite append_empty_r in Hw|by rewrite append_empty_r]. }
  injection Hu as <- _.
  destruct (whiteSpace_bytes _ Hw) as (h & tl & Heq & _ & Htl).
  destruct glob as [|g glob]; [done|]. rewrite append_cons in Heq.
  injection Heq as _ <-. rewrite allChars_app in Htl.
  apply andb_true_iff in Htl as [_ Htl]. cbn [allChars] in Htl.
  apply andb_true_iff in Htl as [Hd _]. apply andb_true_iff in Hd as [Hd _].
  apply Nat.leb_le in Hd. unfold isQuote in Hc.
  apply orb_true_iff in Hc as [Hc%Nat.eqb_eq|Hc%Nat.eqb_eq]; lia.
Qed.

(** X6: the three documented forms of an entry give the text between the
    quote characters, or after the white space when there is none; a text
    that is not quoted must not begin with white space. *)
Theorem matchGlobLine_documented (ws q1 q2 glob : string) :
  ws ≠ "" → WhiteSpaceRun ws →
  optQuote q1 → optQuote q2 →
  glob ≠ "" → allChars (λ c, negb (isQuote c)) glob = true →
  (q1 = "" → ∀ w rest, w ∈ whiteSpace → glob ≠ w +:+ rest) →
  Sync.matchGlobLine ("-" +:+ ws +:+ q1 +:+ glob +:+ q2) = Some glob.
Proof.
  intros Hne Hws Hq1 Hq2 Hglob Hfree Hhead.
  rewrite append_cons, append_nil. unfold Sync.matchGlobLine.
  pose proof (matchCapture_exact glob q2 Hglob Hfree Hq2) as Hcap.
  assert (Sync.matchQuoted (q1 +:+ glob +:+ q2) = Some glob
          ∧ Sync.matchSpaces (q1 +:+ glob +:+ q2) = None) as [Hq Hs].
  { destruct Hq1 as [->|(c & Hc & ->)].
    - rewrite append_nil. split.
      + destruct glob as [|c rest]; [done|]. rewrite append_cons in *.
        simpl in Hfree. apply andb_true_iff in Hfree as [Hc _].
        apply negb_true_iff in Hc. unfold Sync.matchQuoted. by rewrite Hc.
      + rewrite matchSpaces_unfold, stripWhiteSpace_before_quote; [done..| |done].
        apply stripWhiteSpace_None. by apply Hhead.
    - rewrite append_cons, append_nil. split.
      + unfold Sync.matchQuoted. by rewrite Hc, Hcap.
      + by rewrite matchSpaces_unfold, stripWhiteSpace_quote. }
  clear Hcap Hhead. induction Hws as [|w ws Hw Hws IH]; [done|].
  rewrite append_assoc, matchSpaces_unfold, (stripWhiteSpace_complete _ _ Hw).
  destruct ws as [|c' ws].
  - rewrite append_nil. by rewrite Hs.
  - by rewrite (IH ltac:(done)).
Qed.

Lemma matchGlobLine_documented_witness :
  Sync.matchGlobLine "- 'apps/*'" = Some "apps/*"
  ∧ Sync.matchGlobLine ("-" +:+ tab +:+ "packages/*") = Some "packages/*".
Proof.
  split.
  - apply (matchGlobLine_documented " " "'" "'" "apps/*"); try done.
    + apply WhiteSpaceRun_one. compute_done.
    + right. by exists "'"%char.
    + right. by exists "'"%char.
  - apply (matchGlobLine_documented tab "" "" "packages/*"); try done.
    + apply WhiteSpaceRun_one. compute_done.
    + by left.
    + by left.
    + intros _. by apply stripWhiteSpace_None.
Defined.

(** ** The layout of the manifest *)

Lemma sections_layout (n i : nat) (dirEntries : list (string * list string)) :
  n = (i + length dirEntries)%nat →
  Sync.sections n i dirEntries
  = separated [""]
      (sectionOf capitalize <$> filter (λ e, hasModules e = true) dirEntries)
      ++ (if lastRootEmpty dirEntries then [""] else []).
Proof.
  revert i. induction dirEntries as [|[dir modules] rest IH]; intros i Hn; [done|].
  simpl in Hn. specialize (IH (S i) ltac:(lia)).
  destruct modules as [|mod_ modules].
  - simpl. rewrite IH. rewrite filter_cons_False by done.
    f_equal. unfold lastRootEmpty. simpl. destruct rest as [|e rest]; [done|].
    by rewrite last_cons_cons.
  - cbn [Sync.sections]. rewrite IH. rewrite filter_cons_True by done.
    rewrite fmap_cons.
    change (sectionOf capitalize (dir, mod_ :: modules))
      with ([tab +:+ "// " +:+ capitalize dir]
              ++ ((λ mod_, tab +:+ mod_) <$> (mod_ :: modules))).
    destruct rest as [|e rest].
    + simpl. replace (i <? n - 1)%nat with false
        by (symmetry; apply Nat.ltb_ge; simpl in Hn; lia).
      by rewrite !app_nil_r.
    + replace (i <? n - 1)%nat with true
        by (symmetry; apply Nat.ltb_lt; simpl in Hn; lia).
      unfold lastRootEmpty. rewrite last_cons_cons.
      change (existsb hasModules ((dir, mod_ :: modules) :: e :: rest)) with true.
      cbn [andb].
      destruct (filter (λ e, hasModules e = true) (e :: rest)) as [|e' rest'] eqn:Hf.
      * assert (existsb hasModules (e :: rest) = false) as ->.
        { apply not_true_is_false. intros (x & Hx & Hm)%existsb_exists.
          apply list_elem_of_In in Hx.
          assert (x ∈ filter (λ e, hasModules e = true) (e :: rest)) as Hin
            by by apply list_elem_of_filter.
          rewrite Hf in Hin. by apply elem_of_nil in Hin. }
        cbn [andb fmap list_fmap separated app].
        assert (hasModules (default e (last (e :: rest))) = false) as Hlast.
        { destruct (last (e :: rest)) as [x|] eqn:Hl; simpl.
          - apply not_true_is_false. intros Hm.
            assert (x ∈ filter (λ e, hasModules e = true) (e :: rest)) as Hin.
            { apply list_elem_of_filter. split; [done|].
              apply last_Some in Hl as [l' ->]. set_solver. }
            rewrite Hf in Hin. by apply elem_of_nil in Hin.
          - by apply last_None in Hl. }
        destruct (last (e :: rest)) as [x|] eqn:Hl; [|by apply last_None in Hl].
        simpl in Hlast. rewrite Hlast. reflexivity.
      * assert (existsb hasModules (e :: rest) = true) as ->.
        { apply existsb_exists. exists e'. 
          assert (e' ∈ filter (λ e, hasModules e = true) (e :: rest)) as Hin
            by (rewrite Hf; left).
          apply list_elem_of_filter in Hin as [? ?]. split; [|done].
          by apply list_elem_of_In. }
        cbn [andb]. rewrite !fmap_cons. cbn [separated].
        by rewrite <- !app_assoc.
Qed.

(** X7: the manifest is the header, the blocks of the scan roots that hold
    modules with one blank line between two of them, a further blank line
    exactly when some root holds modules and the last root holds none, and the
    closing lines.  The label of a block is the name of the root, its first
    letter in upper case when it is a lower-case letter of ASCII. *)
Theorem goWorkLines_layout (dirEntries : list (string * list string)) :
  ∃ label : string → string,
    (∀ c rest, isLower c = true →
       label (String c rest) = String (ascii_of_nat (nat_of_ascii c - 32)) rest)
    ∧ Sync.goWorkLines dirEntries
      = Sync.header
          ++ separated [""]
               (sectionOf label <$> filter (λ e, hasModules e = true) dirEntries)
          ++ (if lastRootEmpty dirEntries then [""] else [])
          ++ [")"; ""].
Proof.
  exists capitalize. split.
  - intros c rest Hc. simpl. unfold toUpperCaseChar. by rewrite Hc.
  - unfold Sync.goWorkLines. rewrite (sections_layout _ 0 dirEntries) by done.
    by rewrite <- !app_assoc.
Qed.

(** ** What a run of the sync script does to the disk *)

Lemma elem_of_obj_set {V} (k : string) (v : V) (o : jsobj V) : (k, v) ∈ obj_set k v o.
Proof.
  induction o as [|[k' v'] o IH]; simpl; [left|].
  destruct (String.eqb k' k); [left|by right].
Qed.

Lemma elem_of_obj_set_inv {V} (k : string) (v : V) (o : jsobj V) (x : string * V) :
  x ∈ obj_set k v o → x = (k, v) ∨ x ∈ o.
Proof.
  induction o as [|[k' v'] o IH]; simpl.
  - intros ->%list_elem_of_singleton. by left.
  - destruct (String.eqb k' k).
    + intros [->|Hx]%elem_of_cons; [by left|right; by right].
    + intros [->|Hx]%elem_of_cons; [right; left|].
      destruct (IH Hx) as [->|Hin]; [by left|right; by right].
Qed.

Lemma obj_set_keys {V} (k k' : string) (v : V) (o : jsobj V) :
  k' ∈ o.*1 → k' ∈ (obj_set k v o).*1.
Proof.
  induction o as [|[k0 v0] o IH]; simpl; [by intros ?%elem_of_nil|].
  destruct (String.eqb_spec k0 k) as [->|Hne]; simpl.
  - intros [->|Hin]%elem_of_cons; [left|by right].
  - intros [->|Hin]%elem_of_cons; [left|right; by apply IH].
Qed.

Lemma elem_of_Object_entries {V} (o : jsobj V) (x : string * V) :
  x ∈ Object_entries o ↔ x ∈ o.
Proof.
  unfold Object_entries. rewrite elem_of_app, list_elem_of_fmap, list_elem_of_filter.
  split.
  - intros [([n kv] & -> & Hin)|[_ Hin]]; [|done].
    rewrite merge_sort_Permutation in Hin.
    apply list_elem_of_omap in Hin as (kv' & Hkv' & Hsome).
    destruct (arrayIndex kv'.1); simpl in Hsome; [|done]. by injection Hsome as <- <-.
  - intros Hin. destruct (arrayIndex x.1) as [n|] eqn:Hidx; [left|by right].
    exists (n, x). split; [done|]. rewrite merge_sort_Permutation.
    apply list_elem_of_omap. exists x. split; [done|]. by rewrite Hidx.
Qed.

(** The loop of [generateGoWork] writes a line for every module of every
    entry. *)
Lemma sections_modules (n i : nat) (dirEntries : list (string * list string))
    (dir mod_ : string) (modules : list string) :
  (dir, modules) ∈ dirEntries → mod_ ∈ modules →
  tab +:+ mod_ ∈ Sync.sections n i dirEntries.
Proof.
  intros Hin Hmod. revert i.
  induction dirEntries as [|[dir' modules'] rest IH]; intros i;
    [by apply elem_of_nil in Hin|].
  apply elem_of_cons in Hin as [[= <- <-]|Hin].
  - destruct modules as [|m ms]; [by apply elem_of_nil in Hmod|].
    cbn [Sync.sections]. apply elem_of_app. right. apply elem_of_app. left.
    apply list_elem_of_fmap. by exists mod_.
  - destruct modules' as [|m ms]; cbn [Sync.sections]; [by apply IH|].
    rewrite !elem_of_app. right. right. right. by apply IH.
Qed.

Lemma result_forOf_console (xs : list string) (line : string → string) (fs : FS) :
  result (forOf xs (λ x, console_log (line x)) fs) = Ok tt.
Proof.
  induction xs as [|x xs IH]; [done|]. cbn [forOf]. unfold console_log.
  by rewrite bind_console.
Qed.

Section SyncEffect.

Variable __dirname : path.
Variable JSON_parse : string → option Sync.RootPackageJson.

Local Abbreviation ROOT := (Sync.ROOT __dirname).
Local Abbreviation GO_WORK_PATH := (Sync.GO_WORK_PATH __dirname).
Local Abbreviation getWorkspaceDirs := (Sync.getWorkspaceDirs __dirname JSON_parse).
Local Abbreviation discoverModules := (Sync.discoverModules __dirname).
Local Abbreviation scanBody := (Sync.scanBody __dirname).
Local Abbreviation scan := (Sync.scan __dirname JSON_parse).
Local Abbreviation commit := (Sync.commit __dirname).
Local Abbreviation main := (Sync.main __dirname JSON_parse).

Lemma scanBody_result (modulesByDir : jsobj (list string)) (totalModules : nat)
    (dir : string) (fs : FS) :
  result (scanBody (modulesByDir, totalModules) dir fs)
  = match result (discoverModules dir fs) with
    | Ok modules =>
        Ok (obj_set dir modules modulesByDir, (totalModules + length modules)%nat)
    | Exit code => Exit code
    | Throw e => Throw e
    end.
Proof.
  unfold Sync.scanBody.
  destruct (result (discoverModules dir fs)) as [modules|code|e] eqn:Hd.
  - rewrite (bind_readOnly_Ok _ _ fs _ (readOnly_discoverModules _ _) Hd).
    cbn [result].
    destruct (0 <? length modules)%nat.
    + unfold console_log at 1. rewrite bind_assoc, bind_console. cbn [result].
      rewrite (bind_readOnly_Ok _ _ fs tt);
        [done|read_only|apply result_forOf_console].
    + by rewrite bind_ret.
  - by rewrite (bind_Exit_eq _ _ _ _ Hd).
  - by rewrite (bind_Throw_eq _ _ _ _ Hd).
Qed.

(** What the loop over the scan roots has recorded when it ends. *)
Lemma scan_loop_records (fs : FS) (dirs : list string)
    (obj obj' : jsobj (list string)) (total total' : nat) :
  result (forOfAcc dirs (obj, total) scanBody fs) = Ok (obj', total') →
  (∀ k v, (k, v) ∈ obj → result (discoverModules k fs) = Ok v) →
  (∀ k v, (k, v) ∈ obj' → result (discoverModules k fs) = Ok v)
  ∧ (∀ dir, dir ∈ dirs ∨ dir ∈ obj.*1 → dir ∈ obj'.*1).
Proof.
  revert obj total. induction dirs as [|dir dirs IH]; intros obj total Hres Hinv.
  { injection Hres as <- <-. split; [done|]. intros d [?%elem_of_nil|?]; done. }
  cbn [forOfAcc] in Hres.
  pose proof (scanBody_result obj total dir fs) as Hbody.
  destruct (result (discoverModules dir fs)) as [modules|code|e] eqn:Hd.
  - rewrite (bind_readOnly_Ok _ _ fs _ (readOnly_scanBody _ _ _) Hbody) in Hres.
    cbn [result] in Hres. apply IH in Hres as [Hinv' Hkeys].
    + split; [done|]. intros d [[Heq|Hin]%elem_of_cons|Hin]; apply Hkeys.
      * subst d. right. apply list_elem_of_fmap. exists (dir, modules).
        split; [done|apply elem_of_obj_set].
      * by left.
      * right. by apply obj_set_keys.
    + intros k v [[= -> ->]|Hin]%elem_of_obj_set_inv; [done|by apply Hinv].
  - by rewrite (bind_Exit_eq _ _ _ _ Hbody) in Hres.
  - by rewrite (bind_Throw_eq _ _ _ _ Hbody) in Hres.
Qed.

Lemma scan_result (fs : FS) :
  result (scan fs)
  = match result (getWorkspaceDirs fs) with
    | Ok dirs => result (forOfAcc dirs ([], 0%nat) scanBody fs)
    | Exit code => Exit code
    | Throw e => Throw e
    end.
Proof.
  unfold Sync.scan, console_log. rewrite bind_console. cbn [result].
  destruct (result (getWorkspaceDirs fs)) as [dirs|code|e] eqn:Hd.
  - by rewrite (bind_readOnly_Ok _ _ fs _ (readOnly_getWorkspaceDirs _ _) Hd).
  - by rewrite (bind_Exit_eq _ _ _ _ Hd).
  - by rewrite (bind_Throw_eq _ _ _ _ Hd).
Qed.

Lemma main_result (fs : FS) :
  main fs
  = match result (scan fs) with
    | Ok scanned =>
        Out (result (commit scanned fs)) (disk (commit scanned fs))
          (trace (scan fs) ++ trace (commit scanned fs))
    | Exit code => Out (Exit code) fs (trace (scan fs))
    | Throw e => Out (Throw e) fs (trace (scan fs))
    end.
Proof.
  rewrite main_scan_commit.
  destruct (result (scan fs)) as [x|c|e] eqn:Hscan.
  - by rewrite (bind_readOnly_Ok _ _ fs _ (readOnly_scan _ _) Hscan).
  - rewrite (bind_Exit_eq _ _ _ _ Hscan). by rewrite (proj1 (readOnly_scan _ _ fs)).
  - rewrite (bind_Throw_eq _ _ _ _ Hscan). by rewrite (proj1 (readOnly_scan _ _ fs)).
Qed.

Lemma commit_effect (fs : FS) (modulesByDir : jsobj (list string)) (totalModules : nat) :
  let o := commit (modulesByDir, totalModules) fs in
  let content := Sync.generateGoWork modulesByDir in
  (∀ code, result o = Exit code → code = 1%nat)
  ∧ (mutations (trace o) = [] ∨ mutations (trace o) = [WriteFile GO_WORK_PATH content])
  ∧ (disk o = fs ∨ disk o = <[GO_WORK_PATH := FileE content]> fs).
Proof.
  intros o content. subst o. unfold Sync.commit. fold content.
  destruct totalModules; cbn [Nat.eqb].
  { unfold console_error. rewrite bind_console. cbn.
    split; [by intros code [= <-]|]. split; by left. }
  rewrite bind_existsSync. cbv zeta.
  pose proof (stat_GO_WORK_PATH __dirname fs) as Hst.
  assert (∀ tr, mutations tr = [] →
    let o := (writeFileSync GO_WORK_PATH content;;
              console_log (nl +:+ "✅ go.work synced — " +:+ pretty (S totalModules)
                              +:+ " modules registered.")) fs in
    (∀ code, result o = Exit code → code = 1%nat)
    ∧ (mutations (tr ++ trace o) = []
       ∨ mutations (tr ++ trace o) = [WriteFile GO_WORK_PATH content])
    ∧ (disk o = fs ∨ disk o = <[GO_WORK_PATH := FileE content]> fs)) as Hwrite.
  { intros tr Htr. cbv zeta. rewrite mutations_app, Htr.
    destruct (writeFileSync_cases GO_WORK_PATH content fs) as [(Hp & Hw)|(e & Hw)].
    - rewrite (bind_writeFileSync_ok _ _ _ _ Hw). cbn.
      split; [done|]. split; by right.
    - rewrite (bind_Throw_eq _ _ _ e) by (by rewrite Hw). rewrite Hw. cbn.
      split; [done|]. split; [by right|by left]. }
  destruct (fs !! GO_WORK_PATH) as [[c0|]|] eqn:Hfs.
  - rewrite bool_decide_eq_true_2 by (rewrite Hst; by eexists).
    rewrite bind_assoc, (bind_readFileSync_file _ _ _ _ Hst). cbv zeta.
    rewrite bind_ret. destruct (String.eqb c0 content).
    + cbn. split; [done|]. split; by left.
    + cbn [result disk trace].
      apply (Hwrite [Exists GO_WORK_PATH; ReadFile GO_WORK_PATH]). done.
  - rewrite bool_decide_eq_true_2 by (rewrite Hst; by eexists).
    rewrite bind_assoc, (bind_readFileSync_dir _ _ _ Hst). cbn.
    split; [done|]. split; by left.
  - rewrite bool_decide_eq_false_2 by (rewrite Hst; by intros [? ?]).
    rewrite bind_ret. cbn [result disk trace].
    apply (Hwrite [Exists GO_WORK_PATH]). done.
Qed.

Lemma post_discoverModules (baseDir : string) : post (discoverModules baseDir) noExit.
Proof.
  intros fs. rewrite discoverModules_result.
  destruct (stat fs _) as [[]|]; auto.
Qed.

Lemma scan_exit (fs : FS) (code : nat) : result (scan fs) = Exit code → code = 1%nat.
Proof.
  rewrite scan_result. pose proof (post_getWorkspaceDirs __dirname JSON_parse fs) as Hg.
  cbv beta in Hg.
  destruct (result (getWorkspaceDirs fs)) as [dirs|c|e]; [|by intros [= <-]|done].
  clear Hg. intros Hex. exfalso. revert Hex. generalize (@nil (string * list string), 0%nat).
  induction dirs as [|dir dirs IH]; intros [obj total]; [done|].
  cbn [forOfAcc]. pose proof (scanBody_result obj total dir fs) as Hbody.
  pose proof (post_discoverModules dir fs) as Hd.
  destruct (result (discoverModules dir fs)) as [modules|c|e].
  - rewrite (bind_readOnly_Ok _ _ fs _ (readOnly_scanBody _ _ _) Hbody). apply IH.
  - by destruct (Hd c).
  - by rewrite (bind_Throw_eq _ _ _ _ Hbody).
Qed.

(** X8: a run of the sync script exits with code 1 or not at all, attempts
    no mutation of the disk but at most one write of the generated text to
    [go.work], and leaves every other path as it was. *)
Theorem sync_main_effect (fs : FS) :
  let o := main fs in
  (∀ code, result o = Exit code → code = 1%nat)
  ∧ (mutations (trace o) = []
     ∨ ∃ content, mutations (trace o) = [WriteFile GO_WORK_PATH content])
  ∧ (∀ p, p ≠ GO_WORK_PATH → disk o !! p = fs !! p).
Proof.
  intros o. subst o. rewrite main_result.
  pose proof (scan_exit fs) as Hexit.
  pose proof (proj2 (readOnly_scan __dirname JSON_parse fs)) as Hmut.
  destruct (result (scan fs)) as [[modulesByDir totalModules]|c|e]; cbn [result disk trace].
  - destruct (commit_effect fs modulesByDir totalModules) as (Hc & Hm & Hd).
    split; [done|]. rewrite mutations_app, Hmut. cbn [app]. split.
    + destruct Hm as [Hm|Hm]; [by left|right; by eexists].
    + intros p Hp. destruct Hd as [->| ->]; [done|]. by rewrite lookup_insert_ne.
  - split; [intros code [= <-]; by apply Hexit|]. split; [by left|done].
  - split; [done|]. split; [by left|done].
Qed.

(** X9: when a run completes, every module found under a scan root has its
    line in the manifest on disk; the root is not named [__proto__], a key
    that an assignment does not add to an object. *)
Theorem sync_registers_modules (fs : FS) (dirs modules : list string) (dir mod_ : string) :
  result (main fs) = Ok tt →
  result (getWorkspaceDirs fs) = Ok dirs → dir ∈ dirs → dir ≠ "__proto__" →
  result (discoverModules dir fs) = Ok modules → mod_ ∈ modules →
  ∃ lines,
    disk (main fs) !! GO_WORK_PATH = Some (FileE (join nl lines))
    ∧ tab +:+ mod_ ∈ lines.
Proof.
  intros Hok Hdirs Hdir _ Hmods Hmod.
  pose proof (scan_result fs) as Hscan. rewrite Hdirs in Hscan.
  rewrite main_result in *.
  destruct (result (scan fs)) as [[modulesByDir totalModules]|c|e]; [|done..].
  cbn [result disk] in *.
  destruct (scan_loop_records fs dirs [] modulesByDir 0 totalModules) as [Hinv Hkeys];
    [done|by intros k v ?%elem_of_nil|].
  apply commit_Ok in Hok as (_ & _ & -> & _).
  exists (Sync.goWorkLines (Object_entries modulesByDir)).
  split; [by rewrite lookup_insert_eq|].
  specialize (Hkeys dir (or_introl Hdir)).
  apply list_elem_of_fmap in Hkeys as ([k v] & -> & Hin). simpl in *.
  assert (v = modules) as -> by (apply Hinv in Hin; congruence).
  unfold Sync.goWorkLines. rewrite !elem_of_app. right. left.
  apply (sections_modules _ _ _ k _ modules); [|done].
  by apply elem_of_Object_entries.
Qed.

End SyncEffect.

Lemma sync_registers_modules_witness :
  ∃ lines,
    disk (Sync.main Sample.scripts_dir Sample.JSON_parse Sample.workspace)
      !! Sync.GO_WORK_PATH Sample.scripts_dir
    = Some (FileE (join nl lines))
    ∧ tab +:+ "./apps/gateway" ∈ lines.
Proof.
  apply (sync_registers_modules Sample.scripts_dir Sample.JSON_parse Sample.workspace
           ["apps"; "packages"] ["./apps/auth"; "./apps/gateway"] "apps" "./apps/gateway").
  - by vm_compute.
  - by vm_compute.
  - left.
  - done.
  - by vm_compute.
  - right. left.
Defined.

(** ** The outcome of a deployment *)

Lemma writes_free_probes (tr : list event) :
  Forall (λ ev, isMutation ev = false) tr → mutations tr = [].
Proof.
  induction 1 as [|ev tr Hev _ IH]; [done|]. by rewrite mutations_cons_other.
Qed.

Section DeployOutcome.

Variable __dirname : path.
Variable sh : shell.

Local Abbreviation main := (Deploy.main __dirname sh).
Local Abbreviation ROOT := (Deploy.ROOT __dirname).

(** X10: the deployment script never throws and never writes: either it stops
    with exit code 1, the disk untouched and no command run, or it runs one
    orchestration command, on a compose file that exists and with a
    non-empty environment tag, and it succeeds when the command does and
    exits with code 1 when the command fails. *)
Theorem deploy_outcome (argv : list string) (DEPLOY_ENV : option string) (fs : FS) :
  let o := main argv DEPLOY_ENV fs in
  (result o = Exit 1 ∧ disk o = fs ∧ mutations (trace o) = [])
  ∨ ∃ selectedFile env,
      let command :=
        "docker compose -f " +:+ path_to_string selectedFile +:+ " up -d --build" in
      let ran := sh command None (Some env) fs in
      env ≠ ""
      ∧ is_Some (stat fs selectedFile)
      ∧ mutations (trace o) = [Exec command None (Some env)]
      ∧ disk o = ran.2
      ∧ result o = (if ran.1 then Ok tt else Exit 1).
Proof.
  intros o. subst o. unfold Deploy.main.
  destruct (truthy (default "" (argv !! 2%nat))); cbn [negb]; [|by left].
  rewrite bind_existsSync. cbv zeta.
  destruct (bool_decide (is_Some (stat fs _))); cbn [negb]; [|by left].
  set (dockerDir := path_join (path_join ROOT _) ["docker"]).
  set (candidates := Deploy.candidatesOf _).
  destruct (selectFile_spec dockerDir candidates fs) as [Hd Hsel]. cbv zeta in Hsel.
  destruct (list_find _ candidates) as [[i file]|] eqn:Hfind; destruct Hsel as [Hr Ht].
  - right. apply list_find_Some in Hfind as (_ & Hpresent & _).
    rewrite (bind_Ok_eq _ _ _ _ Hr), Hd, Ht. cbn [trace result disk].
    unfold console_log, console_error. rewrite !bind_console. cbn [trace result disk].
    set (tag := default "" (Deploy.deployEnvOf argv DEPLOY_ENV)).
    exists (path_join dockerDir [file]), (if truthy tag then tag else "local").
    cbv zeta. split.
    { unfold truthy. by destruct (String.eqb_spec tag ""). }
    split; [done|].
    unfold try_catch, bind, execSync.
    destruct (sh _ None _ fs) as [[] fs'];
      cbn [trace result disk console process_exit app fst snd];
      (split; [|done]);
      change (?x :: ?l ++ ?r) with ((x :: l) ++ r);
      rewrite mutations_app;
      rewrite (writes_free_probes (_ :: _)) by (by constructor; [|apply Forall_fmap, Forall_true]);
      done.
  - left. rewrite (bind_Ok_eq _ _ _ _ Hr), Hd, Ht. cbn [trace result disk].
    unfold console_log, console_error. rewrite !bind_console.
    unfold process_exit. cbn [trace result disk].
    split; [done|]. split; [done|].
    change (?x :: ?l ++ ?r) with ((x :: l) ++ r).
    rewrite mutations_app.
    by rewrite (writes_free_probes (_ :: _)) by (by constructor; [|apply Forall_fmap, Forall_true]).
Qed.

End DeployOutcome.

(** ** Creating directories *)

Lemma elem_of_ancestors_and_self (pre p q : path) :
  q ∈ ancestors_and_self pre p ↔ ∃ k, (0 < k ≤ length p)%nat ∧ q = pre ++ take k p.
Proof.
  revert pre. induction p as [|s p IH]; intros pre; simpl.
  - split; [by intros ?%elem_of_nil|]. intros (k & ? & _). lia.
  - rewrite elem_of_cons, IH. split.
    + intros [->|(k & Hk & ->)].
      * exists 1%nat. split; [lia|]. done.
      * exists (S k). split; [lia|]. by rewrite <- app_assoc.
    + intros (k & Hk & ->). destruct k as [|[|k]]; [lia|by left|].
      right. exists (S k). split; [lia|]. by rewrite <- app_assoc.
Qed.

(** The chain of [mkdirSync] holds the non-empty prefixes of the path. *)
Lemma elem_of_chain (p q : path) :
  q ∈ ancestors_and_self [] p ↔ q ≠ [] ∧ q `prefix_of` p.
Proof.
  rewrite elem_of_ancestors_and_self. split.
  - intros (k & Hk & ->). simpl. split.
    + destruct p, k; simpl in *; first [lia | done].
    + exists (drop k p). by rewrite take_drop.
  - intros [Hne [rest ->]]. exists (length q). split.
    + rewrite length_app. split; [|lia]. destruct q; [done|simpl; lia].
    + by rewrite take_app_length.
Qed.

Lemma lookup_foldr_insert_dirs (chain : list path) (fs : FS) (q : path) :
  foldr (λ q acc, <[q := DirE]> acc) fs chain !! q
  = if decide (q ∈ chain) then Some DirE else fs !! q.
Proof.
  induction chain as [|p chain IH]; cbn [foldr].
  - case_decide as Hin; [|reflexivity]. by apply elem_of_nil in Hin.
  - destruct (decide (p = q)) as [->|Hne].
    + rewrite lookup_insert_eq. clear IH.
      case_decide as Hin; [done|]. destruct Hin. left.
    + rewrite lookup_insert_ne by done. rewrite IH. clear IH.
      destruct (decide (q ∈ chain)) as [Hin|Hin],
        (decide (q ∈ p :: chain)) as [Hin'|Hin']; try done.
      * destruct Hin'. by right.
      * apply elem_of_cons in Hin' as [->|?]; done.
Qed.

Lemma forallb_chain_free (fs : FS) (chain : list path) :
  forallb (λ q, match fs !! q with Some (FileE _) => false | _ => true end) chain = true
  ↔ ∀ q, q ∈ chain → ∀ c, fs !! q ≠ Some (FileE c).
Proof.
  rewrite forallb_forall. split.
  - intros H q Hq c Hc. apply list_elem_of_In in Hq. specialize (H q Hq). by rewrite Hc in H.
  - intros H q Hq. apply list_elem_of_In in Hq. specialize (H q Hq).
    destruct (fs !! q) as [[c|]|]; [by destruct (H c)|done..].
Qed.

(** What [ensureDir] does where the directory is missing and no file stands
    in the way. *)
Lemma ensureDir_creates (dir : path) (fs : FS) :
  stat fs dir = None →
  (∀ q : path, q ≠ [] → q `prefix_of` dir → ∀ c, fs !! q ≠ Some (FileE c)) →
  result (ensureDir dir fs) = Ok tt
  ∧ trace (ensureDir dir fs) = [Exists dir; Mkdir dir]
  ∧ ∀ q : path, disk (ensureDir dir fs) !! q
         = if decide (q ≠ [] ∧ q `prefix_of` dir) then Some DirE else fs !! q.
Proof.
  intros Hst Hfree. unfold ensureDir. rewrite bind_existsSync. cbv zeta.
  rewrite bool_decide_eq_false_2 by (rewrite Hst; by intros [? ?]). cbn [negb].
  unfold mkdirSync.
  assert (forallb (λ q, match fs !! q with Some (FileE _) => false | _ => true end)
            (ancestors_and_self [] dir) = true) as ->.
  { apply forallb_chain_free. intros q [Hne Hpre]%elem_of_chain. by apply Hfree. }
  cbn [result trace disk app]. split; [done|]. split; [done|]. intros q.
  rewrite lookup_foldr_insert_dirs.
  destruct (decide (_ ∈ _)) as [Hin|Hin].
  - apply elem_of_chain in Hin. by rewrite decide_True.
  - rewrite decide_False; [done|]. intros H. by apply Hin, elem_of_chain.
Qed.

(** X11: [ensureDir] leaves the disk alone when the path exists, be it a file;
    where the path is missing and none of its prefixes is a file, it
    succeeds and makes every non-empty prefix of the path a directory,
    leaving all other paths as they were; where a prefix is a file it throws
    and leaves the disk as it was. *)
Theorem ensureDir_spec (dir : path) (fs : FS) :
  let o := ensureDir dir fs in
  (is_Some (stat fs dir) →
     result o = Ok tt ∧ disk o = fs ∧ mutations (trace o) = [])
  ∧ (stat fs dir = None →
     (∀ q : path, q ≠ [] → q `prefix_of` dir → ∀ c, fs !! q ≠ Some (FileE c)) →
     result o = Ok tt
     ∧ ∀ q : path, disk o !! q
            = if decide (q ≠ [] ∧ q `prefix_of` dir) then Some DirE else fs !! q)
  ∧ (stat fs dir = None →
     (∃ q c, q ≠ [] ∧ q `prefix_of` dir ∧ fs !! q = Some (FileE c)) →
     (∃ e, result o = Throw e) ∧ disk o = fs).
Proof.
  intros o. subst o. split; [|split].
  - intros Hsome. unfold ensureDir. rewrite bind_existsSync. cbv zeta.
    by rewrite bool_decide_eq_true_2.
  - intros Hst Hfree. destruct (ensureDir_creates dir fs Hst Hfree) as (? & _ & ?). done.
  - intros Hst (q & c & Hne & Hpre & Hfile). unfold ensureDir. rewrite bind_existsSync. cbv zeta.
    rewrite bool_decide_eq_false_2 by (rewrite Hst; by intros [? ?]). cbn [negb].
    unfold mkdirSync.
    assert (forallb (λ q, match fs !! q with Some (FileE _) => false | _ => true end)
              (ancestors_and_self [] dir) = false) as ->.
    { apply not_true_is_false. intros Hall.
      apply (proj1 (forallb_chain_free _ _) Hall q) with c; [|done].
      by apply elem_of_chain. }
    cbn. split; [by eexists|done].
Qed.

Lemma ensureDir_spec_witness :
  (result (ensureDir ["repo"; "package.json"] Sample.workspace) = Ok tt
   ∧ disk (ensureDir ["repo"; "package.json"] Sample.workspace) = Sample.workspace)
  ∧ (result (ensureDir ["repo"; "apps"; "billing"; "src"] Sample.workspace) = Ok tt
     ∧ disk (ensureDir ["repo"; "apps"; "billing"; "src"] Sample.workspace)
         !! ["repo"; "apps"; "billing"]
       = Some DirE)
  ∧ ∃ e, result (ensureDir ["repo"; "package.json"; "src"] Sample.workspace) = Throw e.
Proof.
  split; [|split].
  - destruct (proj1 (ensureDir_spec ["repo"; "package.json"] Sample.workspace))
      as (Hr & Hd & _); [by eexists|]. by split.
  - destruct (proj1 (proj2 (ensureDir_spec ["repo"; "apps"; "billing"; "src"]
                              Sample.workspace))) as [Hr Hd].
    + reflexivity.
    + intros q Hne Hpre c.
      assert (q ∈ ancestors_and_self [] ["repo"; "apps"; "billing"; "src"]) as Hq
        by by apply elem_of_chain.
      cbn in Hq. repeat (apply elem_of_cons in Hq as [->|Hq]); try by vm_compute.
      by apply elem_of_nil in Hq.
    + split; [exact Hr|]. rewrite Hd. apply decide_True. split; [done|].
      by exists ["src"].
  - apply (proj2 (proj2 (ensureDir_spec ["repo"; "package.json"; "src"] Sample.workspace))).
    + reflexivity.
    + exists ["repo"; "package.json"], "{}". split; [done|]. split; [by exists ["src"]|].
      reflexivity.
Defined.

(** ** Runs that succeed *)






(** ** Paths below a directory *)








(** ** Writing rendered files *)




(** ** The directories of a new unit *)



Section NewUnit.

Variable base : path.
Variable fs : FS.
Hypothesis Hbelow : ∀ q : path, base `prefix_of` q → fs !! q = None.
Hypothesis Habove : ∀ q : path, q ≠ [] → q `prefix_of` base → ∀ c, fs !! q ≠ Some (FileE c).







End NewUnit.

(** ** The commands after the files are written *)


(** ** A new app *)


Section MakeAppRun.

Variable __dirname : path.
Variable ejs_render : string → MakeApp.StubContext → option string.
Variable sh : shell.

Local Abbreviation ROOT := (MakeApp.ROOT __dirname).
Local Abbreviation APPS_DIR := (MakeApp.APPS_DIR __dirname).
Local Abbreviation STUBS_DIR := (MakeApp.STUBS_DIR __dirname).
Local Abbreviation renderStub := (MakeApp.renderStub __dirname ejs_render).
Local Abbreviation main := (MakeApp.main __dirname ejs_render sh).





End MakeAppRun.



(** ** A new package *)


Section MakePackageRun.

Variable __dirname : path.
Variable ejs_render : string → MakePackage.StubContext → option string.
Variable sh : shell.

Local Abbreviation ROOT := (MakePackage.ROOT __dirname).
Local Abbreviation PACKAGES_DIR := (MakePackage.PACKAGES_DIR __dirname).
Local Abbreviation STUBS_DIR := (MakePackage.STUBS_DIR __dirname).
Local Abbreviation renderStub := (MakePackage.renderStub __dirname ejs_render).
Local Abbreviation main := (MakePackage.main __dirname ejs_render sh).





End MakePackageRun.

